(** * Bin packing heuristics of the notebook [bin_packing.ipynb]

    A shallow embedding of [is_valid_packing], [next_fit], [first_fit],
    [first_fit_decreasing] and [print_bins]: the properties the
    specification states about them (C1 to C10), and further properties of
    the code (X1 to X24): the outcomes of the validator, the partition of
    the items, the order and the number of the bins, and, in exact
    arithmetic, how full the bins are.

    The notebook computes on NumPy arrays.  An array of item sizes is a
    [list R] for a number type [R] with the operations the code uses
    ([+], [-], unary [-], [<], [>], [==] and the literals 0 and 1).  Two
    instances are given: [float], the binary64 numbers of a default NumPy
    array, with the kernel's IEEE 754 operations, and [Q], exact rational
    arithmetic (the rational item sizes of the problem statement).  What
    depends only on the control flow is proved for every [R]; what depends
    on the arithmetic is proved for [Q] and evaluated for [float].

    A membership vector ([np.zeros(num_boxes)] with some entries set to 1)
    is a [list Z]: its entries are small whole numbers, on which the float
    operations of the source are exact.  The validator adds the bins up in
    binary64, which is exact for whole numbers up to 2^53 and rounds
    beyond; what is proved of its verdict on bins supplied by the caller is
    therefore stated for 0/1 vectors (or for the small entries that a
    statement names), and entries that are not whole numbers are outside
    the model.  An index is in range wherever the packers write or read
    one, so list updates and lookups never meet the [IndexError] of the
    source; the validator, which takes its bins from the caller, returns a
    [result]. *)

From Stdlib Require Import ZArith QArith Lqa Floats Lia Sorted.
From stdpp Require Import base list.

Set Default Proof Using "Type".
Set Warnings "-inexact-float".

(** ** Numbers *)

Class Num (R : Type) := MkNum {
  num_zero : R;
  num_one : R;
  num_add : R → R → R;
  num_sub : R → R → R;
  num_neg : R → R;
  num_lt : R → R → bool;
  num_eq : R → R → bool
}.

(** Python's [x > y]. *)
Definition num_gt {R} `{Num R} (x y : R) : bool := num_lt y x.

(** The laws of the comparisons that the structural properties rest on.
    They hold for binary64 (NaN included) and for the rationals. *)
Class NumLaws (R : Type) `{Num R} := MkNumLaws {
  num_lt_asym : ∀ x y : R, num_lt x y = true → num_lt y x = false;
  num_eq_not_lt : ∀ x y : R, num_eq x y = true → num_lt x y = false ∧ num_lt y x = false
}.

#[export] Instance float_num : Num float :=
  MkNum float 0%float 1%float PrimFloat.add PrimFloat.sub PrimFloat.opp
        PrimFloat.ltb PrimFloat.eqb.

#[export] Instance Q_num : Num Q :=
  MkNum Q 0%Q 1%Q Qplus Qminus Qopp (λ x y, negb (Qle_bool y x)) Qeq_bool.

(** ** Arrays *)

(** A membership vector: entry [i] is 1 when item [i] is in the bin. *)
Abbreviation vec := (list Z) (only parsing).

(** [np.zeros(n)] *)
Definition zeros (n : nat) : vec := replicate n 0%Z.

(** [np.ones(n)], the vector the validator compares with. *)
Definition ones (n : nat) : vec := replicate n 1%Z.

(** [np.any] of a comparison applied elementwise. *)
Definition np_any {A} (p : A → bool) (xs : list A) : bool := existsb p xs.

(** [x += b] on arrays of one shape, for whole numbers that binary64
    adds exactly. *)
Definition vec_add (x b : vec) : vec := zip_with Z.add x b.

(** [a[idx]] for an integer index array [idx]. *)
Definition gather {A} (d : A) (a : list A) (idx : list nat) : list A :=
  (λ k, nth k a d) <$> idx.

(** [target[idx] = vals], assigned from left to right. *)
Fixpoint scatter (target : list nat) (idx vals : list nat) : list nat :=
  match idx, vals with
  | i :: idx', v :: vals' => scatter (<[i := v]> target) idx' vals'
  | _, _ => target
  end.

(** The elementwise sum of the membership vectors of a packing of [n]
    items. *)
Definition col_sum (n : nat) (bins : list vec) : vec :=
  fold_left vec_add bins (zeros n).

(** The number of bins that item [i] is a member of. *)
Definition occurrences (bins : list vec) (i : nat) : nat :=
  length (filter (λ b : vec, b !! i = Some 1%Z) bins).

(** The items of bin [b] among the first [n], in increasing order. *)
Definition items_of (n : nat) (b : vec) : list nat :=
  filter (λ k, b !! k = Some 1%Z) (seq 0 n).

(** A vector of [n] entries, each 0 or 1. *)
Definition membership_vector (n : nat) (b : vec) : Prop :=
  length b = n ∧ Forall (λ e, e = 0%Z ∨ e = 1%Z) b.

(** A bin that holds at least one item. *)
Definition has_item (b : vec) : Prop := ∃ i : nat, b !! i = Some 1%Z.

(** Exceptions the validator can raise. *)
Inductive exn := ValueError | IndexError.

Inductive result (A : Type) :=
  | Return (a : A)
  | Raise (e : exn).
Arguments Return {A} a.
Arguments Raise {A} e.

Section Packing.
Context {R : Type} `{Num R}.

(** [box_widths[b == 1]] for arrays of one length. *)
Fixpoint select (box_widths : list R) (b : vec) : list R :=
  match box_widths, b with
  | w :: ws, e :: b' => if (e =? 1)%Z then w :: select ws b' else select ws b'
  | _, _ => []
  end.

(** [np.sum] of a one-dimensional float array is NumPy's pairwise
    summation.

    The unrolled loop of a block: the 8 accumulators [r] take the next 8
    numbers each, [chunks] times. *)
Fixpoint sum_unrolled (chunks : nat) (r xs : list R) : list R * list R :=
  match chunks with
  | O => (r, xs)
  | S chunks' =>
      sum_unrolled chunks' (zip_with num_add r (take 8 xs)) (drop 8 xs)
  end.

(** A block of 8 to 128 numbers: the accumulators start from the first 8
    numbers, take the full groups of 8 that follow, are added up two by
    two, and the numbers left over are added one by one. *)
Definition sum_block (xs : list R) : R :=
  let '(r, rest) :=
    sum_unrolled (length xs / 8 - 1) (take 8 xs) (drop 8 xs) in
  match r with
  | [r0; r1; r2; r3; r4; r5; r6; r7] =>
      fold_left num_add rest
        (num_add (num_add (num_add r0 r1) (num_add r2 r3))
                 (num_add (num_add r4 r5) (num_add r6 r7)))
  | _ => num_zero (* not reached: a block has 8 numbers or more *)
  end.

(** [pairwise_sum]: fewer than 8 numbers are added from 0, left to right;
    up to 128 numbers are one block; more are split in two, the first part
    a multiple of 8, and the sums of the parts are added.  [fuel] bounds
    the depth of the splits; the length of [xs] is enough
    ([pairwise_sum_fuel]). *)
Fixpoint pairwise_sum (fuel : nat) (xs : list R) : R :=
  let n := length xs in
  if n <? 8 then fold_left num_add xs num_zero
  else if n <=? 128 then sum_block xs
  else
    match fuel with
    | O => sum_block xs (* not reached *)
    | S fuel' =>
        let n2 := n / 2 - (n / 2) mod 8 in
        num_add (pairwise_sum fuel' (take n2 xs))
                (pairwise_sum fuel' (drop n2 xs))
    end.

(** [np.sum(xs)].  (The reduction adds the pairwise sum to its initial
    value, 0 or, in later versions of NumPy, -0.0, where fewer than 8
    numbers are also added from -0.0.  This decides the sign of a sum that
    is zero and changes nothing that a comparison sees.) *)
Definition np_sum (xs : list R) : R := pairwise_sum (length xs) xs.

(** *** The validator *)

(** The capacity test of one bin: [np.sum(box_widths[b == 1]) > 1]. *)
Definition overfull (box_widths : list R) (b : vec) : bool :=
  num_gt (np_sum (select box_widths b)) num_one.

(** The boolean mask [b == 1] can index [box_widths]: it has the length
    of the array, or it is empty; NumPy lets an empty mask through, and it
    selects nothing.  A mask of another length raises [IndexError]. *)
Definition mask_ok (box_widths : list R) (b : vec) : bool :=
  (length b =? length box_widths)%nat || (length b =? 0)%nat.

(** [x += b] in place, by the broadcasting rule: [b] has the shape of
    [x], or it has one entry, which is added to every entry of [x].  With
    another shape the addition raises [ValueError] ([None]). *)
Definition iadd (x b : vec) : option vec :=
  if (length b =? length x)%nat then Some (vec_add x b)
  else
    match b with
    | [e] => Some ((λ a, (a + e)%Z) <$> x)
    | _ => None
    end.

(** The [for b in bins] loop of [is_valid_packing], with the running
    total [x].  [Return None] is the early [return False];
    [Return (Some x)] is the fall-through with the final [x]. *)
Fixpoint is_valid_packing_loop (box_widths : list R) (bins : list vec)
    (x : vec) : result (option vec) :=
  match bins with
  | [] => Return (Some x)
  | b :: bins' =>
      if negb (mask_ok box_widths b) then Raise IndexError
      else if overfull box_widths b then Return None
      else
        match iadd x b with
        | Some x' => is_valid_packing_loop box_widths bins' x'
        | None => Raise ValueError
        end
  end.

Definition is_valid_packing (box_widths : list R) (bins : list vec)
    : result bool :=
  if np_any (λ w, num_gt w num_one) box_widths
     || np_any (λ w, num_lt w num_zero) box_widths
  then Raise ValueError
  else
    match bins with
    | [] => Raise IndexError (* bins[0] *)
    | b0 :: _ =>
        match is_valid_packing_loop box_widths bins (zeros (length b0)) with
        | Raise e => Raise e
        | Return None => Return false
        | Return (Some x) =>
            if np_any (λ e, negb (e =? 1)%Z) x then Return false
            else Return true
        end
    end.

(** *** NEXT-FIT *)

Record nf_state := NfState {
  nf_bins : list vec;
  nf_current_bin : vec;
  nf_available_space : R
}.

(** Whether the loop body opens a new bin for [box_width]. *)
Definition nf_opens (box_width : R) (st : nf_state) : bool :=
  num_gt box_width (nf_available_space st).

(** The body of the [for] loop of [next_fit] for item [i]. *)
Definition next_fit_body (num_boxes i : nat) (box_width : R)
    (st : nf_state) : nf_state :=
  let st1 :=
    if nf_opens box_width st
    then NfState (nf_bins st ++ [nf_current_bin st]) (zeros num_boxes) num_one
    else st in
  NfState (nf_bins st1)
          (<[i := 1%Z]> (nf_current_bin st1))
          (num_sub (nf_available_space st1) box_width).

(** The [for] loop, from item [i] on, over the items not yet seen. *)
Fixpoint next_fit_loop (num_boxes i : nat) (rest : list R)
    (st : nf_state) : nf_state :=
  match rest with
  | [] => st
  | box_width :: rest' =>
      next_fit_loop num_boxes (S i) rest'
                    (next_fit_body num_boxes i box_width st)
  end.

Definition nf_init (num_boxes : nat) : nf_state :=
  NfState [] (zeros num_boxes) num_one.

Definition next_fit (box_widths : list R) : list vec :=
  let num_boxes := length box_widths in
  let st := next_fit_loop num_boxes 0 box_widths (nf_init num_boxes) in
  nf_bins st ++ [nf_current_bin st].

(** The state of a run of [next_fit] when [k] items have been placed. *)
Definition nf_state_after (box_widths : list R) (k : nat) : nf_state :=
  let num_boxes := length box_widths in
  next_fit_loop num_boxes 0 (take k box_widths) (nf_init num_boxes).

(** *** FIRST-FIT *)

Record ff_state := FfState {
  ff_bins : list vec;
  ff_available_space : list R
}.

(** [available_space[j]] *)
Definition space_at (st : ff_state) (j : nat) : R :=
  nth j (ff_available_space st) num_zero.

(** Box [i] goes into bin [j]. *)
Definition ff_put (i : nat) (box_width : R) (j : nat) (st : ff_state)
    : ff_state :=
  FfState (alter (λ b, <[i := 1%Z]> b) j (ff_bins st))
          (alter (λ a, num_sub a box_width) j (ff_available_space st)).

(** Box [i] goes into a new bin. *)
Definition ff_open (num_boxes i : nat) (box_width : R) (st : ff_state)
    : ff_state :=
  FfState (ff_bins st ++ [<[i := 1%Z]> (zeros num_boxes)])
          (ff_available_space st ++ [num_sub num_one box_width]).

(** The [while not is_box_placed and j < len(bins)] loop; [fuel] is
    [len(bins) - j].  The boolean is [is_box_placed]. *)
Fixpoint first_fit_while (fuel i : nat) (box_width : R) (j : nat)
    (st : ff_state) : ff_state * bool :=
  match fuel with
  | O => (st, false)
  | S fuel' =>
      if num_lt box_width (space_at st j)
      then (ff_put i box_width j st, true)
      else first_fit_while fuel' i box_width (S j) st
  end.

(** The body of the [for] loop of [first_fit] for item [i]. *)
Definition first_fit_body (num_boxes i : nat) (box_width : R)
    (st : ff_state) : ff_state :=
  let '(st', is_box_placed) :=
    first_fit_while (length (ff_bins st)) i box_width 0 st in
  if is_box_placed then st' else ff_open num_boxes i box_width st'.

Fixpoint first_fit_loop (num_boxes i : nat) (rest : list R)
    (st : ff_state) : ff_state :=
  match rest with
  | [] => st
  | box_width :: rest' =>
      first_fit_loop num_boxes (S i) rest'
                     (first_fit_body num_boxes i box_width st)
  end.

Definition ff_init (num_boxes : nat) : ff_state :=
  FfState [zeros num_boxes] [num_one].

Definition first_fit (box_widths : list R) : list vec :=
  let num_boxes := length box_widths in
  ff_bins (first_fit_loop num_boxes 0 box_widths (ff_init num_boxes)).

(** The state of a run of [first_fit] when [k] items have been placed. *)
Definition ff_state_after (box_widths : list R) (k : nat) : ff_state :=
  let num_boxes := length box_widths in
  first_fit_loop num_boxes 0 (take k box_widths) (ff_init num_boxes).

(** *** FIRST-FIT-DECREASING *)

(** Insertion of index [i] into the index list [sorted], which is in
    nondecreasing order of key: [i] goes after the indices whose key is
    not greater. *)
Fixpoint argsort_insert (keys : list R) (i : nat) (sorted : list nat)
    : list nat :=
  match sorted with
  | [] => [i]
  | j :: sorted' =>
      if num_lt (nth i keys num_zero) (nth j keys num_zero)
      then i :: j :: sorted'
      else j :: argsort_insert keys i sorted'
  end.

(** [np.argsort(keys)]: the indices that sort [keys] in nondecreasing
    order, here by insertion, which keeps equal keys in their order.
    NumPy's default sort is not stable, and it puts NaN last: for equal
    keys and for NaN it may return another of the permutations that
    [is_argsort] admits. *)
Definition argsort (keys : list R) : list nat :=
  fold_left (λ sorted i, argsort_insert keys i sorted)
            (seq 0 (length keys)) [].

(** Index [i] may come before index [j] in the sorted order: the key of
    [j] is not below the key of [i]. *)
Definition key_order (keys : list R) (i j : nat) : Prop :=
  num_lt (nth j keys num_zero) (nth i keys num_zero) = false.

(** What [np.argsort(keys)] may return: a permutation of the positions of
    [keys] in which no position is followed by one with a smaller key.
    The order of equal keys is left open. *)
Definition is_argsort (keys : list R) (indices : list nat) : Prop :=
  indices ≡ₚ seq 0 (length keys) ∧ Sorted (key_order keys) indices.

(** [undo_sort]: [np.empty_like(indices)] filled by
    [undo_sort[indices] = np.arange(n)]. *)
Definition undo_sort (indices : list nat) : list nat :=
  scatter (replicate (length indices) 0%nat) indices
          (seq 0 (length indices)).

(** The indices FIRST-FIT-DECREASING sorts with, and the sorted sizes. *)
Definition ffd_indices (box_widths : list R) : list nat :=
  argsort (num_neg <$> box_widths).

Definition ffd_sorted (box_widths : list R) : list R :=
  gather num_zero box_widths (ffd_indices box_widths).

(** [first_fit_decreasing] from the sort indices on: FIRST-FIT on the
    permuted sizes, then [[b[undo_sort] for b in bins]]. *)
Definition first_fit_decreasing_with (indices : list nat)
    (box_widths : list R) : list vec :=
  let bins := first_fit (gather num_zero box_widths indices) in
  let undo := undo_sort indices in
  (λ b, gather 0%Z b undo) <$> bins.

Definition first_fit_decreasing (box_widths : list R) : list vec :=
  let indices := ffd_indices box_widths in
  first_fit_decreasing_with indices box_widths.

(** [print_bins]: the sizes in each bin, [items[b == 1]]. *)
Definition bin_contents (items : list R) (bins : list vec) : list (list R) :=
  select items <$> bins.

(** Item [i] is a member of bin [j]. *)
Definition member (bins : list vec) (j i : nat) : bool :=
  match bins !! j with
  | Some b => match b !! i with Some e => (e =? 1)%Z | None => false end
  | None => false
  end.

End Packing.

Arguments nf_state : clear implicits.
Arguments ff_state : clear implicits.

(** ** Invariants of the loops *)

Section Invariants.
Context {R : Type} `{Num R}.

(** Every bin of [next_fit], closed or open, is a vector over the [n]
    items and holds an item. *)
Definition nf_inv (n : nat) (st : nf_state R) : Prop :=
  Forall (λ b, length b = n ∧ has_item b) (nf_bins st)
  ∧ length (nf_current_bin st) = n
  ∧ has_item (nf_current_bin st).

(** Every bin of [first_fit] is a vector over the [n] items and holds an
    item. *)
Definition ff_inv (n : nat) (st : ff_state R) : Prop :=
  Forall (λ b, length b = n ∧ has_item b) (ff_bins st).

End Invariants.

(** ** Exact arithmetic *)

(** The sum of a list of rationals. *)
Definition Qsum (l : list Q) : Q := fold_right Qplus 0%Q l.

(** The total size of the items of a bin. *)
Definition weight (ws : list Q) (b : vec) : Q := Qsum (select ws b).

(** The operations of [Q_num] as the operations of [Q]. *)
Ltac Qnum :=
  change (@num_one Q Q_num) with 1%Q in *;
  change (@num_zero Q Q_num) with 0%Q in *;
  change (@num_sub Q Q_num) with Qminus in *;
  change (@num_add Q Q_num) with Qplus in *.

(** The invariant of the loop of [next_fit] when [i] items are placed:
    closed bins are within capacity, the available space is what the open
    bin leaves of the capacity, and items below [i] are in exactly one
    bin, the others in none. *)
Definition nf_exact (ws : list Q) (i : nat) (st : nf_state Q) : Prop :=
  Forall (λ b, membership_vector (length ws) b ∧ (weight ws b <= 1)%Q)
         (nf_bins st)
  ∧ membership_vector (length ws) (nf_current_bin st)
  ∧ (nf_available_space st == 1 - weight ws (nf_current_bin st))%Q
  ∧ (0 <= nf_available_space st)%Q
  ∧ (∀ k, k < length ws →
       occurrences (nf_bins st ++ [nf_current_bin st]) k
       = if decide (k < i) then 1 else 0).

(** What the bookkeeping of [first_fit] says of a bin [b] with recorded
    available space [a]. *)
Definition ff_bin_ok (ws : list Q) (b : vec) (a : Q) : Prop :=
  membership_vector (length ws) b ∧ (a == 1 - weight ws b)%Q ∧ (0 <= a)%Q.

(** The invariant of the loop of [first_fit] when [i] items are placed. *)
Definition ff_exact (ws : list Q) (i : nat) (st : ff_state Q) : Prop :=
  Forall2 (ff_bin_ok ws) (ff_bins st) (ff_available_space st)
  ∧ (∀ k, k < length ws →
       occurrences (ff_bins st) k = if decide (k < i) then 1 else 0).

(** The rational number that a finite binary64 number is. *)
Definition Q_of_float (x : float) : Q :=
  match Prim2SF x with
  | S754_finite s m e =>
      let q := (inject_Z (Zpos m) * Qpower 2 e)%Q in
      if s then (- q)%Q else q
  | _ => 0%Q
  end.

(** ** Coverage *)

(** The items below [i] are in exactly one of [bins], the others in none;
    the bins are membership vectors over [n] items. *)
Definition placed_once (n i : nat) (bins : list vec) : Prop :=
  Forall (membership_vector n) bins
  ∧ ∀ k, k < n → occurrences bins k = if decide (k < i) then 1 else 0.

(** No bin of [bins] is over capacity, as the validator tests it. *)
Definition within_capacity {R} `{Num R} (box_widths : list R)
    (bins : list vec) : bool :=
  forallb (λ b, negb (overfull box_widths b)) bins.

(** A bin that the loop of the validator gets past, when the running
    total has [l] entries: the mask can index the sizes, the bin is within
    capacity, and the bin can be added to the total. *)
Definition bin_passes {R} `{Num R} (box_widths : list R) (l : nat)
    (b : vec) : Prop :=
  mask_ok box_widths b = true
  ∧ overfull box_widths b = false
  ∧ (length b = l ∨ length b = 1).

(** ** How full the bins are *)

(** The number of entries of a list, as a rational. *)
Definition Qlen {A} (l : list A) : Q := inject_Z (Z.of_nat (length l)).

(** Any two neighbours in a list of total sizes add up to more than 1. *)
Definition adjacent_exceed (qs : list Q) : Prop :=
  ∀ j a b, qs !! j = Some a → qs !! S j = Some b → (1 < a + b)%Q.

(** Any two entries of a list of total sizes add up to at least 1. *)
Definition pairs_reach (qs : list Q) : Prop :=
  ∀ j j' a b, j < j' → qs !! j = Some a → qs !! j' = Some b →
    (1 <= a + b)%Q.

(** No item of a bin is smaller than the available space on record for a
    bin before it. *)
Definition ff_tight (ws : list Q) (st : ff_state Q) : Prop :=
  ∀ j j' b' k w, j < j' → ff_bins st !! j' = Some b' →
    b' !! k = Some 1%Z → ws !! k = Some w → (space_at st j <= w)%Q.

(** ** The inputs of the worked example *)

Definition example_f : list float :=
  [0.09; 0.69; 0.79; 0.29; 0.89; 0.19]%float.

Definition example_Q : list Q :=
  [9 # 100; 69 # 100; 79 # 100; 29 # 100; 89 # 100; 19 # 100]%Q.

(** Four sizes whose binary64 values add up to a little more than 1. *)
Definition rounding_input : list float := [0.45; 0.4; 0.05; 0.1]%float.

(** Six sizes of 5e-17, each lost when it is subtracted from 1, and the
    largest binary64 number below 1. *)
Definition absorbed_input : list float :=
  [5e-17; 5e-17; 5e-17; 5e-17; 5e-17; 5e-17; 0.9999999999999999]%float.

(** ** Laws of the two number types *)

Lemma SFcompare_antisym (x y : spec_float) :
  SFcompare y x = option_map CompOpp (SFcompare x y).
Proof.
  destruct x as [sx| sx | |sx mx ex], y as [sy|sy| |sy my ey]; simpl;
    try reflexivity; try (destruct sx; reflexivity);
    try (destruct sy; reflexivity); try (destruct sx, sy; reflexivity).
  destruct sx, sy; simpl; try reflexivity;
    rewrite (Z.compare_antisym ey ex);
    destruct (ey ?= ex)%Z; simpl; try reflexivity;
    by rewrite ?CompOpp_involutive, ?(Pos.compare_cont_antisym _ _ Eq).
Qed.

#[export] Instance float_laws : NumLaws float.
Proof.
  split; simpl; intros x y.
  - rewrite !ltb_spec. unfold SFltb.
    rewrite (SFcompare_antisym (Prim2SF x) (Prim2SF y)).
    by destruct (SFcompare (Prim2SF x) (Prim2SF y)) as [[]|].
  - rewrite FloatAxioms.eqb_spec, !ltb_spec. unfold SFeqb, SFltb.
    rewrite (SFcompare_antisym (Prim2SF x) (Prim2SF y)).
    by destruct (SFcompare (Prim2SF x) (Prim2SF y)) as [[]|].
Qed.

Lemma Q_lt_true (x y : Q) : num_lt x y = true ↔ (x < y)%Q.
Proof.
  simpl. rewrite negb_true_iff, <- not_true_iff_false, Qle_bool_iff.
  split; [apply Qnot_le_lt | apply Qlt_not_le].
Qed.

Lemma Q_lt_false (x y : Q) : num_lt x y = false ↔ (y <= x)%Q.
Proof. simpl. by rewrite negb_false_iff, Qle_bool_iff. Qed.

#[export] Instance Q_laws : NumLaws Q.
Proof.
  split; intros x y.
  - rewrite Q_lt_true, Q_lt_false. lra.
  - simpl num_eq. rewrite Qeq_bool_iff, !Q_lt_false. lra.
Qed.

(** ** The summation of [np.sum] *)

Section Summation.
Context {R : Type} `{Num R}.

Lemma pairwise_sum_eq fuel (xs : list R) :
  pairwise_sum fuel xs
  = if length xs <? 8 then fold_left num_add xs num_zero
    else if length xs <=? 128 then sum_block xs
    else
      match fuel with
      | O => sum_block xs
      | S fuel' =>
          let n2 := length xs / 2 - (length xs / 2) mod 8 in
          num_add (pairwise_sum fuel' (take n2 xs))
                  (pairwise_sum fuel' (drop n2 xs))
      end.
Proof. by destruct fuel. Qed.

(** Where an array of more than 128 numbers is split: both parts are
    shorter than the array. *)
Lemma pairwise_split n :
  128 < n → 0 < n / 2 - (n / 2) mod 8 ∧ n / 2 - (n / 2) mod 8 < n.
Proof.
  intros Hn.
  pose proof (Nat.mod_upper_bound (n / 2) 8 ltac:(lia)).
  pose proof (Nat.div_le_lower_bound n 2 64 ltac:(lia) ltac:(lia)).
  pose proof (Nat.div_lt n 2 ltac:(lia) ltac:(lia)).
  lia.
Qed.

(** The fuel does not matter once it reaches the length of the array: no
    sum runs out of fuel. *)
Lemma pairwise_sum_fuel_irrelevant fuel fuel' (xs : list R) :
  length xs ≤ fuel → length xs ≤ fuel' →
  pairwise_sum fuel xs = pairwise_sum fuel' xs.
Proof.
  revert fuel' xs. induction fuel as [|fuel IH]; intros fuel' xs Hf Hf'.
  - rewrite !pairwise_sum_eq.
    destruct (length xs <? 8) eqn:E8; [done|].
    destruct (length xs <=? 128) eqn:E128; [done|].
    apply Nat.leb_gt in E128. lia.
  - rewrite (pairwise_sum_eq (S fuel)), (pairwise_sum_eq fuel').
    destruct (length xs <? 8) eqn:E8; [done|].
    destruct (length xs <=? 128) eqn:E128; [done|].
    apply Nat.leb_gt in E128.
    destruct fuel' as [|fuel']; [lia|]. cbn zeta.
    destruct (pairwise_split (length xs) E128) as [Hpos Hlt].
    f_equal; apply IH; rewrite ?length_take, ?length_drop; lia.
Qed.

Lemma pairwise_sum_fuel fuel (xs : list R) :
  length xs ≤ fuel → pairwise_sum fuel xs = pairwise_sum (length xs) xs.
Proof. intros Hf. by apply pairwise_sum_fuel_irrelevant. Qed.

(** Fewer than 8 numbers are added from left to right. *)
Lemma np_sum_short (xs : list R) :
  length xs < 8 → np_sum xs = fold_left num_add xs num_zero.
Proof.
  intros Hlt. unfold np_sum. rewrite pairwise_sum_eq.
  by rewrite (proj2 (Nat.ltb_lt _ _) Hlt).
Qed.

End Summation.

(** ** Runs of the two loops *)

Section Runs.
Context {R : Type} `{Num R}.

Lemma next_fit_loop_app n i (l1 l2 : list R) st :
  next_fit_loop n i (l1 ++ l2) st
  = next_fit_loop n (i + length l1) l2 (next_fit_loop n i l1 st).
Proof.
  revert i st. induction l1 as [|w l1 IH]; intros i st; simpl.
  - by rewrite Nat.add_0_r.
  - rewrite IH. f_equal. lia.
Qed.

Lemma first_fit_loop_app n i (l1 l2 : list R) st :
  first_fit_loop n i (l1 ++ l2) st
  = first_fit_loop n (i + length l1) l2 (first_fit_loop n i l1 st).
Proof.
  revert i st. induction l1 as [|w l1 IH]; intros i st; simpl.
  - by rewrite Nat.add_0_r.
  - rewrite IH. f_equal. lia.
Qed.

(** Each item is handled by one run of the loop body, in input order. *)
Lemma nf_state_after_S (box_widths : list R) k w :
  box_widths !! k = Some w →
  nf_state_after box_widths (S k)
  = next_fit_body (length box_widths) k w (nf_state_after box_widths k).
Proof.
  intros Hk. unfold nf_state_after.
  rewrite (take_S_r _ _ _ Hk), next_fit_loop_app. simpl.
  rewrite length_take, Nat.min_l; [done|].
  apply lookup_lt_Some in Hk. lia.
Qed.

Lemma ff_state_after_S (box_widths : list R) k w :
  box_widths !! k = Some w →
  ff_state_after box_widths (S k)
  = first_fit_body (length box_widths) k w (ff_state_after box_widths k).
Proof.
  intros Hk. unfold ff_state_after.
  rewrite (take_S_r _ _ _ Hk), first_fit_loop_app. simpl.
  rewrite length_take, Nat.min_l; [done|].
  apply lookup_lt_Some in Hk. lia.
Qed.

Lemma next_fit_after (box_widths : list R) :
  let st := nf_state_after box_widths (length box_widths) in
  next_fit box_widths = nf_bins st ++ [nf_current_bin st].
Proof. unfold nf_state_after, next_fit. by rewrite firstn_all. Qed.

Lemma first_fit_after (box_widths : list R) :
  first_fit box_widths
  = ff_bins (ff_state_after box_widths (length box_widths)).
Proof. unfold ff_state_after, first_fit. by rewrite firstn_all. Qed.

(** The scan of the open bins passes over the bins that do not fit and
    stops at the first that does. *)
Lemma first_fit_while_skip fuel i (w : R) j st k :
  k ≤ fuel →
  (∀ j', j ≤ j' < j + k → num_lt w (space_at st j') = false) →
  first_fit_while fuel i w j st
  = first_fit_while (fuel - k) i w (j + k) st.
Proof.
  revert fuel j. induction k as [|k IH]; intros fuel j Hk Hno.
  - by rewrite Nat.sub_0_r, Nat.add_0_r.
  - destruct fuel as [|fuel]; [lia|]. simpl.
    rewrite (Hno j) by lia.
    rewrite IH; [f_equal; lia | lia |].
    intros j' Hj'. apply Hno. lia.
Qed.

(** [available_space] has one entry for each open bin. *)
Lemma first_fit_while_lengths fuel i (w : R) j st :
  length (ff_available_space st) = length (ff_bins st) →
  length (ff_available_space (first_fit_while fuel i w j st).1)
  = length (ff_bins (first_fit_while fuel i w j st).1).
Proof.
  revert j. induction fuel as [|fuel IH]; intros j Hlen; simpl; [done|].
  destruct (num_lt w (space_at st j)); [|by apply IH].
  simpl. by rewrite !length_alter.
Qed.

Lemma first_fit_body_lengths n i (w : R) st :
  length (ff_available_space st) = length (ff_bins st) →
  length (ff_available_space (first_fit_body n i w st))
  = length (ff_bins (first_fit_body n i w st)).
Proof.
  intros Hlen. unfold first_fit_body.
  pose proof (first_fit_while_lengths (length (ff_bins st)) i w 0 st Hlen)
    as Hwhile.
  destruct (first_fit_while (length (ff_bins st)) i w 0 st)
    as [st' placed]. simpl in Hwhile.
  destruct placed; [done|]. simpl. rewrite !length_app. simpl. lia.
Qed.

Lemma ff_state_after_lengths (box_widths : list R) k :
  length (ff_available_space (ff_state_after box_widths k))
  = length (ff_bins (ff_state_after box_widths k)).
Proof.
  unfold ff_state_after.
  assert (∀ rest i st,
            length (ff_available_space st) = length (ff_bins st) →
            length (ff_available_space
                      (first_fit_loop (length box_widths) i rest st))
            = length (ff_bins (first_fit_loop (length box_widths) i rest st)))
    as Hloop.
  { induction rest as [|w rest IH]; intros i st Hst; [done|]. simpl.
    by apply IH, first_fit_body_lengths. }
  by apply Hloop.
Qed.

End Runs.

(** ** The fit tests of the two heuristics *)

(** C5: [next_fit] returns the bins of its state after the last item, and
    in a run, when item [k] of size [w] comes up, a new bin is opened
    exactly when [w] strictly exceeds the available space of the open bin:
    then the open bin is closed (appended to the output) and the item
    starts a fresh bin; otherwise the item joins the open bin.  A size
    equal to the available space does not exceed it, so such an item joins
    the open bin. *)
Theorem next_fit_opens_iff_exceeds {R} `{NumLaws R}
    (box_widths : list R) (k : nat) (w : R) :
  box_widths !! k = Some w →
  let n := length box_widths in
  let st := nf_state_after box_widths k in
  let st' := nf_state_after box_widths (S k) in
  next_fit box_widths
  = nf_bins (nf_state_after box_widths n)
    ++ [nf_current_bin (nf_state_after box_widths n)]
  ∧ (num_gt w (nf_available_space st) = true →
     st' = NfState (nf_bins st ++ [nf_current_bin st])
                   (<[k := 1%Z]> (zeros n)) (num_sub num_one w))
  ∧ (num_gt w (nf_available_space st) = false →
     st' = NfState (nf_bins st) (<[k := 1%Z]> (nf_current_bin st))
                   (num_sub (nf_available_space st) w))
  ∧ (num_eq w (nf_available_space st) = true →
     st' = NfState (nf_bins st) (<[k := 1%Z]> (nf_current_bin st))
                   (num_sub (nf_available_space st) w))
  ∧ (length (nf_bins st') = S (length (nf_bins st))
     ↔ num_gt w (nf_available_space st) = true).
Proof.
  intros Hk n st st'. subst st'. split; [apply next_fit_after|].
  rewrite (nf_state_after_S _ _ _ Hk). fold n st.
  unfold next_fit_body, nf_opens. repeat split.
  - by intros ->.
  - by intros ->.
  - intros Heq. apply num_eq_not_lt in Heq as [_ Hlt].
    unfold num_gt. by rewrite Hlt.
  - destruct (num_gt w (nf_available_space st)); simpl; [done|lia].
  - intros ->. simpl. rewrite length_app. simpl. lia.
Qed.

Lemma next_fit_opens_iff_exceeds_witness :
  let ws := [0.5; 0.5; 0.25]%float in
  nf_state_after ws 2
  = NfState [] [1; 1; 0]%Z (nf_available_space (nf_state_after ws 2))
  ∧ nf_state_after ws 3
    = NfState [[1; 1; 0]%Z] [0; 0; 1]%Z
              (nf_available_space (nf_state_after ws 3)).
Proof.
  pose proof (next_fit_opens_iff_exceeds [0.5; 0.5; 0.25]%float 1 0.5%float
                eq_refl) as (_ & _ & _ & Heq & _).
  pose proof (next_fit_opens_iff_exceeds [0.5; 0.5; 0.25]%float 2 0.25%float
                eq_refl) as (_ & Hgt & _).
  split.
  - rewrite (Heq eq_refl). reflexivity.
  - rewrite (Hgt eq_refl). reflexivity.
Defined.

(** C4: [first_fit] returns the bins of its state after the last item,
    every open bin has its available space on record, and in a run item
    [k] of size [w] goes into the first open bin whose available space
    strictly exceeds [w]; when no open bin has such space, a new bin that
    holds just this item is opened, with available space [1 - w].  A bin
    whose available space equals [w] does not fit: the scan moves on to
    the next bin. *)
Theorem first_fit_first_strict_fit {R} `{NumLaws R}
    (box_widths : list R) (k : nat) (w : R) :
  box_widths !! k = Some w →
  let n := length box_widths in
  let st := ff_state_after box_widths k in
  let st' := ff_state_after box_widths (S k) in
  first_fit box_widths = ff_bins (ff_state_after box_widths n)
  ∧ length (ff_available_space st) = length (ff_bins st)
  ∧ (∀ j, j < length (ff_bins st) →
     num_lt w (space_at st j) = true →
     (∀ j', j' < j → num_lt w (space_at st j') = false) →
     st' = FfState (alter (λ b, <[k := 1%Z]> b) j (ff_bins st))
                   (alter (λ a, num_sub a w) j (ff_available_space st)))
  ∧ ((∀ j, j < length (ff_bins st) → num_lt w (space_at st j) = false) →
     st' = FfState (ff_bins st ++ [<[k := 1%Z]> (zeros n)])
                   (ff_available_space st ++ [num_sub num_one w]))
  ∧ (∀ j, num_eq w (space_at st j) = true →
     num_lt w (space_at st j) = false
     ∧ ∀ fuel, first_fit_while (S fuel) k w j st
               = first_fit_while fuel k w (S j) st).
Proof.
  intros Hk n st st'. subst st'. split; [apply first_fit_after|].
  split; [apply ff_state_after_lengths|].
  rewrite (ff_state_after_S _ _ _ Hk). fold n st.
  unfold first_fit_body. split; [|split].
  - intros j Hj Hfit Hno.
    rewrite (first_fit_while_skip _ _ _ 0 st j); [|lia|intros; apply Hno; lia].
    destruct (length (ff_bins st) - j) as [|fuel] eqn:E; [lia|].
    simpl. by rewrite Hfit.
  - intros Hno.
    rewrite (first_fit_while_skip _ _ _ 0 st (length (ff_bins st)));
      [|lia|intros; apply Hno; lia].
    by rewrite Nat.sub_diag.
  - intros j Heq. apply num_eq_not_lt in Heq as [Hlt _].
    split; [done|]. intros fuel. simpl. by rewrite Hlt.
Qed.

Lemma first_fit_first_strict_fit_witness :
  let ws := [0.5; 0.5; 0.25]%float in
  ff_bins (ff_state_after ws 2) = [[1; 0; 0]; [0; 1; 0]]%Z
  ∧ ff_bins (ff_state_after ws 3) = [[1; 0; 1]; [0; 1; 0]]%Z.
Proof.
  pose proof (first_fit_first_strict_fit [0.5; 0.5; 0.25]%float 1 0.5%float
                eq_refl) as (_ & _ & _ & Hnew & _).
  pose proof (first_fit_first_strict_fit [0.5; 0.5; 0.25]%float 2 0.25%float
                eq_refl) as (_ & _ & Hput & _).
  split.
  - rewrite Hnew; [reflexivity|].
    intros [|[|j]] Hj; [reflexivity | simpl in Hj; lia | simpl in Hj; lia].
  - rewrite (Hput 0); [reflexivity| simpl; lia | reflexivity | intros; lia].
Defined.

(** ** The empty input *)

(** C8: on the empty input [next_fit] returns exactly one bin, and that
    bin holds no item: the initial bin is appended after the loop. *)
Theorem next_fit_empty {R} `{Num R} :
  next_fit (@nil R) = [zeros 0]
  ∧ length (next_fit (@nil R)) = 1
  ∧ ∀ j i, member (next_fit (@nil R)) j i = false.
Proof.
  split; [reflexivity|]. split; [reflexivity|].
  intros [|j] i; reflexivity.
Qed.

(** C10: on the empty input [first_fit] and [first_fit_decreasing] each
    return exactly one bin, which holds no item: the bin [first_fit]
    starts with stays in the output. *)
Theorem first_fit_empty {R} `{Num R} :
  (first_fit (@nil R) = [zeros 0]
   ∧ length (first_fit (@nil R)) = 1
   ∧ ∀ j i, member (first_fit (@nil R)) j i = false)
  ∧ (first_fit_decreasing (@nil R) = [zeros 0]
     ∧ length (first_fit_decreasing (@nil R)) = 1
     ∧ ∀ j i, member (first_fit_decreasing (@nil R)) j i = false).
Proof.
  split; (split; [reflexivity|]; split; [reflexivity|]);
    intros [|j] i; reflexivity.
Qed.

(** ** The worked example *)

(** C7: on the sizes 0.09, 0.69, 0.79, 0.29, 0.89, 0.19 [next_fit] returns
    the 5 bins (0.09, 0.69), (0.79), (0.29), (0.89), (0.19); [first_fit]
    the 4 bins (0.09, 0.69, 0.19), (0.79), (0.29), (0.89); and
    [first_fit_decreasing] the 3 bins that group the sizes as (0.89, 0.09),
    (0.79, 0.19), (0.69, 0.29).  It holds in binary64 and in exact
    arithmetic.  A bin lists its sizes in input order, as [print_bins]
    does, so the first bin of [first_fit_decreasing] reads (0.09, 0.89). *)
Theorem example_packings :
  (next_fit example_f
   = [[1; 1; 0; 0; 0; 0]; [0; 0; 1; 0; 0; 0]; [0; 0; 0; 1; 0; 0];
      [0; 0; 0; 0; 1; 0]; [0; 0; 0; 0; 0; 1]]%Z
   ∧ bin_contents example_f (next_fit example_f)
     = [[0.09; 0.69]; [0.79]; [0.29]; [0.89]; [0.19]]%float
   ∧ first_fit example_f
     = [[1; 1; 0; 0; 0; 1]; [0; 0; 1; 0; 0; 0]; [0; 0; 0; 1; 0; 0];
        [0; 0; 0; 0; 1; 0]]%Z
   ∧ bin_contents example_f (first_fit example_f)
     = [[0.09; 0.69; 0.19]; [0.79]; [0.29]; [0.89]]%float
   ∧ first_fit_decreasing example_f
     = [[1; 0; 0; 0; 1; 0]; [0; 0; 1; 0; 0; 1]; [0; 1; 0; 1; 0; 0]]%Z
   ∧ Forall2 Permutation
       (bin_contents example_f (first_fit_decreasing example_f))
       [[0.89; 0.09]; [0.79; 0.19]; [0.69; 0.29]]%float)
  ∧ (next_fit example_Q = next_fit example_f
     ∧ first_fit example_Q = first_fit example_f
     ∧ first_fit_decreasing example_Q = first_fit_decreasing example_f
     ∧ Forall2 Permutation
         (bin_contents example_Q (first_fit_decreasing example_Q))
         [[89 # 100; 9 # 100]; [79 # 100; 19 # 100]; [69 # 100; 29 # 100]]%Q).
Proof.
  repeat split; try (vm_compute; reflexivity).
  - vm_compute. repeat constructor.
  - vm_compute. repeat constructor.
Qed.

(** ** The input check of the validator *)

Section Validator.
Context {R : Type} `{Num R}.

Lemma np_any_true {A} (p : A → bool) (xs : list A) :
  np_any p xs = true ↔ ∃ x, x ∈ xs ∧ p x = true.
Proof.
  unfold np_any. rewrite existsb_exists.
  split; intros (x & Hx & Hp); exists x; split; try done;
    by apply list_elem_of_In.
Qed.

Lemma in_range_no_ValueError (ws : list R) :
  (∀ w, w ∈ ws → num_gt w num_one = false ∧ num_lt w num_zero = false) →
  np_any (λ w, num_gt w num_one) ws || np_any (λ w, num_lt w num_zero) ws
  = false.
Proof.
  intros Hin. apply orb_false_iff.
  split; apply not_true_iff_false; intros (w & Hw & Hout)%np_any_true;
    destruct (Hin w Hw); congruence.
Qed.

Lemma out_of_range_iff (ws : list R) :
  np_any (λ w, num_gt w num_one) ws || np_any (λ w, num_lt w num_zero) ws
  = true
  ↔ ∃ w, w ∈ ws ∧ (num_gt w num_one = true ∨ num_lt w num_zero = true).
Proof.
  rewrite orb_true_iff, !np_any_true. split.
  - intros [(w & Hw & E)|(w & Hw & E)]; exists w; auto.
  - intros (w & Hw & [E|E]); [left|right]; by exists w.
Qed.

Lemma mask_ok_shaped (ws : list R) (b : vec) :
  length b = length ws → mask_ok ws b = true.
Proof. intros Hb. unfold mask_ok. by rewrite Hb, Nat.eqb_refl. Qed.

Lemma iadd_shaped (x b : vec) :
  length b = length x → iadd x b = Some (vec_add x b).
Proof. intros Hb. unfold iadd. by rewrite Hb, Nat.eqb_refl. Qed.

End Validator.

Lemma all_one_iff (x : vec) :
  np_any (λ e, negb (e =? 1)%Z) x = false ↔ x = ones (length x).
Proof.
  induction x as [|e x IH]; simpl; [done|].
  rewrite orb_false_iff, negb_false_iff, Z.eqb_eq, IH. unfold ones. simpl.
  split; [intros [-> <-]; done | intros [= -> Hx]; by rewrite <- Hx].
Qed.

Lemma length_vec_add (x b : vec) :
  length b = length x → length (vec_add x b) = length x.
Proof. intros Hb. unfold vec_add. rewrite length_zip_with. lia. Qed.

Lemma length_fold_vec_add n (bins : list vec) (x : vec) :
  Forall (λ b, length b = n) bins → length x = n →
  length (fold_left vec_add bins x) = n.
Proof.
  intros Hlen. revert x. induction Hlen as [|b bins Hb _ IH]; intros x Hx;
    simpl; [done|].
  apply IH. rewrite length_vec_add; congruence.
Qed.

Lemma length_col_sum n (bins : list vec) :
  Forall (λ b, length b = n) bins → length (col_sum n bins) = n.
Proof.
  intros Hlen. apply length_fold_vec_add; [done|].
  unfold zeros. by rewrite length_replicate.
Qed.

Section Shaped.
Context {R : Type} `{Num R}.

Lemma within_capacity_Forall (ws : list R) bins :
  within_capacity ws bins = true ↔ Forall (λ b, overfull ws b = false) bins.
Proof.
  unfold within_capacity. rewrite forallb_forall, Forall_forall.
  split; intros Hall b Hb.
  - apply negb_true_iff, Hall. by apply list_elem_of_In.
  - apply negb_true_iff, Hall. by apply list_elem_of_In.
Qed.

(** On bins of the length of the size array the loop meets no error: it
    returns at the first bin over capacity, or falls through with the sum
    of the bins. *)
Lemma is_valid_packing_loop_shaped (ws : list R) bins x :
  Forall (λ b, length b = length ws) bins → length x = length ws →
  is_valid_packing_loop ws bins x
  = if within_capacity ws bins
    then Return (Some (fold_left vec_add bins x))
    else Return None.
Proof.
  intros Hlen. revert x.
  induction Hlen as [|b bins Hb _ IH]; intros x Hx; simpl; [done|].
  rewrite (mask_ok_shaped ws b Hb). simpl.
  destruct (overfull ws b); simpl; [done|].
  rewrite iadd_shaped by congruence.
  apply IH. rewrite length_vec_add; congruence.
Qed.

(** The loop returns at the first bin over capacity; the bins after it
    are not looked at. *)
Lemma is_valid_packing_loop_overfull (ws : list R) pre b rest x :
  Forall (λ b, length b = length ws) (pre ++ [b]) →
  length x = length ws →
  Forall (λ b, overfull ws b = false) pre →
  overfull ws b = true →
  is_valid_packing_loop ws (pre ++ b :: rest) x = Return None.
Proof.
  intros Hlen Hx Hcap Hb. revert x Hx.
  induction pre as [|a pre IH]; intros x Hx; simpl.
  - simpl in Hlen. apply Forall_cons in Hlen as [Hlen _].
    by rewrite (mask_ok_shaped ws b Hlen), Hb.
  - simpl in Hlen. apply Forall_cons in Hlen as [Ha Hlen].
    apply Forall_cons in Hcap as [Hc Hcap].
    rewrite (mask_ok_shaped ws a Ha), Hc. simpl.
    rewrite iadd_shaped by congruence.
    apply IH; [done..|]. rewrite length_vec_add; congruence.
Qed.

(** The verdict on bins of the right length. *)
Lemma is_valid_packing_shaped (ws : list R) (bins : list vec) :
  (∀ w, w ∈ ws → num_gt w num_one = false ∧ num_lt w num_zero = false) →
  bins ≠ [] →
  Forall (λ b, length b = length ws) bins →
  is_valid_packing ws bins
  = Return (within_capacity ws bins
            && bool_decide (col_sum (length ws) bins = ones (length ws))).
Proof.
  intros Hin Hne Hlen. unfold is_valid_packing.
  rewrite (in_range_no_ValueError _ Hin).
  destruct bins as [|b0 bins]; [done|].
  assert (length b0 = length ws) as Hb0
      by (by apply Forall_cons in Hlen as [? _]).
  rewrite Hb0, (is_valid_packing_loop_shaped ws _ _ Hlen)
    by (unfold zeros; by rewrite length_replicate).
  destruct (within_capacity ws (b0 :: bins)); cbn [andb]; [|done].
  fold (col_sum (length ws) (b0 :: bins)).
  pose proof (all_one_iff (col_sum (length ws) (b0 :: bins))) as Hall.
  rewrite (length_col_sum _ _ Hlen) in Hall.
  destruct (np_any _ (col_sum (length ws) (b0 :: bins))).
  - rewrite bool_decide_eq_false_2; [done|]. intros Heq.
    apply Hall in Heq. done.
  - rewrite bool_decide_eq_true_2; [done|]. by apply Hall.
Qed.

End Shaped.

(** C6: the validator raises [ValueError] (the rejected call) whenever
    some size is above 1 or below 0.  The check comes first: with such a
    size the call is rejected whatever the bins are, of whatever shape, and
    no size is clamped, since no boolean is returned.  On bins that have
    the length of the size array this is the only way to a [ValueError]:
    there the call is rejected exactly when a size is out of range.  (On
    bins of other lengths NumPy can raise a [ValueError] of its own, when
    [x += b] cannot broadcast.) *)
Theorem is_valid_packing_rejects_iff {R} `{Num R} (box_widths : list R) :
  (∀ bins,
     (∃ w, w ∈ box_widths
           ∧ (num_gt w num_one = true ∨ num_lt w num_zero = true)) →
     is_valid_packing box_widths bins = Raise ValueError)
  ∧ (∀ bins,
       Forall (λ b, length b = length box_widths) bins →
       is_valid_packing box_widths bins = Raise ValueError
       ↔ ∃ w, w ∈ box_widths
              ∧ (num_gt w num_one = true ∨ num_lt w num_zero = true)).
Proof.
  assert (∀ bins : list (list Z),
            (∃ w, w ∈ box_widths
                  ∧ (num_gt w num_one = true ∨ num_lt w num_zero = true)) →
            is_valid_packing box_widths bins = Raise ValueError) as Hfast.
  { intros bins Hout%out_of_range_iff. unfold is_valid_packing.
    by rewrite Hout. }
  split; [exact Hfast|].
  intros bins Hlen. split; [|apply Hfast].
  intros Hraise.
  destruct (np_any (λ w, num_gt w num_one) box_widths
            || np_any (λ w, num_lt w num_zero) box_widths) eqn:E.
  - by apply out_of_range_iff.
  - exfalso. destruct bins as [|b0 bins].
    + unfold is_valid_packing in Hraise. by rewrite E in Hraise.
    + rewrite is_valid_packing_shaped in Hraise; try done.
      intros w Hw. split; apply not_true_iff_false; intros Hout.
      * assert (np_any (λ w, num_gt w num_one) box_widths
                || np_any (λ w, num_lt w num_zero) box_widths = true)
          by (apply out_of_range_iff; eauto).
        congruence.
      * assert (np_any (λ w, num_gt w num_one) box_widths
                || np_any (λ w, num_lt w num_zero) box_widths = true)
          by (apply out_of_range_iff; eauto).
        congruence.
Qed.

(** ** The verdict of the validator *)

Lemma lookup_vec_add (x b : vec) i :
  vec_add x b !! i = (x !! i) ≫= λ a, (b !! i) ≫= λ e, Some (a + e)%Z.
Proof.
  unfold vec_add. rewrite lookup_zip_with.
  destruct (x !! i); simpl; [|done]. by destruct (b !! i).
Qed.

(** Entry [i] of the running total: the entry it started from plus the
    number of bins that hold item [i]. *)
Lemma lookup_fold_vec_add n (bins : list vec) (x : vec) i a :
  Forall (membership_vector n) bins → length x = n →
  x !! i = Some a →
  fold_left vec_add bins x !! i = Some (a + Z.of_nat (occurrences bins i))%Z.
Proof.
  intros Hbins. revert x a.
  induction Hbins as [|b bins [Hlen H01] _ IH]; intros x a Hx Ha; simpl.
  - rewrite Ha. f_equal. unfold occurrences. simpl. lia.
  - assert (is_Some (b !! i)) as [e He].
    { apply lookup_lt_is_Some. apply lookup_lt_Some in Ha. lia. }
    assert (e = 0 ∨ e = 1)%Z as H01e.
    { eapply Forall_forall in H01; [exact H01|].
      eapply list_elem_of_lookup_2, He. }
    rewrite (IH (vec_add x b) (a + e)%Z).
    + f_equal. unfold occurrences. rewrite filter_cons. rewrite He.
      destruct H01e as [-> | ->].
      * rewrite decide_False by done. lia.
      * rewrite decide_True by done. simpl. lia.
    + rewrite length_vec_add; congruence.
    + rewrite lookup_vec_add, Ha, He. done.
Qed.

Lemma col_sum_ones_iff n (bins : list vec) :
  Forall (membership_vector n) bins →
  col_sum n bins = ones n ↔ ∀ i, i < n → occurrences bins i = 1.
Proof.
  intros Hbins.
  assert (∀ i, i < n →
            col_sum n bins !! i = Some (Z.of_nat (occurrences bins i))) as Hi.
  { intros i Hi. unfold col_sum.
    rewrite (lookup_fold_vec_add n bins (zeros n) i 0%Z); try done.
    - unfold zeros. by rewrite length_replicate.
    - unfold zeros. by apply lookup_replicate_2. }
  split.
  - intros Heq i Hlt. specialize (Hi i Hlt). rewrite Heq in Hi.
    unfold ones in Hi. rewrite lookup_replicate_2 in Hi by done.
    injection Hi. lia.
  - intros Hocc. apply list_eq. intros i.
    destruct (decide (i < n)) as [Hlt|Hge].
    + rewrite (Hi i Hlt), (Hocc i Hlt). unfold ones.
      by rewrite lookup_replicate_2.
    + rewrite !lookup_ge_None_2; [done| |].
      * unfold ones. rewrite length_replicate. lia.
      * rewrite length_col_sum; [lia|].
        eapply Forall_impl; [exact Hbins|]. by intros b [? _].
Qed.

(** The validator returns [False] at the first bin over capacity,
    whatever comes after it. *)
Lemma is_valid_packing_first_overfull {R} `{Num R} (ws : list R) pre b rest :
  (∀ w, w ∈ ws → num_gt w num_one = false ∧ num_lt w num_zero = false) →
  Forall (λ b, length b = length ws) (pre ++ [b]) →
  Forall (λ b, overfull ws b = false) pre →
  overfull ws b = true →
  is_valid_packing ws (pre ++ b :: rest) = Return false.
Proof.
  intros Hrange Hlen Hcap Hb. unfold is_valid_packing.
  rewrite (in_range_no_ValueError _ Hrange).
  destruct (pre ++ b :: rest) as [|b0 l] eqn:E;
    [by destruct pre|]. rewrite <- E.
  rewrite (is_valid_packing_loop_overfull _ _ _ _ _ Hlen); try done.
  unfold zeros. rewrite length_replicate.
  destruct pre as [|a pre]; simpl in E, Hlen; simplify_eq;
    by apply Forall_cons in Hlen as [? _].
Qed.

(** With no bin over capacity, the validator compares the elementwise sum
    of the bins with the all-ones vector. *)
Lemma is_valid_packing_within_capacity {R} `{Num R} (ws : list R) bins :
  (∀ w, w ∈ ws → num_gt w num_one = false ∧ num_lt w num_zero = false) →
  bins ≠ [] →
  Forall (λ b, length b = length ws) bins →
  Forall (λ b, overfull ws b = false) bins →
  is_valid_packing ws bins
  = Return (bool_decide (col_sum (length ws) bins = ones (length ws))).
Proof.
  intros Hrange Hne Hlen Hcap.
  rewrite is_valid_packing_shaped by done.
  by rewrite (proj2 (within_capacity_Forall ws bins) Hcap).
Qed.

Lemma membership_vector_lengths n (bins : list vec) :
  Forall (membership_vector n) bins → Forall (λ b, length b = n) bins.
Proof. intros Hm. eapply Forall_impl; [exact Hm|]. by intros b [? _]. Qed.

(** C3 (amended): for sizes in the range 0 to 1: on bins of length [n]
    the validator returns [False] at the first bin whose sum of sizes
    exceeds 1, whatever the bins after it are; and on a packing of 0/1
    membership vectors of length [n], when no bin exceeds 1 and the
    packing has at least one bin, it returns [True] exactly when the
    elementwise sum of the membership vectors is the all-ones vector, which
    says that every item is in exactly one bin.  The sum of sizes is
    [np.sum] of the selected sizes, with NumPy's pairwise order of
    additions. *)
Theorem is_valid_packing_verdict {R} `{Num R} (box_widths : list R) :
  (∀ w, w ∈ box_widths → num_gt w num_one = false ∧ num_lt w num_zero = false) →
  let n := length box_widths in
  (∀ pre b rest,
     Forall (λ b, length b = n) (pre ++ [b]) →
     Forall (λ b, overfull box_widths b = false) pre →
     overfull box_widths b = true →
     is_valid_packing box_widths (pre ++ b :: rest) = Return false)
  ∧ (∀ bins,
       bins ≠ [] →
       Forall (membership_vector n) bins →
       Forall (λ b, overfull box_widths b = false) bins →
       is_valid_packing box_widths bins
       = Return (bool_decide (col_sum n bins = ones n)))
  ∧ (∀ bins,
       Forall (membership_vector n) bins →
       col_sum n bins = ones n ↔ ∀ i, i < n → occurrences bins i = 1).
Proof.
  intros Hrange n. split; [|split].
  - intros pre b rest. by apply is_valid_packing_first_overfull.
  - intros bins Hne Hm Hcap.
    apply is_valid_packing_within_capacity; try done.
    by apply membership_vector_lengths.
  - intros bins. apply col_sum_ones_iff.
Qed.

Lemma is_valid_packing_verdict_witness :
  is_valid_packing [0.3; 0.6; 0.9]%float [[1; 1; 0]; [0; 0; 1]]%Z = Return true
  ∧ is_valid_packing [0.3; 0.6; 0.9]%float [[1; 0; 0]; [0; 0; 1]]%Z
    = Return false
  ∧ is_valid_packing [0.3; 0.6; 0.9]%float [[1; 0; 0]; [0; 1; 1]; [7]]%Z
    = Return false.
Proof.
  assert (∀ w : float, w ∈ [0.3; 0.6; 0.9]%float →
            num_gt w num_one = false ∧ num_lt w num_zero = false) as Hrange.
  { intros w Hw. repeat (apply elem_of_cons in Hw as [-> | Hw]; [done|]).
    by apply elem_of_nil in Hw. }
  destruct (is_valid_packing_verdict [0.3; 0.6; 0.9]%float Hrange)
    as (Hover & Hsum & _).
  split; [|split].
  - rewrite Hsum; [reflexivity | done | | by repeat constructor].
    unfold membership_vector. apply (bool_decide_unpack _). by vm_compute.
  - rewrite Hsum; [reflexivity | done | | by repeat constructor].
    unfold membership_vector. apply (bool_decide_unpack _). by vm_compute.
  - apply (Hover [[1; 0; 0]%Z] [0; 1; 1]%Z [[7%Z]]);
      [by repeat constructor | by repeat constructor | reflexivity].
Defined.

(** The five assertions that follow [is_valid_packing] in the notebook. *)
Lemma is_valid_packing_assertions :
  let sizes := [0.3; 0.6; 0.9]%float in
  is_valid_packing sizes [[1; 1; 0]; [0; 0; 1]]%Z = Return true
  ∧ is_valid_packing sizes [[1; 1; 0]; [0; 1; 1]]%Z = Return false
  ∧ is_valid_packing sizes [[1; 0; 0]; [0; 0; 1]]%Z = Return false
  ∧ is_valid_packing sizes [[1; 0; 0]; [0; 2; 1]]%Z = Return false
  ∧ is_valid_packing sizes [[1; 0; 0]; [0; 1; 1]]%Z = Return false.
Proof. repeat split. Qed.

(** The validator on a packing with no bin: it raises [IndexError] at
    [bins[0]], where C3 as stated has it return a boolean ([True] for no
    items, whose empty sum is the all-ones vector of length 0, and [False]
    for one item, which is in no bin). *)
Lemma is_valid_packing_no_bins :
  (Forall (membership_vector 0) (@nil vec)
   ∧ col_sum 0 [] = ones 0
   ∧ is_valid_packing (@nil float) [] = Raise IndexError
   ∧ is_valid_packing (@nil float) []
     ≠ Return (bool_decide (col_sum 0 [] = ones 0)))
  ∧ (Forall (membership_vector 1) (@nil vec)
     ∧ col_sum 1 [] ≠ ones 1
     ∧ is_valid_packing [0.5%float] [] = Raise IndexError
     ∧ is_valid_packing [0.5%float] []
       ≠ Return (bool_decide (col_sum 1 [] = ones 1))).
Proof. repeat split; try done; constructor. Qed.

(** ** The sort permutation and its inverse *)

Section Argsort.
Context {R : Type} `{Num R}.

Lemma argsort_insert_perm (keys : list R) i sorted :
  argsort_insert keys i sorted ≡ₚ i :: sorted.
Proof.
  induction sorted as [|j sorted IH]; simpl; [done|].
  destruct (num_lt _ _); [done|].
  rewrite IH. apply Permutation_swap.
Qed.

Lemma argsort_fold_perm (keys : list R) (todo acc : list nat) :
  fold_left (λ sorted i, argsort_insert keys i sorted) todo acc
  ≡ₚ todo ++ acc.
Proof.
  revert acc. induction todo as [|i todo IH]; intros acc; simpl; [done|].
  rewrite IH, argsort_insert_perm. by rewrite Permutation_middle.
Qed.

(** [argsort] returns a permutation of the indices. *)
Lemma argsort_perm (keys : list R) : argsort keys ≡ₚ seq 0 (length keys).
Proof. unfold argsort. by rewrite argsort_fold_perm, app_nil_r. Qed.

Lemma ffd_indices_perm (ws : list R) :
  ffd_indices ws ≡ₚ seq 0 (length ws).
Proof.
  unfold ffd_indices. rewrite argsort_perm. by rewrite length_fmap.
Qed.

(** [argsort] sorts: no index is followed by one with a smaller key. *)
Lemma argsort_insert_sorted `{!NumLaws R} (keys : list R) i sorted :
  Sorted (key_order keys) sorted →
  Sorted (key_order keys) (argsort_insert keys i sorted).
Proof.
  induction 1 as [|j sorted Hsorted IH Hhd]; simpl.
  - by repeat constructor.
  - destruct (num_lt _ _) eqn:Hlt.
    + constructor; [by constructor|]. constructor.
      unfold key_order. by apply num_lt_asym.
    + constructor; [done|].
      destruct sorted as [|k sorted]; simpl.
      * by constructor.
      * destruct (num_lt (nth i keys num_zero) (nth k keys num_zero));
          constructor; [done|]. by inversion Hhd.
Qed.

Lemma argsort_sorted `{!NumLaws R} (keys : list R) :
  Sorted (key_order keys) (argsort keys).
Proof.
  unfold argsort.
  assert (∀ todo acc, Sorted (key_order keys) acc →
            Sorted (key_order keys)
              (fold_left (λ sorted i, argsort_insert keys i sorted) todo acc))
    as Hfold.
  { induction todo as [|i todo IH]; intros acc Hacc; [done|]. simpl.
    by apply IH, argsort_insert_sorted. }
  apply Hfold. constructor.
Qed.

End Argsort.

Lemma length_scatter target idx vals :
  length (scatter target idx vals) = length target.
Proof.
  revert target vals. induction idx as [|i idx IH]; intros target vals;
    [done|].
  destruct vals as [|v vals]; [done|]. simpl.
  by rewrite IH, length_insert.
Qed.

Lemma scatter_untouched target idx vals i :
  i ∉ idx → scatter target idx vals !! i = target !! i.
Proof.
  revert target vals. induction idx as [|k idx IH]; intros target vals Hi;
    [done|].
  destruct vals as [|v vals]; [done|]. simpl.
  apply not_elem_of_cons in Hi as [Hne Hi].
  rewrite IH by done. by apply list_lookup_insert_ne.
Qed.

Lemma scatter_lookup target idx vals p i v :
  NoDup idx → Forall (λ k, k < length target) idx →
  idx !! p = Some i → vals !! p = Some v →
  scatter target idx vals !! i = Some v.
Proof.
  revert target vals p.
  induction idx as [|k idx IH]; intros target vals p Hnd Hlt Hi Hv; [done|].
  destruct vals as [|v0 vals]; [done|].
  apply NoDup_cons in Hnd as [Hk Hnd].
  apply Forall_cons in Hlt as [Hklt Hlt]. simpl.
  destruct p as [|p]; simpl in *.
  - injection Hi as ->. injection Hv as ->.
    rewrite scatter_untouched by done. by apply list_lookup_insert_eq.
  - eapply IH; eauto.
    eapply Forall_impl; [exact Hlt|]. intros a Ha. by rewrite length_insert.
Qed.

Section Permutations.
Context (indices : list nat) (n : nat).
Hypothesis indices_perm : indices ≡ₚ seq 0 n.

Lemma perm_length : length indices = n.
Proof using indices_perm. by rewrite indices_perm, length_seq. Qed.

Lemma perm_NoDup : NoDup indices.
Proof using indices_perm. rewrite indices_perm. apply NoDup_seq. Qed.

Lemma perm_lt i : i ∈ indices → i < n.
Proof using indices_perm.
  rewrite indices_perm, elem_of_seq. lia.
Qed.

Lemma perm_position i : i < n → ∃ p, p < n ∧ indices !! p = Some i.
Proof using indices_perm.
  intros Hi.
  assert (i ∈ indices) as (p & Hp)%list_elem_of_lookup_1.
  { rewrite indices_perm, elem_of_seq. lia. }
  exists p. split; [|done].
  apply lookup_lt_Some in Hp. by rewrite perm_length in Hp.
Qed.

Lemma length_undo_sort : length (undo_sort indices) = n.
Proof using indices_perm.
  unfold undo_sort. by rewrite length_scatter, length_replicate, perm_length.
Qed.

(** [undo_sort] inverts [indices]. *)
Lemma undo_sort_lookup p i :
  indices !! p = Some i → undo_sort indices !! i = Some p.
Proof using indices_perm.
  intros Hp. unfold undo_sort.
  apply (scatter_lookup _ _ _ p); [apply perm_NoDup | | done |].
  - apply Forall_forall. intros k Hk%perm_lt.
    by rewrite length_replicate, perm_length.
  - apply lookup_seq. split; [done|]. by apply lookup_lt_Some in Hp.
Qed.

Lemma undo_sort_inv i p :
  undo_sort indices !! i = Some p → indices !! p = Some i.
Proof using indices_perm.
  intros Hi.
  assert (i < n) as Hlt.
  { apply lookup_lt_Some in Hi. by rewrite length_undo_sort in Hi. }
  destruct (perm_position i Hlt) as (q & _ & Hq).
  pose proof (undo_sort_lookup _ _ Hq) as Hq'. congruence.
Qed.

(** Entry [i] of [b[undo_sort]] is the entry of [b] at the position of
    [i] in [indices]. *)
Lemma gather_undo_lookup (b : vec) p i :
  indices !! p = Some i →
  gather 0%Z b (undo_sort indices) !! i = Some (default 0%Z (b !! p)).
Proof using indices_perm.
  intros Hp. unfold gather.
  rewrite list_lookup_fmap, (undo_sort_lookup _ _ Hp). simpl.
  by rewrite nth_lookup.
Qed.

Lemma length_gather_undo (b : vec) :
  length (gather 0%Z b (undo_sort indices)) = n.
Proof using indices_perm.
  unfold gather. by rewrite length_fmap, length_undo_sort.
Qed.

End Permutations.

(** ** The shape of the bins *)

Lemma has_item_insert (b : vec) i : i < length b → has_item (<[i := 1%Z]> b).
Proof. intros Hi. exists i. by apply list_lookup_insert_eq. Qed.

Lemma has_item_insert_mono (b : vec) i :
  has_item b → has_item (<[i := 1%Z]> b).
Proof.
  intros [k Hk]. destruct (decide (k = i)) as [->|Hne].
  - apply has_item_insert. by apply lookup_lt_Some in Hk.
  - exists k. by rewrite list_lookup_insert_ne.
Qed.

Section Shapes.
Context {R : Type} `{Num R}.

(** The outcome of the scan of the open bins: the box went into the first
    bin [j'] that fits, or no bin from [j] on fits and nothing changed. *)
Lemma first_fit_while_cases fuel i (w : R) j st :
  (∃ j', j ≤ j' < j + fuel
         ∧ num_lt w (space_at st j') = true
         ∧ (∀ k, j ≤ k < j' → num_lt w (space_at st k) = false)
         ∧ first_fit_while fuel i w j st = (ff_put i w j' st, true))
  ∨ ((∀ k, j ≤ k < j + fuel → num_lt w (space_at st k) = false)
     ∧ first_fit_while fuel i w j st = (st, false)).
Proof.
  revert j. induction fuel as [|fuel IH]; intros j; simpl.
  - right. split; [intros; lia | done].
  - destruct (num_lt w (space_at st j)) eqn:Hfit.
    + left. exists j. repeat split; try done; try lia.
    + destruct (IH (S j)) as [(j' & Hj' & Hfit' & Hno & ->)|[Hno ->]].
      * left. exists j'. repeat split; try done; try lia.
        intros k Hk. destruct (decide (k = j)) as [->|]; [done|].
        apply Hno. lia.
      * right. split; [|done].
        intros k Hk. destruct (decide (k = j)) as [->|]; [done|].
        apply Hno. lia.
Qed.

Lemma first_fit_body_cases n i (w : R) st :
  (∃ j, j < length (ff_bins st)
        ∧ num_lt w (space_at st j) = true
        ∧ first_fit_body n i w st = ff_put i w j st)
  ∨ ((∀ j, j < length (ff_bins st) → num_lt w (space_at st j) = false)
     ∧ first_fit_body n i w st = ff_open n i w st).
Proof.
  unfold first_fit_body.
  destruct (first_fit_while_cases (length (ff_bins st)) i w 0 st)
    as [(j & Hj & Hfit & _ & ->)|[Hno ->]].
  - left. exists j. repeat split; try done. lia.
  - right. split; [|done]. intros j Hj. apply Hno. lia.
Qed.

(** *** NEXT-FIT *)

Lemma next_fit_body_inv n i (w : R) st :
  i < n → nf_inv n st → nf_inv n (next_fit_body n i w st).
Proof.
  intros Hi (Hbins & Hlen & Hcur). unfold next_fit_body, nf_inv.
  destruct (nf_opens w st); simpl.
  - split; [|split].
    + apply Forall_app. split; [done|]. by apply Forall_singleton.
    + unfold zeros. by rewrite length_insert, length_replicate.
    + apply has_item_insert. unfold zeros. by rewrite length_replicate.
  - split; [done|]. split; [by rewrite length_insert|].
    by apply has_item_insert_mono.
Qed.

Lemma next_fit_loop_inv n (rest : list R) i st :
  i + length rest ≤ n → nf_inv n st → nf_inv n (next_fit_loop n i rest st).
Proof.
  revert i st. induction rest as [|w rest IH]; intros i st Hi Hinv; [done|].
  simpl in *. apply IH; [lia|]. apply next_fit_body_inv; [lia|done].
Qed.

(** *** FIRST-FIT *)

Lemma first_fit_body_inv n i (w : R) st :
  i < n → ff_inv n st → ff_inv n (first_fit_body n i w st).
Proof.
  intros Hi Hinv. unfold ff_inv in *.
  destruct (first_fit_body_cases n i w st) as [(j & _ & _ & ->)|[_ ->]];
    simpl.
  - apply Forall_alter; [done|].
    intros b Hb. eapply Forall_lookup_1 in Hinv as [Hlen Hitem]; [|exact Hb].
    split; [by rewrite length_insert | by apply has_item_insert_mono].
  - apply Forall_app. split; [done|]. apply Forall_singleton.
    unfold zeros. rewrite length_insert, length_replicate.
    split; [done|]. apply has_item_insert. by rewrite length_replicate.
Qed.

Lemma first_fit_loop_inv n (rest : list R) i st :
  i + length rest ≤ n → ff_inv n st → ff_inv n (first_fit_loop n i rest st).
Proof.
  revert i st. induction rest as [|w rest IH]; intros i st Hi Hinv; [done|].
  simpl in *. apply IH; [lia|]. apply first_fit_body_inv; [lia|done].
Qed.

(** The bins of [first_fit] are vectors over the items. *)
Lemma first_fit_lengths (ws : list R) :
  Forall (λ b, length b = length ws) (first_fit ws).
Proof.
  unfold first_fit.
  assert (∀ rest i st,
            Forall (λ b : vec, length b = length ws) (ff_bins st) →
            Forall (λ b : vec, length b = length ws)
                   (ff_bins (first_fit_loop (length ws) i rest st))) as Hloop.
  { induction rest as [|w rest IH]; intros i st Hst; [done|]. simpl.
    apply IH.
    destruct (first_fit_body_cases (length ws) i w st)
      as [(j & _ & _ & ->)|[_ ->]]; simpl.
    - apply Forall_alter; [done|].
      intros b Hb. eapply Forall_lookup_1 in Hst; [|exact Hb].
      by rewrite length_insert.
    - apply Forall_app. split; [done|]. apply Forall_singleton.
      unfold zeros. by rewrite length_insert, length_replicate. }
  apply Hloop. apply Forall_singleton. unfold zeros.
  by rewrite length_replicate.
Qed.

Lemma first_fit_has_items (w : R) (rest : list R) :
  num_lt w num_one = true →
  Forall (λ b, length b = S (length rest) ∧ has_item b) (first_fit (w :: rest)).
Proof.
  intros Hw. unfold first_fit. simpl.
  apply first_fit_loop_inv; [lia|].
  unfold first_fit_body, ff_init. simpl.
  unfold space_at. simpl. rewrite Hw. unfold ff_inv. simpl.
  apply Forall_singleton. split; [simpl; by rewrite length_replicate|].
  by exists 0.
Qed.

End Shapes.

(** ** Order restoration *)

Lemma filter_fmap {A B} (f : A → B) (P : B → Prop) `{∀ x, Decision (P x)}
    (l : list A) :
  filter P (f <$> l) = f <$> filter (λ x, P (f x)) l.
Proof.
  induction l as [|a l IH]; [done|].
  rewrite fmap_cons, !filter_cons, IH. by case_decide.
Qed.

Section Contents.
Context {R : Type} `{Num R}.

(** [box_widths[b == 1]] lists the sizes of the items of [b]. *)
Lemma select_items_of (ws : list R) (b : vec) :
  length b = length ws →
  select ws b = (λ k, nth k ws num_zero) <$> items_of (length ws) b.
Proof.
  unfold items_of. revert b. induction ws as [|w ws IH]; intros b Hlen.
  - by destruct b.
  - destruct b as [|e b]; [done|]. simpl in Hlen.
    cbn [length seq]. rewrite <- fmap_S_seq, filter_cons, filter_fmap.
    cbn [select]. rewrite (IH b) by lia.
    destruct (Z.eqb_spec e 1) as [->|Hne].
    + rewrite decide_True by done. rewrite fmap_cons.
      rewrite <- list_fmap_compose. done.
    + rewrite decide_False by (simpl; congruence).
      rewrite <- list_fmap_compose. done.
Qed.

(** A bin read in the original order holds the sizes that the bin holds
    in the sorted order. *)
Lemma select_gather_undo (ws : list R) (indices : list nat) (b : vec) :
  indices ≡ₚ seq 0 (length ws) →
  length b = length ws →
  select ws (gather 0%Z b (undo_sort indices))
  ≡ₚ select (gather num_zero ws indices) b.
Proof.
  intros Hperm Hlen.
  assert (length (gather num_zero ws indices) = length ws) as Hsorted.
  { unfold gather. by rewrite length_fmap, (perm_length _ _ Hperm). }
  assert (∀ p, p < length ws → indices !! p = Some (nth p indices 0))
    as Hnth.
  { intros p Hp. rewrite nth_lookup.
    assert (is_Some (indices !! p)) as [i ->]; [|done].
    apply lookup_lt_is_Some. by rewrite (perm_length _ _ Hperm). }
  assert (indices = (λ p, nth p indices 0) <$> seq 0 (length ws)) as Hidx.
  { apply list_eq. intros p. rewrite list_lookup_fmap.
    destruct (decide (p < length ws)) as [Hp|Hp].
    - rewrite lookup_seq_lt by done. by apply Hnth.
    - rewrite !lookup_ge_None_2; [done| |].
      + rewrite length_seq. lia.
      + rewrite (perm_length _ _ Hperm). lia. }
  rewrite select_items_of by (by rewrite (length_gather_undo _ _ Hperm)).
  rewrite (select_items_of (gather num_zero ws indices)) by congruence.
  rewrite Hsorted. unfold items_of.
  rewrite <- Hperm at 1.
  rewrite Hidx at 1. rewrite filter_fmap, <- list_fmap_compose.
  assert (∀ l : list nat, (∀ p, p ∈ l → p < length ws) →
            (λ k, nth k ws num_zero) ∘ (λ p, nth p indices 0)
              <$> filter (λ p, gather 0%Z b (undo_sort indices)
                                 !! nth p indices 0 = Some 1%Z) l
            = (λ k, nth k (gather num_zero ws indices) num_zero)
                <$> filter (λ k, b !! k = Some 1%Z) l) as Hgen.
  { induction l as [|p l IH]; intros Hl; [done|].
    pose proof (Hnth p (Hl p ltac:(by left))) as Hp.
    pose proof (gather_undo_lookup _ _ Hperm b _ _ Hp) as Hg.
    assert (∀ q, q ∈ l → q < length ws) as Hl'
      by (intros q Hq; apply Hl; by right).
    specialize (IH Hl'). rewrite !filter_cons, Hg.
    destruct (b !! p) as [e|] eqn:He; simpl;
      repeat case_decide; try congruence.
    rewrite !fmap_cons, IH. f_equal. simpl. unfold gather.
    by rewrite (nth_lookup (_ <$> indices)), list_lookup_fmap, Hp. }
  match goal with |- ?X ≡ₚ ?Y => cut (X = Y); [by intros ->|] end.
  apply Hgen. intros p Hp%elem_of_seq. lia.
Qed.

End Contents.

(** What [first_fit_decreasing] returns from sort indices that are a
    permutation of the item indices, in whatever order they list equal
    sizes. *)
Lemma first_fit_decreasing_with_order {R} `{Num R}
    (box_widths : list R) (indices : list nat) :
  indices ≡ₚ seq 0 (length box_widths) →
  let sorted := gather num_zero box_widths indices in
  length (first_fit_decreasing_with indices box_widths)
  = length (first_fit sorted)
  ∧ (∀ b, b ∈ first_fit_decreasing_with indices box_widths →
       length b = length box_widths)
  ∧ (∀ i p j, indices !! p = Some i →
       member (first_fit_decreasing_with indices box_widths) j i
       = member (first_fit sorted) j p)
  ∧ Forall2 Permutation
      (bin_contents box_widths (first_fit_decreasing_with indices box_widths))
      (bin_contents sorted (first_fit sorted)).
Proof.
  intros Hperm sorted. unfold first_fit_decreasing_with. fold sorted.
  assert (length sorted = length box_widths) as Hsorted.
  { unfold sorted, gather. by rewrite length_fmap, (perm_length _ _ Hperm). }
  split; [by rewrite length_fmap|]. split; [|split].
  - intros b (b' & -> & _)%list_elem_of_fmap.
    by eapply length_gather_undo.
  - intros i p j Hp. unfold member. rewrite list_lookup_fmap.
    destruct (first_fit sorted !! j) as [b|]; simpl; [|done].
    rewrite (gather_undo_lookup _ _ Hperm b _ _ Hp).
    by destruct (b !! p).
  - unfold bin_contents. rewrite <- list_fmap_compose.
    apply Forall2_fmap, Forall_Forall2_diag.
    eapply Forall_impl; [apply first_fit_lengths|].
    intros b Hb. simpl. apply select_gather_undo; [done|congruence].
Qed.

Lemma Sorted_lookup {A} (Rel : A → A → Prop) (l : list A) p a b :
  Sorted Rel l → l !! p = Some a → l !! S p = Some b → Rel a b.
Proof.
  intros Hsorted. revert p.
  induction Hsorted as [|x l _ IH Hhd]; intros p Ha Hb; [done|].
  destruct p as [|p]; simpl in Ha, Hb.
  - simplify_eq. destruct l as [|y l]; simplify_eq/=. by inversion Hhd.
  - by apply (IH p).
Qed.

(** The sort indices of the model are among those that [np.argsort] may
    return. *)
Lemma ffd_indices_is_argsort {R} `{NumLaws R} (ws : list R) :
  is_argsort (num_neg <$> ws) (ffd_indices ws).
Proof. split; [apply argsort_perm | apply argsort_sorted]. Qed.

(** Sizes taken in the order of sort indices of the negated sizes are in
    decreasing order: no size is followed by a larger one. *)
Lemma gather_is_argsort_decreasing {R} `{Num R}
    (ws : list R) (indices : list nat) p w w' :
  is_argsort (num_neg <$> ws) indices →
  gather num_zero ws indices !! p = Some w →
  gather num_zero ws indices !! S p = Some w' →
  num_lt (num_neg w') (num_neg w) = false.
Proof.
  intros [Hperm Hsorted] Hw Hw'. rewrite length_fmap in Hperm.
  unfold gather in Hw, Hw'.
  apply list_lookup_fmap_Some in Hw as (i & -> & Hi).
  apply list_lookup_fmap_Some in Hw' as (j & -> & Hj).
  pose proof (Sorted_lookup _ _ _ _ _ Hsorted Hi Hj) as Hij.
  unfold key_order in Hij.
  assert (∀ k, k ∈ indices →
            nth k (num_neg <$> ws) num_zero = num_neg (nth k ws num_zero))
    as Hkey.
  { intros k Hk%(perm_lt _ _ Hperm).
    apply lookup_lt_is_Some in Hk as [x Hx].
    by rewrite !nth_lookup, list_lookup_fmap, Hx. }
  rewrite !Hkey in Hij by (by eapply list_elem_of_lookup_2). done.
Qed.

(** C2: the membership vectors that [first_fit_decreasing] returns are
    indexed by the original item order.  The sort indices of the model
    are a permutation of the item indices that sorts the negated sizes,
    and the same holds for whatever such permutation [indices]
    [np.argsort] returns, which is not fixed when sizes are equal:
    [first_fit] is run on the sizes in decreasing order (no size is
    followed by a larger one); the output has the bins of [first_fit] on
    the sorted sizes, each a vector over the [n] original indices; for an
    item [i] at position [p] of the sort permutation ([indices[p] = i]),
    [i] is a member of output bin [j] exactly when [p] is a member of bin
    [j] of [first_fit] on the sorted sizes; and read against the original
    sizes, each output bin holds the sizes that [first_fit] put into
    it. *)
Theorem first_fit_decreasing_original_order {R} `{NumLaws R}
    (box_widths : list R) :
  let n := length box_widths in
  let keys := num_neg <$> box_widths in
  is_argsort keys (ffd_indices box_widths)
  ∧ first_fit_decreasing box_widths
    = first_fit_decreasing_with (ffd_indices box_widths) box_widths
  ∧ ∀ indices, is_argsort keys indices →
      let sorted := gather num_zero box_widths indices in
      let bins := first_fit_decreasing_with indices box_widths in
      (∀ p w w', sorted !! p = Some w → sorted !! S p = Some w' →
         num_lt (num_neg w') (num_neg w) = false)
      ∧ (∀ i, i < n → ∃ p, p < n ∧ indices !! p = Some i)
      ∧ length bins = length (first_fit sorted)
      ∧ (∀ b, b ∈ bins → length b = n)
      ∧ (∀ i p j, indices !! p = Some i →
           member bins j i = member (first_fit sorted) j p)
      ∧ Forall2 Permutation
          (bin_contents box_widths bins)
          (bin_contents sorted (first_fit sorted)).
Proof.
  intros n keys. subst n keys.
  split; [apply ffd_indices_is_argsort|]. split; [done|].
  intros indices Hargsort.
  pose proof Hargsort as [Hperm _]. rewrite length_fmap in Hperm.
  cbn zeta. split.
  { intros p w w'. by apply gather_is_argsort_decreasing. }
  split; [by apply perm_position|].
  apply (first_fit_decreasing_with_order box_widths _ Hperm).
Qed.

Lemma first_fit_decreasing_original_order_witness :
  let n := length example_f in
  let keys := num_neg <$> example_f in
  is_argsort keys (ffd_indices example_f)
  ∧ first_fit_decreasing example_f
    = first_fit_decreasing_with (ffd_indices example_f) example_f
  ∧ ∀ indices, is_argsort keys indices →
      let sorted := gather num_zero example_f indices in
      let bins := first_fit_decreasing_with indices example_f in
      (∀ p w w', sorted !! p = Some w → sorted !! S p = Some w' →
         num_lt (num_neg w') (num_neg w) = false)
      ∧ (∀ i, i < n → ∃ p, p < n ∧ indices !! p = Some i)
      ∧ length bins = length (first_fit sorted)
      ∧ (∀ b, b ∈ bins → length b = n)
      ∧ (∀ i p j, indices !! p = Some i →
           member bins j i = member (first_fit sorted) j p)
      ∧ Forall2 Permutation
          (bin_contents example_f bins)
          (bin_contents sorted (first_fit sorted)).
Proof. exact (first_fit_decreasing_original_order example_f). Defined.

(** In exact arithmetic: the sizes that [first_fit] is run on are in
    nonincreasing order. *)
Lemma ffd_sorted_nonincreasing (ws : list Q) p w w' :
  ffd_sorted ws !! p = Some w → ffd_sorted ws !! S p = Some w' →
  (w' <= w)%Q.
Proof.
  intros Hw Hw'.
  pose proof (gather_is_argsort_decreasing ws (ffd_indices ws) p w w'
                (ffd_indices_is_argsort ws) Hw Hw') as Hle.
  apply Q_lt_false in Hle. simpl in Hle. lra.
Qed.

(** ** No packer leaves a bin empty *)

Lemma has_item_gather_undo indices n (b : vec) :
  indices ≡ₚ seq 0 n → length b = n → has_item b →
  has_item (gather 0%Z b (undo_sort indices)).
Proof.
  intros Hperm Hlen [p Hp].
  assert (is_Some (indices !! p)) as [i Hi].
  { apply lookup_lt_is_Some. rewrite (perm_length _ _ Hperm).
    apply lookup_lt_Some in Hp. lia. }
  exists i. by rewrite (gather_undo_lookup _ _ Hperm b _ _ Hi), Hp.
Qed.

Lemma first_fit_decreasing_with_has_items {R} `{Num R}
    (box_widths : list R) (indices : list nat) :
  indices ≡ₚ seq 0 (length box_widths) →
  box_widths ≠ [] →
  (∀ w, w ∈ box_widths → num_lt w num_one = true) →
  ∀ b, b ∈ first_fit_decreasing_with indices box_widths → has_item b.
Proof.
  intros Hperm Hne Hrange b' Hb'. unfold first_fit_decreasing_with in Hb'.
  apply list_elem_of_fmap in Hb' as (b & -> & Hb).
  set (sorted := gather num_zero box_widths indices) in *.
  assert (length sorted = length box_widths) as Hlen.
  { unfold sorted, gather.
    by rewrite length_fmap, (perm_length _ _ Hperm). }
  destruct sorted as [|w rest] eqn:E.
  { destruct box_widths; [done|]. simpl in Hlen. lia. }
  assert (w ∈ box_widths) as Hw.
  { assert (w ∈ gather num_zero box_widths indices) as Hin
      by (fold sorted; rewrite E; by left).
    unfold gather in Hin.
    apply list_elem_of_fmap in Hin as (k & -> & Hk).
    apply (perm_lt _ _ Hperm) in Hk.
    apply lookup_lt_is_Some in Hk as [x Hx].
    rewrite nth_lookup, Hx. simpl.
    by eapply list_elem_of_lookup_2. }
  eapply Forall_forall in Hb;
    [|apply first_fit_has_items; by apply Hrange].
  destruct Hb as [Hb Hitem].
  eapply has_item_gather_undo; [exact Hperm | | done].
  simpl in Hlen. lia.
Qed.

(** C9: on a nonempty input whose sizes all lie strictly between 0 and 1,
    every bin that [next_fit], [first_fit] and [first_fit_decreasing]
    return holds at least one item. *)
Theorem packers_leave_no_bin_empty {R} `{NumLaws R} (box_widths : list R) :
  box_widths ≠ [] →
  (∀ w, w ∈ box_widths → num_lt num_zero w = true ∧ num_lt w num_one = true) →
  (∀ b, b ∈ next_fit box_widths → has_item b)
  ∧ (∀ b, b ∈ first_fit box_widths → has_item b)
  ∧ (∀ b, b ∈ first_fit_decreasing box_widths → has_item b).
Proof.
  intros Hne Hrange. split; [|split].
  - destruct box_widths as [|w rest]; [done|].
    assert (num_lt w num_one = true) as Hw.
    { apply Hrange. by left. }
    apply num_lt_asym in Hw.
    assert (nf_inv (S (length rest))
              (next_fit_loop (S (length rest)) 0 (w :: rest)
                             (nf_init (S (length rest)))))
      as (Hbins & _ & Hcur).
    { simpl. apply next_fit_loop_inv; [lia|].
      unfold next_fit_body, nf_opens, num_gt, nf_init. simpl. rewrite Hw.
      unfold nf_inv. simpl. split; [done|].
      split; [by rewrite length_replicate | by exists 0]. }
    intros b Hb. unfold next_fit in Hb.
    apply elem_of_app in Hb as [Hb|Hb].
    + eapply Forall_forall in Hbins; [|exact Hb]. apply Hbins.
    + apply list_elem_of_singleton in Hb. by subst b.
  - destruct box_widths as [|w rest]; [done|].
    intros b Hb.
    eapply Forall_forall in Hb; [|apply first_fit_has_items].
    + apply Hb.
    + apply Hrange. by left.
  - apply first_fit_decreasing_with_has_items;
      [apply ffd_indices_perm | done | intros w Hw; by apply Hrange].
Qed.

Lemma packers_leave_no_bin_empty_witness :
  (∀ b, b ∈ next_fit example_f → has_item b)
  ∧ (∀ b, b ∈ first_fit example_f → has_item b)
  ∧ (∀ b, b ∈ first_fit_decreasing example_f → has_item b).
Proof.
  apply (packers_leave_no_bin_empty example_f); [done|].
  intros w Hw. unfold example_f in Hw.
  repeat (apply elem_of_cons in Hw as [-> | Hw]; [done|]).
  by apply elem_of_nil in Hw.
Defined.

(** ** Feasibility in exact arithmetic *)

(** Counting the bins that hold an item. *)

Lemma occurrences_app (l1 l2 : list vec) k :
  occurrences (l1 ++ l2) k = occurrences l1 k + occurrences l2 k.
Proof. unfold occurrences. by rewrite filter_app, length_app. Qed.

Lemma occurrences_cons (b : vec) (l : list vec) k :
  occurrences (b :: l) k
  = (if decide (b !! k = Some 1%Z) then 1 else 0) + occurrences l k.
Proof. unfold occurrences. rewrite filter_cons. by case_decide. Qed.

Lemma occurrences_zero (bins : list vec) k b :
  occurrences bins k = 0 → b ∈ bins → b !! k ≠ Some 1%Z.
Proof.
  induction bins as [|a bins IH]; intros Hocc Hb.
  - by apply elem_of_nil in Hb.
  - rewrite occurrences_cons in Hocc.
    apply elem_of_cons in Hb as [->|Hb].
    + case_decide; [lia|done].
    + apply IH; [lia|done].
Qed.

Lemma alter_cons_0 {A} (f : A → A) (a : A) (l : list A) :
  alter f 0 (a :: l) = f a :: l.
Proof. reflexivity. Qed.

Lemma alter_cons_S {A} (f : A → A) (a : A) (l : list A) j :
  alter f (S j) (a :: l) = a :: alter f j l.
Proof. reflexivity. Qed.

Lemma occurrences_alter_ne (bins : list vec) i j k :
  k ≠ i →
  occurrences (alter (λ b, <[i := 1%Z]> b) j bins) k = occurrences bins k.
Proof.
  intros Hne. revert j. induction bins as [|a bins IH]; intros j; [done|].
  destruct j as [|j].
  - rewrite alter_cons_0, !occurrences_cons.
    by rewrite list_lookup_insert_ne.
  - by rewrite alter_cons_S, !occurrences_cons, IH.
Qed.

Lemma occurrences_alter_eq (bins : list vec) i j b :
  bins !! j = Some b → b !! i ≠ Some 1%Z → i < length b →
  occurrences (alter (λ b, <[i := 1%Z]> b) j bins) i
  = S (occurrences bins i).
Proof.
  revert j. induction bins as [|a bins IH]; intros j Hj Hb Hi; [done|].
  destruct j as [|j]; simpl in Hj.
  - injection Hj as ->. rewrite alter_cons_0, !occurrences_cons.
    rewrite list_lookup_insert_eq by done.
    rewrite decide_True by done. by rewrite decide_False by done.
  - rewrite alter_cons_S, !occurrences_cons, (IH j) by done. lia.
Qed.

Lemma membership_vector_zeros n : membership_vector n (zeros n).
Proof.
  split; [apply length_replicate|].
  apply Forall_replicate. by left.
Qed.

Lemma membership_vector_insert n (b : vec) i :
  membership_vector n b → membership_vector n (<[i := 1%Z]> b).
Proof.
  intros [Hlen H01]. split; [by rewrite length_insert|].
  apply Forall_insert; [done | by right].
Qed.

Lemma membership_vector_entry n (b : vec) k :
  membership_vector n b → k < n → b !! k ≠ Some 1%Z → b !! k = Some 0%Z.
Proof.
  intros [Hlen H01] Hk Hne.
  assert (is_Some (b !! k)) as [e He] by (apply lookup_lt_is_Some; lia).
  rewrite He in Hne |- *.
  eapply Forall_lookup_1 in H01; [|exact He].
  by destruct H01 as [-> | ->].
Qed.

Lemma lookup_zeros n k : k < n → zeros n !! k = Some 0%Z.
Proof. intros Hk. unfold zeros. by apply lookup_replicate_2. Qed.

Lemma fold_left_Qplus (l : list Q) (a : Q) :
  (fold_left Qplus l a == a + Qsum l)%Q.
Proof.
  revert a. induction l as [|x l IH]; intros a; simpl.
  - ring.
  - rewrite IH. ring.
Qed.

Lemma Qsum_cons (a : Q) (l : list Q) : Qsum (a :: l) = (a + Qsum l)%Q.
Proof. reflexivity. Qed.

Lemma Qsum_app (l1 l2 : list Q) : (Qsum (l1 ++ l2) == Qsum l1 + Qsum l2)%Q.
Proof.
  induction l1 as [|x l1 IH]; simpl; [ring|]. rewrite IH. ring.
Qed.

Lemma Qsum_take_drop k (xs : list Q) :
  (Qsum (take k xs) + Qsum (drop k xs) == Qsum xs)%Q.
Proof. by rewrite <- Qsum_app, take_drop. Qed.

Lemma Qsum_zip_with (r t : list Q) :
  length r = length t → (Qsum (zip_with Qplus r t) == Qsum r + Qsum t)%Q.
Proof.
  revert t. induction r as [|a r IH]; intros [|b t] Hlen; try done.
  simpl in Hlen. cbn [zip_with]. rewrite !Qsum_cons, IH by lia. ring.
Qed.

(** In exact arithmetic the order of the additions is irrelevant: the
    unrolled loop keeps the total of the accumulators and the numbers to
    come. *)
Lemma sum_unrolled_exact chunks (r xs : list Q) :
  length r = 8 → 8 * chunks ≤ length xs →
  length (sum_unrolled chunks r xs).1 = 8
  ∧ (Qsum (sum_unrolled chunks r xs).1 + Qsum (sum_unrolled chunks r xs).2
     == Qsum r + Qsum xs)%Q.
Proof.
  revert r xs. induction chunks as [|chunks IH]; intros r xs Hr Hxs.
  - simpl. split; [done | reflexivity].
  - cbn [sum_unrolled]. Qnum.
    assert (length (take 8 xs) = 8) as Ht by (rewrite length_take; lia).
    destruct (IH (zip_with Qplus r (take 8 xs)) (drop 8 xs)) as [Hl Hs].
    + rewrite length_zip_with. lia.
    + rewrite length_drop. lia.
    + split; [done|]. rewrite Hs, Qsum_zip_with by congruence.
      rewrite <- (Qsum_take_drop 8 xs). ring.
Qed.

Lemma sum_block_exact (xs : list Q) :
  8 ≤ length xs → (sum_block xs == Qsum xs)%Q.
Proof.
  intros Hlen. unfold sum_block.
  destruct (sum_unrolled_exact (length xs / 8 - 1) (take 8 xs) (drop 8 xs))
    as [Hl Hs].
  - rewrite length_take. lia.
  - rewrite length_drop. pose proof (Nat.Div0.mul_div_le (length xs) 8). lia.
  - destruct (sum_unrolled _ _ _) as [r rest]. simpl in Hl, Hs.
    rewrite (Qsum_take_drop 8 xs) in Hs.
    destruct r as [|r0 [|r1 [|r2 [|r3 [|r4 [|r5 [|r6 [|r7 [|]]]]]]]]];
      try done.
    Qnum. rewrite fold_left_Qplus. rewrite <- Hs. simpl. ring.
Qed.

Lemma pairwise_sum_exact fuel (xs : list Q) :
  (pairwise_sum fuel xs == Qsum xs)%Q.
Proof.
  revert xs. induction fuel as [|fuel IH]; intros xs;
    rewrite pairwise_sum_eq;
    destruct (Nat.ltb_spec (length xs) 8);
    try (Qnum; rewrite fold_left_Qplus; ring);
    destruct (length xs <=? 128); try (by apply sum_block_exact).
  cbn zeta. Qnum. rewrite !IH. apply Qsum_take_drop.
Qed.

Lemma np_sum_weight (ws : list Q) (b : vec) :
  (np_sum (select ws b) == weight ws b)%Q.
Proof.
  unfold np_sum, weight. apply pairwise_sum_exact.
Qed.

Lemma Qsum_perm (l l' : list Q) : l ≡ₚ l' → (Qsum l == Qsum l')%Q.
Proof.
  induction 1 as [|x l l' _ IH|x y l|l l' l'' _ IH1 _ IH2]; simpl.
  - reflexivity.
  - by rewrite IH.
  - ring.
  - by rewrite IH1.
Qed.

Lemma weight_zeros (ws : list Q) n : (weight ws (zeros n) == 0)%Q.
Proof.
  unfold weight. revert n. induction ws as [|w ws IH]; intros n.
  - reflexivity.
  - destruct n as [|n]; simpl; [reflexivity | apply IH].
Qed.

Lemma weight_insert (ws : list Q) (b : vec) i w :
  ws !! i = Some w → b !! i = Some 0%Z →
  (weight ws (<[i := 1%Z]> b) == weight ws b + w)%Q.
Proof.
  unfold weight. revert b i.
  induction ws as [|w0 ws IH]; intros b i Hw Hb; [done|].
  destruct b as [|e b]; [done|].
  destruct i as [|i]; simpl in *.
  - injection Hw as ->. injection Hb as ->. simpl. ring.
  - destruct (e =? 1)%Z; simpl; rewrite (IH b i) by done; ring.
Qed.

(** A packing of [n] items that the validator accepts: at least one bin,
    membership vectors within capacity, every item in exactly one bin. *)
Lemma is_valid_packing_exact (ws : list Q) (bins : list vec) :
  (∀ w, w ∈ ws → (0 < w ∧ w < 1)%Q) →
  bins ≠ [] →
  Forall (λ b, membership_vector (length ws) b ∧ (weight ws b <= 1)%Q) bins →
  (∀ k, k < length ws → occurrences bins k = 1) →
  is_valid_packing ws bins = Return true.
Proof.
  intros Hrange Hne Hbins Hocc.
  assert (∀ w, w ∈ ws → num_gt w num_one = false ∧ num_lt w num_zero = false)
    as Hrange'.
  { intros w [H0 H1]%Hrange. unfold num_gt. rewrite !Q_lt_false. Qnum. lra. }
  rewrite (is_valid_packing_within_capacity ws bins Hrange'); [|done| |].
  - rewrite bool_decide_eq_true_2; [done|]. apply col_sum_ones_iff; [|done].
    eapply Forall_impl; [exact Hbins|]. by intros b [? _].
  - eapply Forall_impl; [exact Hbins|]. by intros b [[? _] _].
  - eapply Forall_impl; [exact Hbins|]. intros b [_ Hw]. simpl in Hw.
    unfold overfull, num_gt. rewrite Q_lt_false. Qnum.
    by rewrite np_sum_weight.
Qed.

(** *** NEXT-FIT *)

Lemma next_fit_body_exact (ws : list Q) i w st :
  ws !! i = Some w → (0 < w ∧ w < 1)%Q →
  nf_exact ws i st → nf_exact ws (S i) (next_fit_body (length ws) i w st).
Proof.
  intros Hi [Hw0 Hw1] (Hbins & Hcur & Hspace & Hpos & Hocc).
  pose proof (lookup_lt_Some _ _ _ Hi) as Hlt.
  unfold next_fit_body, nf_opens, num_gt, nf_exact.
  destruct (num_lt (nf_available_space st) w) eqn:Hcmp;
    cbn [nf_bins nf_current_bin nf_available_space].
  - (* a new bin *)
    split; [|split; [|split; [|split]]].
    + apply Forall_app. split; [done|]. apply Forall_singleton.
      split; [done|]. simpl. lra.
    + apply membership_vector_insert, membership_vector_zeros.
    + Qnum. rewrite (weight_insert ws _ i w Hi (lookup_zeros _ _ Hlt)).
      rewrite weight_zeros. ring.
    + Qnum. lra.
    + intros k Hk. rewrite occurrences_app, (Hocc k Hk).
      rewrite occurrences_cons. unfold occurrences at 1. simpl.
      destruct (decide (k = i)) as [->|Hne].
      * rewrite list_lookup_insert_eq
          by (unfold zeros; by rewrite length_replicate).
        repeat case_decide; lia || done.
      * rewrite list_lookup_insert_ne by done. rewrite lookup_zeros by done.
        repeat case_decide; lia || done.
  - (* the open bin *)
    apply Q_lt_false in Hcmp.
    assert (nf_current_bin st !! i = Some 0%Z) as Hzero.
    { apply (membership_vector_entry (length ws)); [done..|].
      apply (occurrences_zero (nf_bins st ++ [nf_current_bin st])).
      - rewrite (Hocc i Hlt). by rewrite decide_False by lia.
      - apply elem_of_app. right. by left. }
    split; [|split; [|split; [|split]]].
    + done.
    + by apply membership_vector_insert.
    + Qnum. rewrite (weight_insert ws _ i w Hi Hzero).
      rewrite Hspace. ring.
    + Qnum. lra.
    + intros k Hk. specialize (Hocc k Hk).
      rewrite occurrences_app in Hocc |- *.
      rewrite occurrences_cons in Hocc |- *.
      unfold occurrences at 2. unfold occurrences at 2 in Hocc.
      simpl in Hocc |- *.
      destruct (decide (k = i)) as [->|Hne].
      * rewrite list_lookup_insert_eq by (destruct Hcur; lia).
        rewrite Hzero in Hocc.
        repeat case_decide; lia || done.
      * rewrite list_lookup_insert_ne by done.
        repeat case_decide; lia || done.
Qed.

Lemma next_fit_loop_exact (ws rest : list Q) i st :
  drop i ws = rest →
  (∀ w, w ∈ ws → (0 < w ∧ w < 1)%Q) →
  nf_exact ws i st →
  nf_exact ws (length ws) (next_fit_loop (length ws) i rest st).
Proof.
  revert i st. induction rest as [|w rest IH]; intros i st Hdrop Hrange Hinv.
  - simpl. assert (length ws ≤ i) as Hle.
    { apply (f_equal length) in Hdrop. rewrite length_drop in Hdrop.
      simpl in Hdrop. lia. }
    destruct Hinv as (Hbins & Hcur & Hspace & Hpos & Hocc).
    split; [done|]. split; [done|]. split; [done|]. split; [done|].
    intros k Hk. rewrite (Hocc k Hk).
    repeat case_decide; lia || done.
  - assert (ws !! i = Some w) as Hi.
    { rewrite <- (Nat.add_0_r i), <- lookup_drop, Hdrop. done. }
    simpl. apply IH; [|done|].
    + rewrite (drop_S _ _ _ Hi) in Hdrop. by injection Hdrop.
    + apply next_fit_body_exact; [done| |done].
      apply Hrange. by eapply list_elem_of_lookup_2.
Qed.

(** *** FIRST-FIT *)

Lemma first_fit_body_exact (ws : list Q) i w st :
  ws !! i = Some w → (0 < w ∧ w < 1)%Q →
  ff_exact ws i st → ff_exact ws (S i) (first_fit_body (length ws) i w st).
Proof.
  intros Hi [Hw0 Hw1] [Hbins Hocc].
  pose proof (lookup_lt_Some _ _ _ Hi) as Hlt.
  assert (∀ b, b ∈ ff_bins st → membership_vector (length ws) b
                                → b !! i = Some 0%Z) as Hzero.
  { intros b Hb Hm. apply (membership_vector_entry (length ws)); [done..|].
    apply (occurrences_zero (ff_bins st)); [|done].
    rewrite (Hocc i Hlt). by rewrite decide_False by lia. }
  destruct (first_fit_body_cases (length ws) i w st)
    as [(j & Hj & Hfit & ->)|[_ ->]]; unfold ff_exact, ff_put, ff_open;
    cbn [ff_bins ff_available_space].
  - (* an open bin *)
    apply lookup_lt_is_Some in Hj as [b Hb].
    destruct (Forall2_lookup_l _ _ _ _ _ Hbins Hb) as (a & Ha & Hok).
    unfold space_at in Hfit. rewrite nth_lookup, Ha in Hfit. simpl in Hfit.
    apply Q_lt_true in Hfit.
    assert (b !! i = Some 0%Z) as Hbi.
    { apply Hzero; [by eapply list_elem_of_lookup_2 | apply Hok]. }
    split.
    + apply Forall2_alter; [done|].
      intros b' a' Hb' Ha' (Hm & Hspace & Hpos).
      assert (b' = b) as -> by congruence.
      assert (a' = a) as -> by congruence.
      split; [by apply membership_vector_insert|]. Qnum.
      rewrite (weight_insert ws _ i w Hi Hbi). split; [|lra].
      rewrite Hspace. ring.
    + intros k Hk. destruct (decide (k = i)) as [->|Hne].
      * rewrite (occurrences_alter_eq _ _ _ b Hb).
        -- rewrite (Hocc i Hlt). repeat case_decide; lia || done.
        -- by rewrite Hbi.
        -- destruct Hok as [[-> _] _]. done.
      * rewrite occurrences_alter_ne by done. rewrite (Hocc k Hk).
        repeat case_decide; lia || done.
  - (* a new bin *)
    split.
    + apply Forall2_app; [done|]. constructor; [|constructor].
      split; [apply membership_vector_insert, membership_vector_zeros|].
      Qnum. rewrite (weight_insert ws _ i w Hi (lookup_zeros _ _ Hlt)).
      rewrite weight_zeros. split; [ring | lra].
    + intros k Hk. rewrite occurrences_app, (Hocc k Hk).
      rewrite occurrences_cons. unfold occurrences at 1. simpl.
      destruct (decide (k = i)) as [->|Hne].
      * rewrite list_lookup_insert_eq
          by (unfold zeros; by rewrite length_replicate).
        repeat case_decide; lia || done.
      * rewrite list_lookup_insert_ne by done. rewrite lookup_zeros by done.
        repeat case_decide; lia || done.
Qed.

Lemma first_fit_loop_exact (ws rest : list Q) i st :
  drop i ws = rest →
  (∀ w, w ∈ ws → (0 < w ∧ w < 1)%Q) →
  ff_exact ws i st →
  ff_exact ws (length ws) (first_fit_loop (length ws) i rest st).
Proof.
  revert i st. induction rest as [|w rest IH]; intros i st Hdrop Hrange Hinv.
  - simpl. assert (length ws ≤ i) as Hle.
    { apply (f_equal length) in Hdrop. rewrite length_drop in Hdrop.
      simpl in Hdrop. lia. }
    destruct Hinv as [Hbins Hocc]. split; [done|].
    intros k Hk. rewrite (Hocc k Hk).
    repeat case_decide; lia || done.
  - assert (ws !! i = Some w) as Hi.
    { rewrite <- (Nat.add_0_r i), <- lookup_drop, Hdrop. done. }
    simpl. apply IH; [|done|].
    + rewrite (drop_S _ _ _ Hi) in Hdrop. by injection Hdrop.
    + apply first_fit_body_exact; [done| |done].
      apply Hrange. by eapply list_elem_of_lookup_2.
Qed.

(** What [next_fit] and [first_fit] return in exact arithmetic. *)

Lemma next_fit_exact (ws : list Q) :
  (∀ w, w ∈ ws → (0 < w ∧ w < 1)%Q) →
  Forall (λ b, membership_vector (length ws) b ∧ (weight ws b <= 1)%Q)
         (next_fit ws)
  ∧ (∀ k, k < length ws → occurrences (next_fit ws) k = 1).
Proof.
  intros Hrange. unfold next_fit.
  destruct (next_fit_loop_exact ws ws 0 (nf_init (length ws)))
    as (Hbins & Hcur & Hspace & Hpos & Hocc); [done..| |].
  { unfold nf_exact, nf_init. cbn [nf_bins nf_current_bin nf_available_space].
    split; [done|]. split; [apply membership_vector_zeros|]. Qnum.
    split; [rewrite weight_zeros; ring|]. split; [lra|].
    intros k Hk. cbn [app]. rewrite occurrences_cons, lookup_zeros by done.
    unfold occurrences. simpl. repeat case_decide; lia || done. }
  split.
  - apply Forall_app. split; [done|]. apply Forall_singleton.
    split; [done|]. simpl. lra.
  - intros k Hk. rewrite (Hocc k Hk). by rewrite decide_True by lia.
Qed.

Lemma first_fit_exact (ws : list Q) :
  (∀ w, w ∈ ws → (0 < w ∧ w < 1)%Q) →
  Forall (λ b, membership_vector (length ws) b ∧ (weight ws b <= 1)%Q)
         (first_fit ws)
  ∧ (∀ k, k < length ws → occurrences (first_fit ws) k = 1).
Proof.
  intros Hrange. unfold first_fit.
  destruct (first_fit_loop_exact ws ws 0 (ff_init (length ws)))
    as (Hbins & Hocc); [done..| |].
  { unfold ff_exact, ff_init. cbn [ff_bins ff_available_space].
    split.
    - constructor; [|constructor].
      split; [apply membership_vector_zeros|]. Qnum.
      split; [rewrite weight_zeros; ring | lra].
    - intros k Hk. rewrite occurrences_cons, lookup_zeros by done.
      unfold occurrences. simpl. repeat case_decide; lia || done. }
  split.
  - apply Forall_forall. intros b Hb.
    apply list_elem_of_lookup_1 in Hb as [j Hb].
    destruct (Forall2_lookup_l _ _ _ _ _ Hbins Hb)
      as (a & _ & Hm & Hspace & Hpos).
    split; [done|]. lra.
  - intros k Hk. rewrite (Hocc k Hk). by rewrite decide_True by lia.
Qed.

(** *** FIRST-FIT-DECREASING *)

Section Unsort.
Context (ws : list Q) (indices : list nat).
Hypothesis indices_perm : indices ≡ₚ seq 0 (length ws).

Lemma length_sorted : length (gather 0%Q ws indices) = length ws.
Proof using indices_perm.
  unfold gather. by rewrite length_fmap, (perm_length _ _ indices_perm).
Qed.

Lemma sorted_elem w : w ∈ gather 0%Q ws indices → w ∈ ws.
Proof using indices_perm.
  unfold gather. intros (k & -> & Hk)%list_elem_of_fmap.
  apply (perm_lt _ _ indices_perm) in Hk.
  apply lookup_lt_is_Some in Hk as [x Hx].
  rewrite nth_lookup, Hx. simpl. by eapply list_elem_of_lookup_2.
Qed.

Lemma gather_undo_is_one (b : vec) p i :
  indices !! p = Some i →
  gather 0%Z b (undo_sort indices) !! i = Some 1%Z ↔ b !! p = Some 1%Z.
Proof using indices_perm.
  intros Hp. rewrite (gather_undo_lookup _ _ indices_perm b _ _ Hp).
  destruct (b !! p) as [e|]; simpl; [|done].
  split; congruence.
Qed.

(** Restoring the order keeps the total size of a bin. *)
Lemma weight_gather_undo (b : vec) :
  length b = length ws →
  (weight ws (gather 0%Z b (undo_sort indices))
   == weight (gather 0%Q ws indices) b)%Q.
Proof using indices_perm.
  intros Hlen. unfold weight. apply Qsum_perm.
  exact (select_gather_undo ws indices b indices_perm Hlen).
Qed.

Lemma membership_vector_gather_undo (b : vec) :
  membership_vector (length ws) b →
  membership_vector (length ws) (gather 0%Z b (undo_sort indices)).
Proof using indices_perm.
  intros [Hlen H01]. split; [by apply length_gather_undo|].
  unfold gather. apply Forall_fmap, Forall_forall. intros k _. simpl.
  rewrite nth_lookup. destruct (b !! k) as [e|] eqn:He; simpl; [|by left].
  eapply Forall_lookup_1 in H01; [|exact He]. done.
Qed.

Lemma occurrences_gather_undo (bins : list vec) p i :
  indices !! p = Some i →
  occurrences ((λ b, gather 0%Z b (undo_sort indices)) <$> bins) i
  = occurrences bins p.
Proof using indices_perm.
  intros Hp. induction bins as [|b bins IH]; [done|].
  rewrite fmap_cons, !occurrences_cons, IH.
  pose proof (gather_undo_is_one b _ _ Hp) as Hone.
  repeat case_decide; tauto || done.
Qed.

End Unsort.

Lemma first_fit_decreasing_with_exact (ws : list Q) (indices : list nat) :
  indices ≡ₚ seq 0 (length ws) →
  (∀ w, w ∈ ws → (0 < w ∧ w < 1)%Q) →
  Forall (λ b, membership_vector (length ws) b ∧ (weight ws b <= 1)%Q)
         (first_fit_decreasing_with indices ws)
  ∧ (∀ k, k < length ws →
       occurrences (first_fit_decreasing_with indices ws) k = 1).
Proof.
  intros Hperm Hrange.
  pose proof (length_sorted ws _ Hperm) as Hlen.
  destruct (first_fit_exact (gather 0%Q ws indices)) as [Hbins Hocc].
  { intros w Hw. apply Hrange. by eapply sorted_elem. }
  rewrite Hlen in Hbins, Hocc.
  unfold first_fit_decreasing_with. Qnum. split.
  - apply Forall_fmap, Forall_forall. intros b Hb. simpl.
    eapply Forall_forall in Hbins as [Hm Hw]; [|exact Hb].
    split; [by apply membership_vector_gather_undo|].
    rewrite weight_gather_undo; [done..|]. by destruct Hm.
  - intros i Hi.
    destruct (perm_position _ _ Hperm i Hi) as (p & Hp & Hpi).
    rewrite (occurrences_gather_undo ws _ Hperm _ _ _ Hpi). by apply Hocc.
Qed.

Lemma first_fit_decreasing_exact (ws : list Q) :
  (∀ w, w ∈ ws → (0 < w ∧ w < 1)%Q) →
  Forall (λ b, membership_vector (length ws) b ∧ (weight ws b <= 1)%Q)
         (first_fit_decreasing ws)
  ∧ (∀ k, k < length ws → occurrences (first_fit_decreasing ws) k = 1).
Proof.
  intros Hrange.
  apply first_fit_decreasing_with_exact; [apply ffd_indices_perm | done].
Qed.

Lemma occurrences_nonempty (bins : list vec) k :
  occurrences bins k = 1 → bins ≠ [].
Proof. by intros Hocc ->. Qed.

(** X14: feasibility in exact arithmetic: for rational sizes strictly
    between 0 and 1 the validator accepts what each of the three packers
    returns. *)
Theorem packers_feasible_exact (box_widths : list Q) :
  (∀ w, w ∈ box_widths → (0 < w ∧ w < 1)%Q) →
  is_valid_packing box_widths (next_fit box_widths) = Return true
  ∧ is_valid_packing box_widths (first_fit box_widths) = Return true
  ∧ is_valid_packing box_widths (first_fit_decreasing box_widths)
    = Return true.
Proof.
  intros Hrange.
  destruct box_widths as [|w rest] eqn:E; [done|]. rewrite <- E in *.
  assert (0 < length box_widths) as Hpos by (rewrite E; simpl; lia).
  destruct (next_fit_exact _ Hrange) as [Hnf Hnf'].
  destruct (first_fit_exact _ Hrange) as [Hff Hff'].
  destruct (first_fit_decreasing_exact _ Hrange) as [Hffd Hffd'].
  split; [|split]; apply is_valid_packing_exact; try done.
  - eapply occurrences_nonempty, Hnf', Hpos.
  - eapply occurrences_nonempty, Hff', Hpos.
  - eapply occurrences_nonempty, Hffd', Hpos.
Qed.

Lemma packers_feasible_exact_witness :
  is_valid_packing example_Q (next_fit example_Q) = Return true
  ∧ is_valid_packing example_Q (first_fit example_Q) = Return true
  ∧ is_valid_packing example_Q (first_fit_decreasing example_Q) = Return true.
Proof.
  apply (packers_feasible_exact example_Q).
  intros w Hw. unfold example_Q in Hw.
  repeat (apply elem_of_cons in Hw as [-> | Hw]; [split; reflexivity|]).
  by apply elem_of_nil in Hw.
Defined.

(** ** Feasibility in binary64 *)

(** C1 at the sizes 0.45, 0.4, 0.05, 0.1 in binary64, the arithmetic of a
    NumPy array: the sizes lie strictly between 0 and 1, each of the three
    packers puts all four items into one bin, the validator adds the sizes
    of that bin up to the number after 1 and returns [False].  Every
    subtraction from [available_space] is rounded, so the space left after
    0.45, 0.4 and 0.05 reads 0.10000000000000002 and 0.1 still fits. *)
Theorem packers_infeasible_binary64 :
  (∀ w, w ∈ rounding_input →
     num_lt num_zero w = true ∧ num_lt w num_one = true)
  ∧ next_fit rounding_input = [[1; 1; 1; 1]]%Z
  ∧ first_fit rounding_input = [[1; 1; 1; 1]]%Z
  ∧ first_fit_decreasing rounding_input = [[1; 1; 1; 1]]%Z
  ∧ np_sum (select rounding_input [1; 1; 1; 1]%Z) = 0x1.0000000000001p+0%float
  ∧ is_valid_packing rounding_input (next_fit rounding_input) = Return false
  ∧ is_valid_packing rounding_input (first_fit rounding_input) = Return false
  ∧ is_valid_packing rounding_input (first_fit_decreasing rounding_input)
    = Return false.
Proof.
  split; [|repeat split; vm_compute; reflexivity].
  intros w Hw. unfold rounding_input in Hw.
  repeat (apply elem_of_cons in Hw as [-> | Hw]; [done|]).
  by apply elem_of_nil in Hw.
Qed.

(** The same four binary64 numbers in exact arithmetic: they add up to
    more than 1, each packer opens a second bin, and the validator
    accepts. *)
Lemma rounding_input_exact :
  let ws := Q_of_float <$> rounding_input in
  (Qsum ws == 1 + 3 * Qpower 2 (-56))%Q
  ∧ next_fit ws = [[1; 1; 1; 0]; [0; 0; 0; 1]]%Z
  ∧ first_fit ws = [[1; 1; 1; 0]; [0; 0; 0; 1]]%Z
  ∧ first_fit_decreasing ws = [[1; 1; 0; 1]; [0; 0; 1; 0]]%Z
  ∧ is_valid_packing ws (next_fit ws) = Return true
  ∧ is_valid_packing ws (first_fit ws) = Return true
  ∧ is_valid_packing ws (first_fit_decreasing ws) = Return true.
Proof. repeat split; vm_compute; reflexivity. Qed.

(** Sizes too small to register in [available_space]: six sizes of 5e-17
    leave it at 1, the size just below 1 joins them in one bin, and the
    validator finds the bin over capacity. *)
Lemma absorbed_input_rejected :
  (∀ w, w ∈ absorbed_input →
     num_lt num_zero w = true ∧ num_lt w num_one = true)
  ∧ nf_available_space (nf_state_after absorbed_input 6) = 1%float
  ∧ nth 6 absorbed_input 0%float = 0x1.fffffffffffffp-1%float
  ∧ next_fit absorbed_input = [[1; 1; 1; 1; 1; 1; 1]]%Z
  ∧ first_fit absorbed_input = [[1; 1; 1; 1; 1; 1; 1]]%Z
  ∧ is_valid_packing absorbed_input (next_fit absorbed_input) = Return false
  ∧ is_valid_packing absorbed_input (first_fit absorbed_input) = Return false.
Proof.
  split; [|repeat split; vm_compute; reflexivity].
  intros w Hw. unfold absorbed_input in Hw.
  repeat (apply elem_of_cons in Hw as [-> | Hw]; [done|]).
  by apply elem_of_nil in Hw.
Qed.

(** ** Coverage, for every number type *)

Lemma placed_once_open n i (bins : list vec) :
  i < n → placed_once n i bins →
  placed_once n (S i) (bins ++ [<[i := 1%Z]> (zeros n)]).
Proof.
  intros Hi [Hm Hocc]. split.
  - apply Forall_app. split; [done|]. apply Forall_singleton.
    apply membership_vector_insert, membership_vector_zeros.
  - intros k Hk. rewrite occurrences_app, (Hocc k Hk), occurrences_cons.
    unfold occurrences at 1. simpl.
    destruct (decide (k = i)) as [->|Hne].
    + rewrite list_lookup_insert_eq
        by (unfold zeros; by rewrite length_replicate).
      repeat case_decide; lia || done.
    + rewrite list_lookup_insert_ne by done. rewrite lookup_zeros by done.
      repeat case_decide; lia || done.
Qed.

Lemma placed_once_put n i j (bins : list vec) :
  i < n → j < length bins → placed_once n i bins →
  placed_once n (S i) (alter (λ b, <[i := 1%Z]> b) j bins).
Proof.
  intros Hi Hj [Hm Hocc].
  apply lookup_lt_is_Some in Hj as [b Hb].
  assert (membership_vector n b) as Hmb by (by eapply Forall_lookup_1).
  split.
  - apply Forall_alter; [done|]. intros b' _.
    eapply Forall_impl in Hm; [|intros c Hc; exact Hc].
    intros. by apply membership_vector_insert.
  - intros k Hk. destruct (decide (k = i)) as [->|Hne].
    + rewrite (occurrences_alter_eq _ _ _ b Hb).
      * rewrite (Hocc i Hi). repeat case_decide; lia || done.
      * apply (occurrences_zero bins); [|by eapply list_elem_of_lookup_2].
        rewrite (Hocc i Hi). by rewrite decide_False by lia.
      * destruct Hmb as [-> _]. done.
    + rewrite occurrences_alter_ne by done. rewrite (Hocc k Hk).
      repeat case_decide; lia || done.
Qed.

Lemma placed_once_init n : placed_once n 0 [zeros n].
Proof.
  split; [apply Forall_singleton, membership_vector_zeros|].
  intros k Hk. rewrite occurrences_cons, lookup_zeros by done.
  unfold occurrences. simpl. repeat case_decide; lia || done.
Qed.

Lemma placed_once_all n (bins : list vec) :
  placed_once n n bins →
  Forall (membership_vector n) bins
  ∧ (∀ k, k < n → occurrences bins k = 1)
  ∧ col_sum n bins = ones n.
Proof.
  intros [Hm Hocc].
  assert (∀ k, k < n → occurrences bins k = 1) as Hone.
  { intros k Hk. rewrite (Hocc k Hk). by rewrite decide_True. }
  split; [done|]. split; [done|]. by apply col_sum_ones_iff.
Qed.

Section Coverage.
Context {R : Type} `{Num R}.

Lemma next_fit_body_placed n i (w : R) st :
  i < n →
  placed_once n i (nf_bins st ++ [nf_current_bin st]) →
  placed_once n (S i)
    (nf_bins (next_fit_body n i w st)
       ++ [nf_current_bin (next_fit_body n i w st)]).
Proof.
  intros Hi Hinv. unfold next_fit_body.
  destruct (nf_opens w st); cbn [nf_bins nf_current_bin].
  - by apply placed_once_open.
  - replace (nf_bins st ++ [<[i := 1%Z]> (nf_current_bin st)])
      with (alter (λ b : list Z, <[i := 1%Z]> b) (length (nf_bins st) + 0)
                  (nf_bins st ++ [nf_current_bin st]))
      by (by rewrite alter_app_r).
    apply placed_once_put; [done| |done].
    rewrite length_app. simpl. lia.
Qed.

Lemma next_fit_loop_placed n (rest : list R) i st :
  i + length rest = n →
  placed_once n i (nf_bins st ++ [nf_current_bin st]) →
  placed_once n n
    (nf_bins (next_fit_loop n i rest st)
       ++ [nf_current_bin (next_fit_loop n i rest st)]).
Proof.
  revert i st. induction rest as [|w rest IH]; intros i st Hi Hinv; simpl.
  - simpl in Hi. rewrite Nat.add_0_r in Hi. by subst i.
  - simpl in Hi. apply IH; [lia|]. apply next_fit_body_placed; [lia|done].
Qed.

Lemma first_fit_body_placed n i (w : R) st :
  i < n → placed_once n i (ff_bins st) →
  placed_once n (S i) (ff_bins (first_fit_body n i w st)).
Proof.
  intros Hi Hinv.
  destruct (first_fit_body_cases n i w st) as [(j & Hj & _ & ->)|[_ ->]];
    simpl.
  - by apply placed_once_put.
  - by apply placed_once_open.
Qed.

Lemma first_fit_loop_placed n (rest : list R) i st :
  i + length rest = n →
  placed_once n i (ff_bins st) →
  placed_once n n (ff_bins (first_fit_loop n i rest st)).
Proof.
  revert i st. induction rest as [|w rest IH]; intros i st Hi Hinv; simpl.
  - simpl in Hi. rewrite Nat.add_0_r in Hi. by subst i.
  - simpl in Hi. apply IH; [lia|]. apply first_fit_body_placed; [lia|done].
Qed.

Lemma next_fit_placed (ws : list R) :
  placed_once (length ws) (length ws) (next_fit ws).
Proof.
  unfold next_fit. apply next_fit_loop_placed; [done|].
  apply placed_once_init.
Qed.

Lemma first_fit_placed (ws : list R) :
  placed_once (length ws) (length ws) (first_fit ws).
Proof.
  unfold first_fit. apply first_fit_loop_placed; [done|].
  apply placed_once_init.
Qed.

End Coverage.

(** Restoring the order of a bin keeps it a membership vector, and moves
    the entry of position [p] of the sort to the item sorted there. *)

Section Restore.
Context (indices : list nat) (n : nat).
Hypothesis indices_perm : indices ≡ₚ seq 0 n.

Lemma membership_vector_restore (b : vec) :
  membership_vector n b →
  membership_vector n (gather 0%Z b (undo_sort indices)).
Proof using indices_perm.
  intros [Hlen H01]. split; [by apply length_gather_undo|].
  unfold gather. apply Forall_fmap, Forall_forall. intros k _. simpl.
  rewrite nth_lookup. destruct (b !! k) as [e|] eqn:He; simpl; [|by left].
  eapply Forall_lookup_1 in H01; [|exact He]. done.
Qed.

Lemma occurrences_restore (bins : list vec) p i :
  indices !! p = Some i →
  occurrences ((λ b, gather 0%Z b (undo_sort indices)) <$> bins) i
  = occurrences bins p.
Proof using indices_perm.
  intros Hp. induction bins as [|b bins IH]; [done|].
  rewrite fmap_cons, !occurrences_cons, IH.
  rewrite (gather_undo_lookup _ _ indices_perm b _ _ Hp).
  destruct (b !! p) as [e|]; simpl; repeat case_decide; congruence.
Qed.

Lemma placed_once_restore (bins : list vec) :
  placed_once n n bins →
  placed_once n n ((λ b, gather 0%Z b (undo_sort indices)) <$> bins).
Proof using indices_perm.
  intros [Hm Hocc]. split.
  - apply Forall_fmap. eapply Forall_impl; [exact Hm|].
    intros b Hb. by apply membership_vector_restore.
  - intros i Hi.
    destruct (perm_position _ _ indices_perm i Hi) as (p & Hp & Hpi).
    rewrite (occurrences_restore _ _ _ Hpi), (Hocc p Hp).
    repeat case_decide; lia || done.
Qed.

End Restore.

Lemma length_gather {A} (d : A) (a : list A) idx :
  length (gather d a idx) = length idx.
Proof. unfold gather. by rewrite length_fmap. Qed.

Lemma first_fit_decreasing_with_placed {R} `{Num R}
    (ws : list R) (indices : list nat) :
  indices ≡ₚ seq 0 (length ws) →
  placed_once (length ws) (length ws) (first_fit_decreasing_with indices ws).
Proof.
  intros Hperm. unfold first_fit_decreasing_with.
  apply placed_once_restore; [done|].
  pose proof (first_fit_placed (gather num_zero ws indices)) as Hff.
  by rewrite length_gather, (perm_length _ _ Hperm) in Hff.
Qed.

(** ** Every item is packed exactly once *)

(** X1: whatever the sizes and the arithmetic, [next_fit] returns 0/1
    vectors over the [n] items in which every item is a member of exactly
    one bin; their elementwise sum is the all-ones vector. *)
Theorem next_fit_partition {R} `{Num R} (box_widths : list R) :
  let n := length box_widths in
  Forall (membership_vector n) (next_fit box_widths)
  ∧ (∀ i, i < n → occurrences (next_fit box_widths) i = 1)
  ∧ col_sum n (next_fit box_widths) = ones n.
Proof. apply placed_once_all, next_fit_placed. Qed.

(** X2: whatever the sizes and the arithmetic, [first_fit] returns 0/1
    vectors over the [n] items in which every item is a member of exactly
    one bin; their elementwise sum is the all-ones vector. *)
Theorem first_fit_partition {R} `{Num R} (box_widths : list R) :
  let n := length box_widths in
  Forall (membership_vector n) (first_fit box_widths)
  ∧ (∀ i, i < n → occurrences (first_fit box_widths) i = 1)
  ∧ col_sum n (first_fit box_widths) = ones n.
Proof. apply placed_once_all, first_fit_placed. Qed.

(** X3: [first_fit_decreasing] returns 0/1 vectors over the [n] items in
    which every item is a member of exactly one bin, for the sort indices
    it computes and for any other permutation of the item indices that
    [np.argsort] may return when sizes are equal. *)
Theorem first_fit_decreasing_partition {R} `{Num R} (box_widths : list R) :
  let n := length box_widths in
  (Forall (membership_vector n) (first_fit_decreasing box_widths)
   ∧ (∀ i, i < n → occurrences (first_fit_decreasing box_widths) i = 1)
   ∧ col_sum n (first_fit_decreasing box_widths) = ones n)
  ∧ ∀ indices, indices ≡ₚ seq 0 n →
      Forall (membership_vector n)
             (first_fit_decreasing_with indices box_widths)
      ∧ (∀ i, i < n →
           occurrences (first_fit_decreasing_with indices box_widths) i = 1)
      ∧ col_sum n (first_fit_decreasing_with indices box_widths) = ones n.
Proof.
  split.
  - apply placed_once_all, first_fit_decreasing_with_placed, ffd_indices_perm.
  - intros indices Hperm.
    by apply placed_once_all, first_fit_decreasing_with_placed.
Qed.

(** ** The outcomes of the validator *)

Section Outcomes.
Context {R : Type} `{Num R}.

Lemma in_range_iff (ws : list R) :
  np_any (λ w, num_gt w num_one) ws || np_any (λ w, num_lt w num_zero) ws
  = false
  ↔ ∀ w, w ∈ ws → num_gt w num_one = false ∧ num_lt w num_zero = false.
Proof.
  split; [|apply in_range_no_ValueError].
  intros [Hgt Hlt]%orb_false_iff w Hw.
  split; apply not_true_iff_false; intros Hc.
  - apply not_true_iff_false in Hgt. apply Hgt, np_any_true. by exists w.
  - apply not_true_iff_false in Hlt. apply Hlt, np_any_true. by exists w.
Qed.

Lemma within_capacity_app (ws : list R) l1 l2 :
  within_capacity ws (l1 ++ l2)
  = within_capacity ws l1 && within_capacity ws l2.
Proof. unfold within_capacity. apply forallb_app. Qed.

(** [x += b] keeps the shape of [x] when it broadcasts, and raises
    otherwise. *)
Lemma iadd_Some (x b : vec) :
  length b = length x ∨ length b = 1 →
  ∃ x', iadd x b = Some x' ∧ length x' = length x.
Proof.
  intros Hshape. unfold iadd.
  destruct (length b =? length x) eqn:E.
  - apply Nat.eqb_eq in E. eexists. split; [done|].
    by apply length_vec_add.
  - apply Nat.eqb_neq in E. destruct Hshape as [?|Hone]; [done|].
    destruct b as [|e [|??]]; try done.
    eexists. split; [done|]. by rewrite length_fmap.
Qed.

Lemma iadd_None (x b : vec) :
  length b ≠ length x → length b ≠ 1 → iadd x b = None.
Proof.
  intros Hx Hone. unfold iadd.
  rewrite (proj2 (Nat.eqb_neq _ _) Hx).
  by destruct b as [|e [|??]].
Qed.

(** The loop gets past the bins that pass, with a total of the same
    shape. *)
Lemma is_valid_packing_loop_pass (ws : list R) pre rest x :
  Forall (bin_passes ws (length x)) pre →
  ∃ x', length x' = length x
        ∧ is_valid_packing_loop ws (pre ++ rest) x
          = is_valid_packing_loop ws rest x'.
Proof.
  intros Hpre. revert x Hpre.
  induction pre as [|b pre IH]; intros x Hpre; [by exists x|].
  apply Forall_cons in Hpre as [(Hmask & Hcap & Hshape) Hpre].
  destruct (iadd_Some x b Hshape) as (x1 & Hadd & Hx1).
  destruct (IH x1) as (x' & Hx' & Hloop); [by rewrite Hx1|].
  exists x'. split; [congruence|].
  cbn [app is_valid_packing_loop]. by rewrite Hmask, Hcap, Hadd.
Qed.

(** What the first bin that does not pass makes of the loop. *)
Lemma is_valid_packing_loop_mask (ws : list R) pre b rest x :
  Forall (bin_passes ws (length x)) pre →
  mask_ok ws b = false →
  is_valid_packing_loop ws (pre ++ b :: rest) x = Raise IndexError.
Proof.
  intros Hpre Hmask.
  destruct (is_valid_packing_loop_pass ws pre (b :: rest) x Hpre)
    as (x' & _ & ->).
  simpl. by rewrite Hmask.
Qed.

Lemma is_valid_packing_loop_capacity (ws : list R) pre b rest x :
  Forall (bin_passes ws (length x)) pre →
  mask_ok ws b = true → overfull ws b = true →
  is_valid_packing_loop ws (pre ++ b :: rest) x = Return None.
Proof.
  intros Hpre Hmask Hcap.
  destruct (is_valid_packing_loop_pass ws pre (b :: rest) x Hpre)
    as (x' & _ & ->).
  simpl. by rewrite Hmask, Hcap.
Qed.

Lemma is_valid_packing_loop_broadcast (ws : list R) pre b rest x :
  Forall (bin_passes ws (length x)) pre →
  mask_ok ws b = true → overfull ws b = false →
  length b ≠ length x → length b ≠ 1 →
  is_valid_packing_loop ws (pre ++ b :: rest) x = Raise ValueError.
Proof.
  intros Hpre Hmask Hcap Hx Hone.
  destruct (is_valid_packing_loop_pass ws pre (b :: rest) x Hpre)
    as (x' & Hx' & ->).
  simpl. rewrite Hmask, Hcap. simpl.
  by rewrite iadd_None by congruence.
Qed.

Lemma is_valid_packing_loop_through (ws : list R) bins x :
  Forall (bin_passes ws (length x)) bins →
  ∃ x', length x' = length x
        ∧ is_valid_packing_loop ws bins x = Return (Some x').
Proof.
  intros Hbins.
  destruct (is_valid_packing_loop_pass ws bins [] x Hbins)
    as (x' & Hx' & Hloop).
  rewrite app_nil_r in Hloop. by exists x'.
Qed.

(** Every bin passes, or there is a first one that does not. *)
Lemma first_not_passing (ws : list R) l (bins : list vec) :
  Forall (bin_passes ws l) bins
  ∨ ∃ pre b rest, bins = pre ++ b :: rest
      ∧ Forall (bin_passes ws l) pre
      ∧ (mask_ok ws b = false
         ∨ (mask_ok ws b = true ∧ overfull ws b = true)
         ∨ (mask_ok ws b = true ∧ overfull ws b = false
            ∧ length b ≠ l ∧ length b ≠ 1)).
Proof.
  induction bins as [|b bins IH]; [by left|].
  assert (bin_passes ws l b
          ∨ (mask_ok ws b = false
             ∨ (mask_ok ws b = true ∧ overfull ws b = true)
             ∨ (mask_ok ws b = true ∧ overfull ws b = false
                ∧ length b ≠ l ∧ length b ≠ 1))) as [Hb|Hb].
  { unfold bin_passes.
    destruct (mask_ok ws b); [|by right; left].
    destruct (overfull ws b); [by right; right; left|].
    destruct (decide (length b = l)); [by left; auto|].
    destruct (decide (length b = 1)); [by left; auto|].
    right. right. right. done. }
  - destruct IH as [IH|(pre & c & rest & -> & Hpre & Hc)].
    + left. by constructor.
    + right. exists (b :: pre), c, rest. split; [done|].
      split; [by constructor | done].
  - right. exists [], b, bins. split; [done|]. split; [constructor | done].
Qed.

(** The outcome of the loop. *)
Lemma is_valid_packing_loop_outcome (ws : list R) bins x :
  (Forall (bin_passes ws (length x)) bins
   ∧ ∃ x', length x' = length x
           ∧ is_valid_packing_loop ws bins x = Return (Some x'))
  ∨ (∃ pre b rest, bins = pre ++ b :: rest
       ∧ Forall (bin_passes ws (length x)) pre
       ∧ mask_ok ws b = false
       ∧ is_valid_packing_loop ws bins x = Raise IndexError)
  ∨ (∃ pre b rest, bins = pre ++ b :: rest
       ∧ Forall (bin_passes ws (length x)) pre
       ∧ mask_ok ws b = true ∧ overfull ws b = true
       ∧ is_valid_packing_loop ws bins x = Return None)
  ∨ (∃ pre b rest, bins = pre ++ b :: rest
       ∧ Forall (bin_passes ws (length x)) pre
       ∧ mask_ok ws b = true ∧ overfull ws b = false
       ∧ length b ≠ length x ∧ length b ≠ 1
       ∧ is_valid_packing_loop ws bins x = Raise ValueError).
Proof.
  destruct (first_not_passing ws (length x) bins)
    as [Hall|(pre & b & rest & -> & Hpre
              & [Hm|[[Hm Hc]|(Hm & Hc & Hx & Hone)]])].
  - left. split; [done|]. by apply is_valid_packing_loop_through.
  - right. left. exists pre, b, rest. repeat split; try done.
    by apply is_valid_packing_loop_mask.
  - right. right. left. exists pre, b, rest. repeat split; try done.
    by apply is_valid_packing_loop_capacity.
  - right. right. right. exists pre, b, rest. repeat split; try done.
    by apply is_valid_packing_loop_broadcast.
Qed.

(** A packing in which every item is in exactly one bin is judged by its
    capacities alone. *)
Lemma is_valid_packing_placed_once (ws : list R) bins :
  bins ≠ [] →
  placed_once (length ws) (length ws) bins →
  is_valid_packing ws bins
  = if np_any (λ w, num_gt w num_one) ws
       || np_any (λ w, num_lt w num_zero) ws
    then Raise ValueError
    else Return (within_capacity ws bins).
Proof.
  intros Hne Hplaced.
  destruct (np_any (λ w, num_gt w num_one) ws
            || np_any (λ w, num_lt w num_zero) ws) eqn:Hrange.
  - unfold is_valid_packing. by rewrite Hrange.
  - pose proof (proj1 (in_range_iff ws) Hrange) as Hin.
    apply placed_once_all in Hplaced as (Hm & _ & Hsum).
    rewrite is_valid_packing_shaped; try done.
    + by rewrite bool_decide_eq_true_2, andb_true_r.
    + eapply Forall_impl; [exact Hm|]. by intros b [? _].
Qed.

(** What the validator has checked when it returns [True] on bins of the
    length of the size array. *)
Lemma is_valid_packing_accepted (ws : list R) (bins : list vec) :
  Forall (λ b, length b = length ws) bins →
  is_valid_packing ws bins = Return true
  ↔ (∀ w, w ∈ ws → num_gt w num_one = false ∧ num_lt w num_zero = false)
    ∧ bins ≠ []
    ∧ Forall (λ b, overfull ws b = false) bins
    ∧ col_sum (length ws) bins = ones (length ws).
Proof.
  intros Hlen. split.
  - intros Htrue.
    destruct (np_any (λ w, num_gt w num_one) ws
              || np_any (λ w, num_lt w num_zero) ws) eqn:Hrange.
    { unfold is_valid_packing in Htrue. by rewrite Hrange in Htrue. }
    pose proof (proj1 (in_range_iff ws) Hrange) as Hin.
    destruct (decide (bins = [])) as [->|Hne].
    { unfold is_valid_packing in Htrue. by rewrite Hrange in Htrue. }
    rewrite is_valid_packing_shaped in Htrue by done.
    injection Htrue as Htrue. apply andb_true_iff in Htrue as [Hcap Hsum].
    split; [done|]. split; [done|].
    split; [by apply within_capacity_Forall|].
    by apply bool_decide_eq_true in Hsum.
  - intros (Hin & Hne & Hcap & Hsum).
    rewrite is_valid_packing_within_capacity by done.
    by rewrite bool_decide_eq_true_2.
Qed.

End Outcomes.

(** ** The number of bins *)

Section Counts.
Context {R : Type} `{Num R}.

Lemma next_fit_body_count n i (w : R) st :
  length (nf_bins (next_fit_body n i w st))
  = length (nf_bins st) + (if nf_opens w st then 1 else 0).
Proof.
  unfold next_fit_body. destruct (nf_opens w st); cbn [nf_bins].
  - rewrite length_app. simpl. lia.
  - lia.
Qed.

Lemma next_fit_loop_count n (rest : list R) i st :
  length (nf_bins st) ≤ length (nf_bins (next_fit_loop n i rest st))
  ∧ length (nf_bins (next_fit_loop n i rest st))
    ≤ length (nf_bins st) + length rest.
Proof.
  revert i st. induction rest as [|w rest IH]; intros i st; simpl; [lia|].
  specialize (IH (S i) (next_fit_body n i w st)).
  rewrite next_fit_body_count in IH. destruct (nf_opens w st); lia.
Qed.

Lemma first_fit_body_count n i (w : R) st :
  length (ff_bins st) ≤ length (ff_bins (first_fit_body n i w st))
  ∧ length (ff_bins (first_fit_body n i w st)) ≤ S (length (ff_bins st)).
Proof.
  destruct (first_fit_body_cases n i w st) as [(j & _ & _ & ->)|[_ ->]];
    simpl.
  - rewrite length_alter. lia.
  - rewrite length_app. simpl. lia.
Qed.

Lemma first_fit_loop_count n (rest : list R) i st :
  length (ff_bins st) ≤ length (ff_bins (first_fit_loop n i rest st))
  ∧ length (ff_bins (first_fit_loop n i rest st))
    ≤ length (ff_bins st) + length rest.
Proof.
  revert i st. induction rest as [|w rest IH]; intros i st; simpl; [lia|].
  specialize (IH (S i) (first_fit_body n i w st)).
  pose proof (first_fit_body_count n i w st). lia.
Qed.

Lemma next_fit_count (ws : list R) :
  1 ≤ length (next_fit ws) ∧ length (next_fit ws) ≤ S (length ws).
Proof.
  unfold next_fit. rewrite length_app. simpl.
  pose proof (next_fit_loop_count (length ws) ws 0 (nf_init (length ws))) as Hc.
  simpl in Hc. lia.
Qed.

Lemma first_fit_count (ws : list R) :
  1 ≤ length (first_fit ws) ∧ length (first_fit ws) ≤ S (length ws).
Proof.
  unfold first_fit.
  pose proof (first_fit_loop_count (length ws) ws 0 (ff_init (length ws))) as Hc.
  simpl in Hc. lia.
Qed.

Lemma length_first_fit_decreasing_with (indices : list nat) (ws : list R) :
  length (first_fit_decreasing_with indices ws)
  = length (first_fit (gather num_zero ws indices)).
Proof. unfold first_fit_decreasing_with. by rewrite length_fmap. Qed.

Lemma first_fit_decreasing_with_count (indices : list nat) (ws : list R) :
  1 ≤ length (first_fit_decreasing_with indices ws)
  ∧ length (first_fit_decreasing_with indices ws) ≤ S (length indices).
Proof.
  rewrite length_first_fit_decreasing_with.
  pose proof (first_fit_count (gather num_zero ws indices)) as Hc.
  by rewrite length_gather in Hc.
Qed.

(** A first item that does not exceed the capacity opens no bin. *)
Lemma next_fit_count_first (w : R) (rest : list R) :
  num_gt w num_one = false →
  length (next_fit (w :: rest)) ≤ S (length rest).
Proof.
  intros Hw. unfold next_fit. rewrite length_app. simpl.
  match goal with
  | |- context [next_fit_loop ?n 1 rest ?st] =>
      pose proof (next_fit_loop_count n rest 1 st) as [_ Hc];
      rewrite next_fit_body_count in Hc
  end.
  unfold nf_opens in Hc. simpl in Hc. rewrite Hw in Hc. simpl in Hc. lia.
Qed.

(** A first item below the capacity goes into the bin [first_fit] starts
    with. *)
Lemma first_fit_count_first (w : R) (rest : list R) :
  num_lt w num_one = true →
  length (first_fit (w :: rest)) ≤ S (length rest).
Proof.
  intros Hw. unfold first_fit. simpl.
  match goal with
  | |- context [first_fit_loop ?n 1 rest ?st] =>
      pose proof (first_fit_loop_count n rest 1 st) as [_ Hc];
      assert (length (ff_bins st) = 1) as Hone
  end.
  { unfold first_fit_body. simpl. unfold space_at. simpl. by rewrite Hw. }
  rewrite Hone in Hc. lia.
Qed.

Lemma elem_of_gather (ws : list R) (indices : list nat) w :
  indices ≡ₚ seq 0 (length ws) →
  w ∈ gather num_zero ws indices → w ∈ ws.
Proof.
  intros Hperm. unfold gather. intros (k & -> & Hk)%list_elem_of_fmap.
  apply (perm_lt _ _ Hperm) in Hk.
  apply lookup_lt_is_Some in Hk as [x Hx].
  rewrite nth_lookup, Hx. simpl. by eapply list_elem_of_lookup_2.
Qed.

Lemma first_fit_decreasing_with_count_first (indices : list nat)
    (ws : list R) :
  indices ≡ₚ seq 0 (length ws) →
  ws ≠ [] →
  (∀ w, w ∈ ws → num_lt w num_one = true) →
  length (first_fit_decreasing_with indices ws) ≤ length ws.
Proof.
  intros Hperm Hne Hlt. rewrite length_first_fit_decreasing_with.
  pose proof (length_gather num_zero ws indices) as Hlen.
  rewrite (perm_length _ _ Hperm) in Hlen.
  destruct (gather num_zero ws indices) as [|w rest] eqn:Hsorted.
  - destruct ws; [done|]. simpl in Hlen. lia.
  - rewrite <- Hlen. apply first_fit_count_first, Hlt.
    apply (elem_of_gather ws indices w Hperm). rewrite Hsorted. by left.
Qed.

End Counts.

(** X4: what the validator certifies, on 0/1 vectors of the length of the
    size array.  It returns [True] exactly when every size is within 0 and
    1, there is at least one bin, the selected sizes of no bin add up to
    more than 1 (by [np.sum]), and the elementwise sum of the bins is the
    all-ones vector, that is, every item is in exactly one bin. *)
Theorem is_valid_packing_accepts_iff {R} `{Num R}
    (box_widths : list R) (bins : list vec) :
  let n := length box_widths in
  Forall (membership_vector n) bins →
  (is_valid_packing box_widths bins = Return true
   ↔ (∀ w, w ∈ box_widths →
        num_gt w num_one = false ∧ num_lt w num_zero = false)
     ∧ bins ≠ []
     ∧ Forall (λ b, overfull box_widths b = false) bins
     ∧ col_sum n bins = ones n)
  ∧ (col_sum n bins = ones n ↔ ∀ i, i < n → occurrences bins i = 1).
Proof.
  intros n Hm. subst n. split.
  - by apply is_valid_packing_accepted, membership_vector_lengths.
  - by apply col_sum_ones_iff.
Qed.

Lemma is_valid_packing_accepts_iff_witness :
  let sizes := [0.3; 0.6; 0.9]%float in
  let bins := [[1; 1; 0]; [0; 0; 1]]%Z in
  (is_valid_packing sizes bins = Return true
   ↔ (∀ w, w ∈ sizes →
        num_gt w num_one = false ∧ num_lt w num_zero = false)
     ∧ bins ≠ []
     ∧ Forall (λ b, overfull sizes b = false) bins
     ∧ col_sum 3 bins = ones 3)
  ∧ (col_sum 3 bins = ones 3 ↔ ∀ i, i < 3 → occurrences bins i = 1).
Proof.
  apply (is_valid_packing_accepts_iff [0.3; 0.6; 0.9]%float).
  unfold membership_vector. apply (bool_decide_unpack _). by vm_compute.
Defined.

(** X5: the errors of the validator.  The running total has the length
    [l] of the first bin.  A bin passes when its mask can index the sizes
    (it has their length, or length 0), it is within capacity, and it can
    be added to the total (it has length [l], or length 1).  The validator
    raises [IndexError] exactly when the sizes pass the range check and
    there is no bin, or the first bin that does not pass has a mask that
    cannot index the sizes; it raises [ValueError] exactly when a size is
    out of range, or the first bin that does not pass has a good mask, is
    within capacity and cannot be added to the total. *)
Theorem is_valid_packing_raises_iff {R} `{Num R}
    (box_widths : list R) (bins : list vec) :
  let in_range :=
    ∀ w, w ∈ box_widths →
      num_gt w num_one = false ∧ num_lt w num_zero = false in
  let l := length (hd [] bins) in
  (is_valid_packing box_widths bins = Raise IndexError
   ↔ in_range
     ∧ (bins = []
        ∨ ∃ pre b rest, bins = pre ++ b :: rest
            ∧ Forall (bin_passes box_widths l) pre
            ∧ mask_ok box_widths b = false))
  ∧ (is_valid_packing box_widths bins = Raise ValueError
     ↔ ¬ in_range
       ∨ ∃ pre b rest, bins = pre ++ b :: rest
           ∧ Forall (bin_passes box_widths l) pre
           ∧ mask_ok box_widths b = true
           ∧ overfull box_widths b = false
           ∧ length b ≠ l ∧ length b ≠ 1).
Proof.
  intros in_range l. subst in_range l. unfold is_valid_packing.
  destruct (np_any (λ w, num_gt w num_one) box_widths
            || np_any (λ w, num_lt w num_zero) box_widths) eqn:Hrange.
  { assert (¬ ∀ w, w ∈ box_widths →
                num_gt w num_one = false ∧ num_lt w num_zero = false)
      as Hout.
    { intros Hin%in_range_iff. congruence. }
    split; split; try done; [by intros [? _] | by left]. }
  pose proof (proj1 (in_range_iff box_widths) Hrange) as Hin.
  destruct bins as [|b0 bins'].
  { split; split; try done; [by auto|].
    intros [?|(pre & b & rest & Heq & _)]; [done | by destruct pre]. }
  cbn [hd].
  assert (length (zeros (length b0)) = length b0) as Hz
      by (unfold zeros; by rewrite length_replicate).
  pose proof (is_valid_packing_loop_mask box_widths) as Hmask.
  pose proof (is_valid_packing_loop_broadcast box_widths) as Hbroad.
  destruct (is_valid_packing_loop_outcome box_widths (b0 :: bins')
              (zeros (length b0)))
    as [(Hall & x' & _ & Hloop)
       |[(pre & b & rest & Heq & Hpre & Hm & Hloop)
        |[(pre & b & rest & Heq & Hpre & Hm & Hc & Hloop)
         |(pre & b & rest & Heq & Hpre & Hm & Hc & Hx & Hone & Hloop)]]];
    rewrite Hz in *; rewrite Hloop.
  - split; split.
    + by destruct (np_any (λ e, negb (e =? 1)%Z) x').
    + intros [_ [?|(pre & b & rest & Heq & Hpre & Hm)]]; [done|].
      rewrite Heq, (Hmask pre b rest) in Hloop by (rewrite ?Hz; done). done.
    + by destruct (np_any (λ e, negb (e =? 1)%Z) x').
    + intros [?|(pre & b & rest & Heq & Hpre & Hm & Hc & Hx & Hone)];
        [done|].
      rewrite Heq, (Hbroad pre b rest) in Hloop by (rewrite ?Hz; done). done.
  - split; split; try done.
    + intros _. split; [done|]. right. by exists pre, b, rest.
    + intros [?|(pre' & b' & rest' & Heq' & Hpre' & Hm' & Hc' & Hx' & Hone')];
        [done|].
      rewrite Heq', (Hbroad pre' b' rest') in Hloop by (rewrite ?Hz; done).
      done.
  - split; split; try done.
    + intros [_ [?|(pre' & b' & rest' & Heq' & Hpre' & Hm')]]; [done|].
      rewrite Heq', (Hmask pre' b' rest') in Hloop by (rewrite ?Hz; done). done.
    + intros [?|(pre' & b' & rest' & Heq' & Hpre' & Hm' & Hc' & Hx' & Hone')];
        [done|].
      rewrite Heq', (Hbroad pre' b' rest') in Hloop by (rewrite ?Hz; done).
      done.
  - split; split; try done.
    + intros [_ [?|(pre' & b' & rest' & Heq' & Hpre' & Hm')]]; [done|].
      rewrite Heq', (Hmask pre' b' rest') in Hloop by (rewrite ?Hz; done). done.
    + intros _. right. by exists pre, b, rest.
Qed.

(** The validator on bins of other lengths than the size array, in
    binary64: a bin of length 0 alone is accepted; after a bin of the
    right length it cannot be added to the total; a bin of length 1 cannot
    index three sizes; and with one size, a total of length 0 takes a bin
    of length 1 by broadcasting. *)
Lemma is_valid_packing_shapes :
  let sizes := [0.3; 0.6; 0.9]%float in
  is_valid_packing sizes [[]] = Return true
  ∧ is_valid_packing sizes [[1; 1; 0]; []]%Z = Raise ValueError
  ∧ is_valid_packing sizes [[1; 1; 0]; [1]]%Z = Raise IndexError
  ∧ is_valid_packing sizes [[1; 1; 1]; []]%Z = Return false
  ∧ is_valid_packing [0.5%float] [[]; [1]]%Z = Return true.
Proof. repeat split. Qed.

Lemma is_valid_packing_loop_empty_vectors {R} `{Num R}
    (box_widths : list R) (k : nat) :
  num_gt num_zero num_one = false →
  is_valid_packing_loop box_widths (replicate k []) [] = Return (Some []).
Proof.
  intros Hzero. induction k as [|k IH]; [done|].
  cbn [replicate is_valid_packing_loop].
  unfold mask_ok. cbn [length]. rewrite Nat.eqb_refl, orb_true_r.
  cbn [negb].
  assert (overfull box_widths [] = false) as ->; [|done].
  unfold overfull. destruct box_widths; exact Hzero.
Qed.

(** X23: bins of length 0.  For sizes within 0 and 1 (and an arithmetic in
    which 0 > 1 is false), a packing made of one or more empty vectors is
    accepted, whatever the number of sizes: the empty mask selects
    nothing, and the total, of the shape of the first bin, is empty, so
    that no entry of it differs from 1.  After a first bin of the length
    of the size array that is within capacity, an empty vector raises
    [ValueError] at [x += b], whatever follows it. *)
Theorem is_valid_packing_empty_vectors {R} `{Num R}
    (box_widths : list R) :
  num_gt num_zero num_one = false →
  (∀ w, w ∈ box_widths →
     num_gt w num_one = false ∧ num_lt w num_zero = false) →
  (∀ k, is_valid_packing box_widths (replicate (S k) []) = Return true)
  ∧ (∀ b0 rest,
       box_widths ≠ [] →
       length b0 = length box_widths →
       overfull box_widths b0 = false →
       is_valid_packing box_widths (b0 :: [] :: rest) = Raise ValueError).
Proof.
  intros Hzero Hin. apply in_range_iff in Hin. split.
  - intros k. unfold is_valid_packing. rewrite Hin.
    cbn [replicate length zeros].
    change (@nil Z :: replicate k []) with (replicate (S k) (@nil Z)).
    by rewrite is_valid_packing_loop_empty_vectors.
  - intros b0 rest Hne Hlen Hfull. unfold is_valid_packing. rewrite Hin.
    cbn [is_valid_packing_loop].
    assert (mask_ok box_widths b0 = true) as ->.
    { unfold mask_ok. by rewrite Hlen, Nat.eqb_refl. }
    rewrite Hfull. cbn [negb].
    assert (iadd (zeros (length b0)) b0 = Some (vec_add (zeros (length b0)) b0))
      as ->.
    { unfold iadd, zeros. by rewrite length_replicate, Nat.eqb_refl. }
    assert (mask_ok box_widths [] = true) as ->.
    { unfold mask_ok. cbn [length]. by rewrite Nat.eqb_refl, orb_true_r. }
    cbn [negb].
    assert (overfull box_widths [] = false) as ->.
    { unfold overfull. destruct box_widths; exact Hzero. }
    unfold iadd. cbn [length].
    rewrite length_vec_add by (unfold zeros; by rewrite length_replicate).
    unfold zeros. rewrite length_replicate, Hlen.
    destruct box_widths; [done|]. done.
Qed.

Lemma is_valid_packing_empty_vectors_witness :
  let sizes := [0.3; 0.6; 0.9]%float in
  (∀ k, is_valid_packing sizes (replicate (S k) []) = Return true)
  ∧ (∀ b0 rest,
       sizes ≠ [] →
       length b0 = length sizes →
       overfull sizes b0 = false →
       is_valid_packing sizes (b0 :: [] :: rest) = Raise ValueError).
Proof.
  apply (is_valid_packing_empty_vectors [0.3; 0.6; 0.9]%float);
    [reflexivity|].
  intros w Hw. repeat (apply elem_of_cons in Hw as [-> | Hw]; [done|]).
  by apply elem_of_nil in Hw.
Defined.

(** X24: the capacity test adds the sizes of a bin in the order of
    [np.sum], the packers subtract them from the available space one by
    one, and in binary64 the two orders round differently.  For the eight
    sizes below, whose sum from left to right is the number after 1,
    [np.sum] gives 1 and the validator accepts the bin that holds them
    all; for the nine sizes, whose sum from left to right is 1, [np.sum]
    gives the number after 1 and the validator returns [False]. *)
Theorem is_valid_packing_sums_pairwise :
  let eight := [0.08; 0.1; 0.07; 0.02; 0.16; 0.4; 0.07; 0.1]%float in
  let nine := [0.07; 0.06; 0.14; 0.05; 0.05; 0.05; 0.07; 0.4; 0.11]%float in
  fold_left num_add eight num_zero = 0x1.0000000000001p+0%float
  ∧ np_sum (select eight (ones 8)) = 1%float
  ∧ is_valid_packing eight [ones 8] = Return true
  ∧ fold_left num_add nine num_zero = 1%float
  ∧ np_sum (select nine (ones 9)) = 0x1.0000000000001p+0%float
  ∧ is_valid_packing nine [ones 9] = Return false.
Proof. repeat split; vm_compute; reflexivity. Qed.

(** X6: the validator applied to what a packer returns, whatever the sizes
    and the arithmetic: after the range check, the answer is whether every
    bin passes the capacity test.  The call never raises [IndexError], and
    the comparison with the all-ones vector never fails. *)
Theorem packers_judged_by_capacity {R} `{Num R} (box_widths : list R) :
  let verdict (bins : list vec) :=
    if np_any (λ w, num_gt w num_one) box_widths
       || np_any (λ w, num_lt w num_zero) box_widths
    then Raise ValueError
    else Return (within_capacity box_widths bins) in
  is_valid_packing box_widths (next_fit box_widths)
  = verdict (next_fit box_widths)
  ∧ is_valid_packing box_widths (first_fit box_widths)
    = verdict (first_fit box_widths)
  ∧ is_valid_packing box_widths (first_fit_decreasing box_widths)
    = verdict (first_fit_decreasing box_widths).
Proof.
  assert (∀ bins : list (list Z), 1 ≤ length bins → bins ≠ []) as Hne.
  { intros [|??] Hl; [simpl in Hl; lia | done]. }
  split; [|split]; apply is_valid_packing_placed_once.
  - apply Hne, next_fit_count.
  - apply next_fit_placed.
  - apply Hne, first_fit_count.
  - apply first_fit_placed.
  - apply Hne, first_fit_decreasing_with_count.
  - apply first_fit_decreasing_with_placed, ffd_indices_perm.
Qed.

(** X7: the number of bins, whatever the sizes and the arithmetic: every
    packer returns at least one bin and at most one more than there are
    items. *)
Theorem packers_bin_count_any {R} `{Num R} (box_widths : list R) :
  let n := length box_widths in
  1 ≤ length (next_fit box_widths) ≤ S n
  ∧ 1 ≤ length (first_fit box_widths) ≤ S n
  ∧ 1 ≤ length (first_fit_decreasing box_widths) ≤ S n.
Proof.
  intros n. subst n.
  split; [apply next_fit_count|]. split; [apply first_fit_count|].
  pose proof (first_fit_decreasing_with_count
                (ffd_indices box_widths) box_widths) as Hc.
  by rewrite (perm_length _ _ (ffd_indices_perm box_widths)) in Hc.
Qed.

(** X8: on a nonempty input whose sizes are all below 1, no packer
    returns more bins than there are items. *)
Theorem packers_bin_count {R} `{NumLaws R} (box_widths : list R) :
  box_widths ≠ [] →
  (∀ w, w ∈ box_widths → num_lt w num_one = true) →
  length (next_fit box_widths) ≤ length box_widths
  ∧ length (first_fit box_widths) ≤ length box_widths
  ∧ length (first_fit_decreasing box_widths) ≤ length box_widths.
Proof.
  intros Hne Hlt. split; [|split].
  - destruct box_widths as [|w rest]; [done|].
    apply next_fit_count_first. unfold num_gt. apply num_lt_asym, Hlt.
    by left.
  - destruct box_widths as [|w rest]; [done|].
    apply first_fit_count_first, Hlt. by left.
  - apply first_fit_decreasing_with_count_first; try done.
    apply ffd_indices_perm.
Qed.

Lemma packers_bin_count_witness :
  length (next_fit example_f) ≤ length example_f
  ∧ length (first_fit example_f) ≤ length example_f
  ∧ length (first_fit_decreasing example_f) ≤ length example_f.
Proof.
  apply (packers_bin_count example_f); [done|].
  intros w Hw. unfold example_f in Hw.
  repeat (apply elem_of_cons in Hw as [-> | Hw]; [done|]).
  by apply elem_of_nil in Hw.
Defined.

(** ** The contents of the bins *)

Section Order.
Context {R : Type} `{Num R}.

Lemma select_nil_r (ws : list R) : select ws [] = [].
Proof. by destruct ws. Qed.

(** A bin without items selects nothing. *)
Lemma select_no_item (ws : list R) (b : vec) :
  (∀ k, b !! k ≠ Some 1%Z) → select ws b = [].
Proof.
  revert b. induction ws as [|w ws IH]; intros b Hb; [done|].
  destruct b as [|e b]; [done|]. simpl.
  destruct (Z.eqb_spec e 1) as [->|_]; [by destruct (Hb 0)|].
  apply IH. intros k. apply (Hb (S k)).
Qed.




Lemma concat_heads (w : R) (bins : list vec) :
  concat ((λ b : list Z, if decide (b !! 0 = Some 1%Z) then [w] else [])
            <$> bins)
  = replicate (occurrences bins 0) w.
Proof.
  induction bins as [|b bins IH]; [done|].
  rewrite fmap_cons, occurrences_cons. simpl. rewrite IH.
  by case_decide.
Qed.

Lemma concat_select_cons (w : R) (ws : list R) (bins : list vec) :
  Forall (λ b, length b = S (length ws)) bins →
  concat (select (w :: ws) <$> bins)
  ≡ₚ replicate (occurrences bins 0) w ++ concat (select ws <$> (tail <$> bins)).
Proof.
  intros Hlen. rewrite <- concat_heads.
  induction bins as [|b bins IH]; [done|].
  apply Forall_cons in Hlen as [Hb Hlen]. specialize (IH Hlen).
  destruct b as [|e b]; [done|].
  rewrite !fmap_cons. cbn [concat tail select]. rewrite IH. simpl.
  destruct (Z.eqb_spec e 1) as [->|Hne].
  - rewrite decide_True by done. simpl. constructor.
    rewrite !(assoc (++)). apply Permutation_app_tail, Permutation_app_comm.
  - rewrite decide_False by congruence. simpl.
    rewrite !(assoc (++)). apply Permutation_app_tail, Permutation_app_comm.
Qed.

Lemma occurrences_tail (bins : list vec) k :
  occurrences (tail <$> bins) k = occurrences bins (S k).
Proof.
  induction bins as [|b bins IH]; [done|].
  rewrite fmap_cons, !occurrences_cons, IH, lookup_tail. done.
Qed.

(** The bins of a packing in which every item is in exactly one bin hold
    every size once. *)
Lemma concat_select_perm (ws : list R) (bins : list vec) :
  Forall (λ b, length b = length ws) bins →
  (∀ i, i < length ws → occurrences bins i = 1) →
  concat (select ws <$> bins) ≡ₚ ws.
Proof.
  revert bins. induction ws as [|w ws IH]; intros bins Hlen Hocc.
  - clear Hlen Hocc. induction bins as [|b bins IHb]; [done|].
    rewrite fmap_cons. simpl. exact IHb.
  - rewrite concat_select_cons by done.
    rewrite (Hocc 0) by (simpl; lia). simpl. constructor. apply IH.
    + apply Forall_fmap. eapply Forall_impl; [exact Hlen|].
      intros b Hb. simpl. destruct b; simpl in *; lia.
    + intros i Hi. rewrite occurrences_tail. apply Hocc. simpl. lia.
Qed.

Lemma placed_once_lengths n (bins : list vec) :
  placed_once n n bins →
  Forall (λ b, length b = n) bins ∧ ∀ i, i < n → occurrences bins i = 1.
Proof.
  intros (Hm & Hocc & _)%placed_once_all. split; [|done].
  eapply Forall_impl; [exact Hm|]. by intros b [? _].
Qed.

End Order.


(** X10: [print_bins] shows every size exactly once, in some order, for
    every packing of vectors over the [n] items in which every item is in
    exactly one bin; such are the packings that [first_fit] and
    [first_fit_decreasing] return. *)
Theorem bin_contents_partition {R} `{Num R} (box_widths : list R) :
  let n := length box_widths in
  (∀ bins, Forall (λ b, length b = n) bins →
     (∀ i, i < n → occurrences bins i = 1) →
     concat (bin_contents box_widths bins) ≡ₚ box_widths)
  ∧ concat (bin_contents box_widths (first_fit box_widths)) ≡ₚ box_widths
  ∧ concat (bin_contents box_widths (first_fit_decreasing box_widths))
    ≡ₚ box_widths.
Proof.
  intros n. subst n. unfold bin_contents. split; [|split].
  - intros bins Hlen Hocc. by apply concat_select_perm.
  - apply concat_select_perm; apply placed_once_lengths, first_fit_placed.
  - apply concat_select_perm; apply placed_once_lengths,
      first_fit_decreasing_with_placed, ffd_indices_perm.
Qed.

(** ** Bins are never taken back *)

Section Growth.
Context {R : Type} `{Num R}.

Lemma next_fit_body_prefix n i (w : R) st :
  nf_bins st `prefix_of` nf_bins (next_fit_body n i w st).
Proof.
  unfold next_fit_body. destruct (nf_opens w st); cbn [nf_bins].
  - by apply prefix_app_r.
  - done.
Qed.

Lemma next_fit_loop_prefix n (rest : list R) i st :
  nf_bins st `prefix_of` nf_bins (next_fit_loop n i rest st).
Proof.
  revert i st. induction rest as [|w rest IH]; intros i st; simpl; [done|].
  etrans; [apply (next_fit_body_prefix n i w)|apply IH].
Qed.

Lemma take_take_drop_le {A} (l : list A) k k' :
  k ≤ k' → take k' l = take k l ++ drop k (take k' l).
Proof.
  intros Hle. rewrite <- (take_drop k (take k' l)) at 1.
  by rewrite take_take, Nat.min_l.
Qed.

(** A later state of a run is reached from an earlier one by the loop. *)
Lemma nf_state_after_le (ws : list R) k k' :
  k ≤ k' →
  ∃ i rest, nf_state_after ws k'
            = next_fit_loop (length ws) i rest (nf_state_after ws k).
Proof.
  intros Hle. unfold nf_state_after.
  rewrite (take_take_drop_le ws k k' Hle), next_fit_loop_app. eauto.
Qed.

Lemma ff_state_after_le (ws : list R) k k' :
  k ≤ k' →
  ∃ i rest, ff_state_after ws k'
            = first_fit_loop (length ws) i rest (ff_state_after ws k).
Proof.
  intros Hle. unfold ff_state_after.
  rewrite (take_take_drop_le ws k k' Hle), first_fit_loop_app. eauto.
Qed.

Lemma nf_state_after_all (ws : list R) k :
  length ws ≤ k → nf_state_after ws k = nf_state_after ws (length ws).
Proof.
  intros Hle. unfold nf_state_after. by rewrite !take_ge by lia.
Qed.

Lemma ff_state_after_all (ws : list R) k :
  length ws ≤ k → ff_state_after ws k = ff_state_after ws (length ws).
Proof.
  intros Hle. unfold ff_state_after. by rewrite !take_ge by lia.
Qed.

Lemma member_alter (bins : list vec) j i j0 i0 :
  member bins j i = true →
  member (alter (λ b, <[i0 := 1%Z]> b) j0 bins) j i = true.
Proof.
  unfold member. destruct (bins !! j) as [b|] eqn:Hb; [|done].
  destruct (b !! i) as [e|] eqn:He; [|done]. intros He1.
  destruct (decide (j = j0)) as [->|Hj].
  - rewrite list_lookup_alter_eq, Hb. simpl.
    destruct (decide (i = i0)) as [->|Hi].
    + rewrite list_lookup_insert_eq; [done|]. by eapply lookup_lt_Some.
    + rewrite list_lookup_insert_ne by done. by rewrite He.
  - rewrite list_lookup_alter_ne by done. by rewrite Hb, He.
Qed.

Lemma member_app (bins l : list vec) j i :
  member bins j i = true → member (bins ++ l) j i = true.
Proof.
  unfold member. destruct (bins !! j) as [b|] eqn:Hb; [|done].
  by rewrite (lookup_app_l_Some _ _ _ _ Hb).
Qed.

Lemma first_fit_body_member n i (w : R) st j k :
  member (ff_bins st) j k = true →
  member (ff_bins (first_fit_body n i w st)) j k = true.
Proof.
  intros Hm.
  destruct (first_fit_body_cases n i w st) as [(j0 & _ & _ & ->)|[_ ->]];
    simpl.
  - by apply member_alter.
  - by apply member_app.
Qed.

Lemma first_fit_loop_member n (rest : list R) i st j k :
  member (ff_bins st) j k = true →
  member (ff_bins (first_fit_loop n i rest st)) j k = true.
Proof.
  revert i st. induction rest as [|w rest IH]; intros i st Hm; simpl; [done|].
  by apply IH, first_fit_body_member.
Qed.

End Growth.

(** X11: [next_fit] never returns to a bin it has closed: the bins closed
    when [k] items are placed are still the first closed bins, unchanged,
    at every later point of the run, and they are the first bins of the
    output. *)
Theorem next_fit_closed_bins_final {R} `{Num R}
    (box_widths : list R) (k k' : nat) :
  k ≤ k' →
  nf_bins (nf_state_after box_widths k)
    `prefix_of` nf_bins (nf_state_after box_widths k')
  ∧ nf_bins (nf_state_after box_widths k) `prefix_of` next_fit box_widths.
Proof.
  intros Hle. split.
  - destruct (nf_state_after_le box_widths k k' Hle) as (i & rest & ->).
    apply next_fit_loop_prefix.
  - rewrite next_fit_after. cbn zeta. apply prefix_app_r.
    destruct (decide (k ≤ length box_widths)) as [Hk|Hk].
    + destruct (nf_state_after_le box_widths k _ Hk) as (i & rest & ->).
      apply next_fit_loop_prefix.
    + by rewrite (nf_state_after_all box_widths k) by lia.
Qed.

Lemma next_fit_closed_bins_final_witness :
  nf_bins (nf_state_after example_f 3)
    `prefix_of` nf_bins (nf_state_after example_f 5)
  ∧ nf_bins (nf_state_after example_f 3) `prefix_of` next_fit example_f.
Proof. apply (next_fit_closed_bins_final example_f 3 5). lia. Defined.

(** X12: [first_fit] never closes, empties or merges a bin: from the
    point where [k] items are placed to any later point of the run and to
    the output, the number of bins does not go down, and an item that is a
    member of bin [j] stays a member of bin [j]. *)
Theorem first_fit_bins_only_grow {R} `{Num R}
    (box_widths : list R) (k k' : nat) :
  k ≤ k' →
  let bins := ff_bins (ff_state_after box_widths k) in
  let bins' := ff_bins (ff_state_after box_widths k') in
  length bins ≤ length bins'
  ∧ (∀ j i, member bins j i = true → member bins' j i = true)
  ∧ length bins ≤ length (first_fit box_widths)
  ∧ (∀ j i, member bins j i = true →
       member (first_fit box_widths) j i = true).
Proof.
  intros Hle bins bins'. subst bins bins'.
  assert (∀ k1 k2, k1 ≤ k2 →
            length (ff_bins (ff_state_after box_widths k1))
            ≤ length (ff_bins (ff_state_after box_widths k2))
            ∧ ∀ j i, member (ff_bins (ff_state_after box_widths k1)) j i = true
                     → member (ff_bins (ff_state_after box_widths k2)) j i
                       = true) as Hgrow.
  { intros k1 k2 H12.
    destruct (ff_state_after_le box_widths k1 k2 H12) as (i & rest & ->).
    split; [apply first_fit_loop_count|].
    intros j i'. apply first_fit_loop_member. }
  split; [by apply Hgrow|]. split; [by apply Hgrow|].
  rewrite first_fit_after.
  destruct (decide (k ≤ length box_widths)) as [Hk|Hk].
  - split; by apply Hgrow.
  - by rewrite (ff_state_after_all box_widths k) by lia.
Qed.

Lemma first_fit_bins_only_grow_witness :
  let bins := ff_bins (ff_state_after example_f 2) in
  let bins' := ff_bins (ff_state_after example_f 6) in
  length bins ≤ length bins'
  ∧ (∀ j i, member bins j i = true → member bins' j i = true)
  ∧ length bins ≤ length (first_fit example_f)
  ∧ (∀ j i, member bins j i = true → member (first_fit example_f) j i = true).
Proof. apply (first_fit_bins_only_grow example_f 2 6). lia. Defined.

(** ** The inverse permutation *)

Section Inverse.
Context (indices : list nat) (n : nat).
Hypothesis indices_perm : indices ≡ₚ seq 0 n.

(** [np.empty_like] leaves no trace: every entry is assigned. *)
Lemma scatter_any_target (target : list nat) :
  length target = n →
  scatter target indices (seq 0 (length indices)) = undo_sort indices.
Proof using indices_perm.
  intros Hlen. pose proof (perm_length _ _ indices_perm) as Hn.
  apply list_eq. intros i.
  destruct (decide (i < n)) as [Hi|Hi].
  - destruct (perm_position _ _ indices_perm i Hi) as (p & Hp & Hpi).
    rewrite (undo_sort_lookup _ _ indices_perm _ _ Hpi).
    apply (scatter_lookup _ _ _ p); try done.
    + by apply (perm_NoDup _ n).
    + apply Forall_forall. intros j Hj. rewrite Hlen.
      by apply (perm_lt indices n).
    + apply lookup_seq. lia.
  - rewrite !lookup_ge_None_2; [done| |].
    + rewrite (length_undo_sort _ _ indices_perm). lia.
    + rewrite length_scatter. lia.
Qed.

Lemma gather_lookup {A} (d : A) (a : list A) (idx : list nat) p i :
  idx !! p = Some i → gather d a idx !! p = Some (nth i a d).
Proof. intros Hp. unfold gather. by rewrite list_lookup_fmap, Hp. Qed.

(** [a[indices][undo_sort]] is [a]. *)
Lemma gather_gather_undo {A} (d : A) (a : list A) :
  length a = n →
  gather d (gather d a indices) (undo_sort indices) = a.
Proof using indices_perm.
  intros Hlen. apply list_eq. intros i.
  destruct (decide (i < n)) as [Hi|Hi].
  - destruct (perm_position _ _ indices_perm i Hi) as (p & Hp & Hpi).
    rewrite (gather_lookup _ _ _ i p)
      by (by apply (undo_sort_lookup _ n)).
    rewrite (nth_lookup (gather d a indices)), (gather_lookup _ _ _ p i Hpi).
    simpl. rewrite nth_lookup.
    assert (is_Some (a !! i)) as [x Hx] by (apply lookup_lt_is_Some; lia).
    by rewrite Hx.
  - rewrite !lookup_ge_None_2; [done|lia|].
    rewrite length_gather, (length_undo_sort _ _ indices_perm). lia.
Qed.

Lemma gather_undo_indices :
  gather 0 (undo_sort indices) indices = seq 0 n.
Proof using indices_perm.
  pose proof (perm_length _ _ indices_perm) as Hn.
  apply list_eq. intros p.
  destruct (decide (p < n)) as [Hp|Hp].
  - assert (is_Some (indices !! p)) as [i Hpi]
      by (apply lookup_lt_is_Some; lia).
    rewrite (gather_lookup _ _ _ p i Hpi), nth_lookup.
    rewrite (undo_sort_lookup _ _ indices_perm _ _ Hpi). simpl.
    by rewrite lookup_seq_lt.
  - rewrite !lookup_ge_None_2; [done| |].
    + rewrite length_seq. lia.
    + rewrite length_gather. lia.
Qed.

Lemma gather_indices_undo :
  gather 0 indices (undo_sort indices) = seq 0 n.
Proof using indices_perm.
  apply list_eq. intros i.
  destruct (decide (i < n)) as [Hi|Hi].
  - destruct (perm_position _ _ indices_perm i Hi) as (p & Hp & Hpi).
    rewrite (gather_lookup _ _ _ i p)
      by (by apply (undo_sort_lookup _ n)).
    rewrite nth_lookup, Hpi. simpl. by rewrite lookup_seq_lt.
  - rewrite !lookup_ge_None_2; [done| |].
    + rewrite length_seq. lia.
    + rewrite length_gather, (length_undo_sort _ _ indices_perm). lia.
Qed.

End Inverse.

(** X13: [undo_sort] is the inverse of the sort permutation.  For sort
    indices that are a permutation of the positions of an array [a]:
    [a[indices][undo_sort]] is [a] again, [undo_sort[indices]] and
    [indices[undo_sort]] are [arange(n)], and the array that
    [np.empty_like] happens to return does not matter, since the
    assignment [undo_sort[indices] = arange(n)] writes every entry. *)
Theorem undo_sort_inverts {A} (d : A) (a : list A) (indices : list nat) :
  indices ≡ₚ seq 0 (length a) →
  gather d (gather d a indices) (undo_sort indices) = a
  ∧ gather 0 (undo_sort indices) indices = seq 0 (length a)
  ∧ gather 0 indices (undo_sort indices) = seq 0 (length a)
  ∧ ∀ target, length target = length a →
      scatter target indices (seq 0 (length indices)) = undo_sort indices.
Proof.
  intros Hperm. split; [by apply (gather_gather_undo _ (length a))|].
  split; [by apply gather_undo_indices|].
  split; [by apply gather_indices_undo|].
  intros target Hlen. by apply (scatter_any_target _ (length a)).
Qed.

Lemma undo_sort_inverts_witness :
  let a := example_f in
  let indices := ffd_indices example_f in
  gather 0%float (gather 0%float a indices) (undo_sort indices) = a
  ∧ gather 0 (undo_sort indices) indices = seq 0 (length a)
  ∧ gather 0 indices (undo_sort indices) = seq 0 (length a)
  ∧ ∀ target, length target = length a →
      scatter target indices (seq 0 (length indices)) = undo_sort indices.
Proof.
  apply (undo_sort_inverts 0%float example_f (ffd_indices example_f)).
  apply (bool_decide_unpack _). by vm_compute.
Defined.

(** ** How full the bins are, in exact arithmetic *)

Lemma Qlen_nil {A} : (Qlen (@nil A) == 0)%Q.
Proof. reflexivity. Qed.

Lemma Qlen_cons {A} (a : A) (l : list A) : (Qlen (a :: l) == 1 + Qlen l)%Q.
Proof.
  unfold Qlen. cbn [length]. rewrite Nat2Z.inj_succ, <- Z.add_1_l.
  by rewrite inject_Z_plus.
Qed.

Lemma Qlen_le {A B} (l : list A) (k : list B) :
  (Qlen l <= Qlen k)%Q ↔ length l ≤ length k.
Proof. unfold Qlen. rewrite <- Zle_Qle. lia. Qed.

Lemma Qsum_concat (ls : list (list Q)) :
  (Qsum (concat ls) == Qsum (Qsum <$> ls))%Q.
Proof.
  induction ls as [|l ls IH]; simpl; [reflexivity|].
  by rewrite Qsum_app, IH.
Qed.

(** The total sizes of the bins of a packing add up to the total size of
    the items. *)
Lemma Qsum_weights (ws : list Q) (bins : list vec) :
  Forall (λ b, length b = length ws) bins →
  (∀ i, i < length ws → occurrences bins i = 1) →
  (Qsum (weight ws <$> bins) == Qsum ws)%Q.
Proof.
  intros Hlen Hocc.
  rewrite <- (Qsum_perm _ _ (concat_select_perm ws bins Hlen Hocc)).
  rewrite Qsum_concat, <- list_fmap_compose. reflexivity.
Qed.

Lemma Qsum_le_Qlen (qs : list Q) :
  Forall (λ q, q <= 1)%Q qs → (Qsum qs <= Qlen qs)%Q.
Proof.
  induction 1 as [|q qs Hq _ IH]; [by rewrite Qlen_nil|].
  rewrite Qlen_cons. simpl. lra.
Qed.

Lemma Qsum_ge_half (qs : list Q) :
  Forall (λ q, 1 <= 2 * q)%Q qs → (Qlen qs <= 2 * Qsum qs)%Q.
Proof.
  induction 1 as [|q qs Hq _ IH]; [rewrite Qlen_nil; simpl; lra|].
  rewrite Qlen_cons. simpl. lra.
Qed.

Lemma Qsum_nonneg (qs : list Q) :
  Forall (λ q, 0 <= q)%Q qs → (0 <= Qsum qs)%Q.
Proof. induction 1 as [|q qs Hq _ IH]; simpl; lra. Qed.

Lemma adjacent_exceed_tail a (qs : list Q) :
  adjacent_exceed (a :: qs) → adjacent_exceed qs.
Proof. intros Hadj j x y Hx Hy. by apply (Hadj (S j)). Qed.

(** Neighbours that exceed 1 together: the entries but one number fewer
    than twice their sum. *)
Lemma adjacent_exceed_bound (qs : list Q) :
  adjacent_exceed qs → Forall (λ q, 0 <= q)%Q qs → 2 ≤ length qs →
  (Qlen qs - 1 < 2 * Qsum qs)%Q.
Proof.
  assert (∀ n (l : list Q), length l ≤ n →
            adjacent_exceed l → Forall (λ q, 0 <= q)%Q l → 2 ≤ length l →
            (Qlen l - 1 < 2 * Qsum l)%Q) as Hgen.
  { induction n as [|n IH]; intros l Hn Hadj Hpos Hlen; [lia|].
    destruct l as [|a [|b rest]]; simpl in Hlen; [lia..|].
    pose proof (Hadj 0 a b eq_refl eq_refl) as Hab.
    apply Forall_cons in Hpos as [Ha Hpos].
    apply Forall_cons in Hpos as [Hb Hpos].
    pose proof (Qsum_nonneg rest Hpos) as Hrest.
    rewrite !Qlen_cons, !Qsum_cons.
    destruct rest as [|c [|d rest]].
    - rewrite Qlen_nil. simpl. lra.
    - rewrite Qlen_cons, Qlen_nil. simpl in *. lra.
    - assert (Qlen (c :: d :: rest) - 1 < 2 * Qsum (c :: d :: rest))%Q.
      { apply (IH (c :: d :: rest)).
        - simpl in *. lia.
        - by apply adjacent_exceed_tail, adjacent_exceed_tail in Hadj.
        - done.
        - simpl. lia. }
      lra. }
  intros Hadj Hpos Hlen. by apply (Hgen (length qs)).
Qed.

Lemma pairs_reach_tail a (qs : list Q) :
  pairs_reach (a :: qs) → pairs_reach qs.
Proof.
  intros Hp j j' x y Hlt Hx Hy. apply (Hp (S j) (S j')); [lia|done..].
Qed.

Lemma pairs_reach_head a (qs : list Q) q :
  pairs_reach (a :: qs) → q ∈ qs → (1 <= a + q)%Q.
Proof.
  intros Hp [j Hj]%list_elem_of_lookup_1.
  apply (Hp 0 (S j)); [lia|done..].
Qed.

(** Entries that reach 1 two by two: their number is at most twice their
    sum. *)
Lemma pairs_reach_bound (qs : list Q) :
  pairs_reach qs → Forall (λ q, 0 <= q)%Q qs → 2 ≤ length qs →
  (Qlen qs <= 2 * Qsum qs)%Q.
Proof.
  induction qs as [|a qs IH]; intros Hp Hpos Hlen; [simpl in Hlen; lia|].
  apply Forall_cons in Hpos as [Ha Hpos].
  destruct qs as [|r1 rest]; [simpl in Hlen; lia|].
  pose proof (pairs_reach_head a _ r1 Hp ltac:(by left)) as Har.
  rewrite Qlen_cons, Qsum_cons.
  destruct (Qlt_le_dec a (1 # 2)) as [Hsmall|Hbig].
  - assert (Qlen rest <= 2 * Qsum rest)%Q as Hrest.
    { apply Qsum_ge_half, Forall_forall. intros q Hq.
      pose proof (pairs_reach_head a _ q Hp ltac:(by right)). lra. }
    rewrite Qlen_cons, Qsum_cons. lra.
  - destruct rest as [|r2 rest].
    + rewrite Qlen_cons, Qlen_nil, Qsum_cons. simpl. lra.
    + assert (Qlen (r1 :: r2 :: rest) <= 2 * Qsum (r1 :: r2 :: rest))%Q.
      { apply IH; [by apply pairs_reach_tail in Hp|done|simpl; lia]. }
      lra.
Qed.

Lemma adjacent_exceed_snoc (qs : list Q) c d :
  adjacent_exceed (qs ++ [c]) → (1 < c + d)%Q →
  adjacent_exceed ((qs ++ [c]) ++ [d]).
Proof.
  intros Hadj Hcd j a b Ha Hb.
  destruct (decide (S j < length (qs ++ [c]))) as [Hj|Hj].
  - rewrite lookup_app_l in Ha by lia. rewrite lookup_app_l in Hb by done.
    by apply (Hadj j).
  - pose proof (lookup_lt_Some _ _ _ Hb) as Hlt.
    rewrite !length_app in Hlt. rewrite !length_app in Hj.
    simpl in Hlt, Hj.
    assert (j = length qs) as -> by lia.
    rewrite lookup_app_l in Ha by (rewrite length_app; simpl; lia).
    rewrite list_lookup_middle in Ha by done.
    rewrite lookup_app_r in Hb by (rewrite length_app; simpl; lia).
    rewrite length_app in Hb. simpl in Hb.
    replace (S (length qs) - (length qs + 1)) with 0 in Hb by lia.
    simpl in Hb. by simplify_eq.
Qed.

Lemma adjacent_exceed_last (qs : list Q) c c' :
  adjacent_exceed (qs ++ [c]) → (c <= c')%Q →
  adjacent_exceed (qs ++ [c']).
Proof.
  intros Hadj Hcc j a b Ha Hb.
  pose proof (lookup_lt_Some _ _ _ Hb) as Hlt.
  rewrite length_app in Hlt. simpl in Hlt.
  rewrite lookup_app_l in Ha by lia.
  destruct (decide (S j < length qs)) as [Hj|Hj].
  - rewrite lookup_app_l in Hb by done.
    apply (Hadj j); by rewrite lookup_app_l by lia.
  - assert (S j = length qs) as Hj' by lia.
    rewrite Hj', list_lookup_middle in Hb by done. simplify_eq.
    assert (1 < a + c)%Q; [|lra].
    apply (Hadj j).
    + by rewrite lookup_app_l by lia.
    + rewrite Hj'. by apply list_lookup_middle.
Qed.

Lemma weight_nonneg (ws : list Q) (b : vec) :
  (∀ w, w ∈ ws → (0 <= w)%Q) → (0 <= weight ws b)%Q.
Proof.
  unfold weight. revert b. induction ws as [|w0 ws IH]; intros b Hpos.
  - simpl. lra.
  - assert (0 <= w0)%Q as Hw0 by (apply Hpos; by left).
    assert (∀ w, w ∈ ws → (0 <= w)%Q) as Hpos'
      by (intros w Hw; apply Hpos; by right).
    destruct b as [|e b]; simpl; [lra|].
    specialize (IH b Hpos'). destruct (e =? 1)%Z; simpl; lra.
Qed.

(** A bin weighs at least as much as any of its items. *)
Lemma weight_ge_item (ws : list Q) (b : vec) k w :
  (∀ w, w ∈ ws → (0 <= w)%Q) →
  ws !! k = Some w → b !! k = Some 1%Z → (w <= weight ws b)%Q.
Proof.
  unfold weight. revert b k. induction ws as [|w0 ws IH]; intros b k Hpos Hw Hb;
    [done|].
  assert (0 <= w0)%Q as Hw0 by (apply Hpos; by left).
  assert (∀ w, w ∈ ws → (0 <= w)%Q) as Hpos'
    by (intros w' Hw'; apply Hpos; by right).
  destruct b as [|e b]; [done|].
  destruct k as [|k]; simpl in Hw, Hb.
  - simplify_eq. simpl.
    pose proof (weight_nonneg ws b Hpos') as Hrest. unfold weight in Hrest.
    lra.
  - specialize (IH b k Hpos' Hw Hb). simpl.
    destruct (e =? 1)%Z; simpl; lra.
Qed.

(** *** NEXT-FIT: neighbouring bins *)

Lemma next_fit_body_adjacent (ws : list Q) i w st :
  ws !! i = Some w → (0 < w ∧ w < 1)%Q →
  nf_exact ws i st →
  adjacent_exceed (weight ws <$> nf_bins st ++ [nf_current_bin st]) →
  adjacent_exceed
    (weight ws <$> nf_bins (next_fit_body (length ws) i w st)
       ++ [nf_current_bin (next_fit_body (length ws) i w st)]).
Proof.
  intros Hi [Hw0 Hw1] (Hbins & Hcur & Hspace & Hpos & Hocc) Hadj.
  pose proof (lookup_lt_Some _ _ _ Hi) as Hlt.
  unfold next_fit_body, nf_opens, num_gt.
  destruct (num_lt (nf_available_space st) w) eqn:Hcmp;
    cbn [nf_bins nf_current_bin].
  - apply Q_lt_true in Hcmp.
    rewrite fmap_app in Hadj. rewrite !fmap_app.
    apply adjacent_exceed_snoc; [exact Hadj|].
    rewrite (weight_insert ws _ i w Hi (lookup_zeros _ _ Hlt)).
    rewrite weight_zeros. lra.
  - apply Q_lt_false in Hcmp.
    assert (nf_current_bin st !! i = Some 0%Z) as Hzero.
    { apply (membership_vector_entry (length ws)); [done..|].
      apply (occurrences_zero (nf_bins st ++ [nf_current_bin st])).
      - rewrite (Hocc i Hlt). by rewrite decide_False by lia.
      - apply elem_of_app. right. by left. }
    rewrite fmap_app in Hadj. rewrite fmap_app.
    eapply adjacent_exceed_last; [exact Hadj|].
    rewrite (weight_insert ws _ i w Hi Hzero). lra.
Qed.

Lemma next_fit_loop_adjacent (ws rest : list Q) i st :
  drop i ws = rest →
  (∀ w, w ∈ ws → (0 < w ∧ w < 1)%Q) →
  nf_exact ws i st →
  adjacent_exceed (weight ws <$> nf_bins st ++ [nf_current_bin st]) →
  let st' := next_fit_loop (length ws) i rest st in
  adjacent_exceed (weight ws <$> nf_bins st' ++ [nf_current_bin st']).
Proof.
  revert i st.
  induction rest as [|w rest IH]; intros i st Hdrop Hrange Hinv Hadj; [done|].
  assert (ws !! i = Some w) as Hi.
  { rewrite <- (Nat.add_0_r i), <- lookup_drop, Hdrop. done. }
  assert (0 < w ∧ w < 1)%Q as Hw
    by (apply Hrange; by eapply list_elem_of_lookup_2).
  simpl. apply IH; [|done| |].
  - rewrite (drop_S _ _ _ Hi) in Hdrop. by injection Hdrop.
  - by apply next_fit_body_exact.
  - by apply next_fit_body_adjacent.
Qed.

Lemma nf_exact_init (ws : list Q) : nf_exact ws 0 (nf_init (length ws)).
Proof.
  unfold nf_exact, nf_init. cbn [nf_bins nf_current_bin nf_available_space].
  split; [done|]. split; [apply membership_vector_zeros|]. Qnum.
  split; [rewrite weight_zeros; ring|]. split; [lra|].
  intros k Hk. cbn [app]. rewrite occurrences_cons, lookup_zeros by done.
  unfold occurrences. simpl. repeat case_decide; lia || done.
Qed.

Lemma next_fit_adjacent (ws : list Q) :
  (∀ w, w ∈ ws → (0 < w ∧ w < 1)%Q) →
  adjacent_exceed (weight ws <$> next_fit ws).
Proof.
  intros Hrange. unfold next_fit.
  apply (next_fit_loop_adjacent ws ws 0); [done..|apply nf_exact_init|].
  intros j a b Ha Hb. simpl in Hb. by destruct j.
Qed.

(** *** FIRST-FIT: no item fits into an earlier bin *)

(** The body of the loop of [first_fit], with the bins passed over. *)
Lemma first_fit_body_first {R} `{Num R} n i (w : R) st :
  (∃ j, j < length (ff_bins st)
        ∧ num_lt w (space_at st j) = true
        ∧ (∀ k, k < j → num_lt w (space_at st k) = false)
        ∧ first_fit_body n i w st = ff_put i w j st)
  ∨ ((∀ j, j < length (ff_bins st) → num_lt w (space_at st j) = false)
     ∧ first_fit_body n i w st = ff_open n i w st).
Proof.
  unfold first_fit_body.
  destruct (first_fit_while_cases (length (ff_bins st)) i w 0 st)
    as [(j & Hj & Hfit & Hskip & ->)|[Hno ->]].
  - left. exists j. split; [lia|]. split; [done|]. split; [|done].
    intros k Hk. apply Hskip. lia.
  - right. split; [|done]. intros j Hj. apply Hno. lia.
Qed.

Lemma space_at_put_ne {R} `{Num R} i (w : R) j0 st j :
  j ≠ j0 → space_at (ff_put i w j0 st) j = space_at st j.
Proof.
  intros Hne. unfold space_at, ff_put. cbn [ff_available_space].
  by rewrite !nth_lookup, list_lookup_alter_ne.
Qed.

Lemma space_at_put_eq {R} `{Num R} i (w : R) j st :
  j < length (ff_available_space st) →
  space_at (ff_put i w j st) j = num_sub (space_at st j) w.
Proof.
  intros Hj. unfold space_at, ff_put. cbn [ff_available_space].
  rewrite !nth_lookup, list_lookup_alter_eq.
  apply lookup_lt_is_Some in Hj as [a ->]. done.
Qed.

Lemma space_at_open {R} `{Num R} n i (w : R) st j :
  j < length (ff_available_space st) →
  space_at (ff_open n i w st) j = space_at st j.
Proof.
  intros Hj. unfold space_at, ff_open. cbn [ff_available_space].
  by rewrite !nth_lookup, lookup_app_l.
Qed.

Lemma first_fit_body_tight (ws : list Q) i w st :
  ws !! i = Some w → (0 < w ∧ w < 1)%Q →
  ff_exact ws i st → ff_tight ws st →
  ff_tight ws (first_fit_body (length ws) i w st).
Proof.
  intros Hi [Hw0 Hw1] [Hbins Hocc] Htight.
  pose proof (lookup_lt_Some _ _ _ Hi) as Hlt.
  pose proof (Forall2_length _ _ _ Hbins) as Hlen.
  destruct (first_fit_body_first (length ws) i w st)
    as [(j0 & Hj0 & Hfit & Hskip & ->)|[Hno ->]].
  - (* an open bin *)
    intros j j' b' k w' Hjj Hb' Hk Hw'.
    assert (space_at (ff_put i w j0 st) j <= space_at st j)%Q as Hspace.
    { destruct (decide (j = j0)) as [->|Hne].
      - rewrite space_at_put_eq by lia. Qnum. lra.
      - rewrite space_at_put_ne by done. lra. }
    assert (space_at st j <= w')%Q; [|lra].
    unfold ff_put in Hb'. cbn [ff_bins] in Hb'.
    destruct (decide (j' = j0)) as [->|Hne'].
    + rewrite list_lookup_alter_eq in Hb'.
      destruct (ff_bins st !! j0) as [b0|] eqn:Hb0; [|done].
      simpl in Hb'. injection Hb' as <-.
      destruct (decide (k = i)) as [->|Hki].
      * assert (w' = w) as -> by congruence.
        apply Q_lt_false, Hskip. lia.
      * rewrite list_lookup_insert_ne in Hk by done.
        by apply (Htight j j0 b0 k).
    + rewrite list_lookup_alter_ne in Hb' by done.
      by apply (Htight j j' b' k).
  - (* a new bin *)
    intros j j' b' k w' Hjj Hb' Hk Hw'.
    unfold ff_open in Hb'. cbn [ff_bins] in Hb'.
    pose proof (lookup_lt_Some _ _ _ Hb') as Hj'.
    rewrite length_app in Hj'. simpl in Hj'.
    rewrite space_at_open by lia.
    destruct (decide (j' < length (ff_bins st))) as [Hold|Hnew].
    + rewrite lookup_app_l in Hb' by done. by apply (Htight j j' b' k).
    + assert (j' = length (ff_bins st)) as -> by lia.
      rewrite list_lookup_middle in Hb' by done. injection Hb' as <-.
      destruct (decide (k = i)) as [->|Hki].
      * assert (w' = w) as -> by congruence.
        apply Q_lt_false, Hno. lia.
      * rewrite list_lookup_insert_ne in Hk by done.
        unfold zeros in Hk. apply lookup_replicate in Hk as [? _]. done.
Qed.

Lemma first_fit_loop_tight (ws rest : list Q) i st :
  drop i ws = rest →
  (∀ w, w ∈ ws → (0 < w ∧ w < 1)%Q) →
  ff_exact ws i st → ff_tight ws st →
  ff_tight ws (first_fit_loop (length ws) i rest st).
Proof.
  revert i st.
  induction rest as [|w rest IH]; intros i st Hdrop Hrange Hinv Ht; [done|].
  assert (ws !! i = Some w) as Hi.
  { rewrite <- (Nat.add_0_r i), <- lookup_drop, Hdrop. done. }
  assert (0 < w ∧ w < 1)%Q as Hw
    by (apply Hrange; by eapply list_elem_of_lookup_2).
  simpl. apply IH; [|done| |].
  - rewrite (drop_S _ _ _ Hi) in Hdrop. by injection Hdrop.
  - by apply first_fit_body_exact.
  - by apply first_fit_body_tight.
Qed.

(** The available space stays positive: no bin of [first_fit] is ever
    full. *)
Lemma first_fit_body_roomy (ws : list Q) i w st :
  (0 < w ∧ w < 1)%Q →
  length (ff_available_space st) = length (ff_bins st) →
  Forall (λ a, 0 < a)%Q (ff_available_space st) →
  Forall (λ a, 0 < a)%Q
         (ff_available_space (first_fit_body (length ws) i w st)).
Proof.
  intros [Hw0 Hw1] Hlen Hroom.
  destruct (first_fit_body_cases (length ws) i w st)
    as [(j & Hj & Hfit & ->)|[_ ->]]; unfold ff_put, ff_open;
    cbn [ff_available_space].
  - rewrite <- Hlen in Hj. apply lookup_lt_is_Some in Hj as [a Ha].
    unfold space_at in Hfit. rewrite nth_lookup, Ha in Hfit. simpl in Hfit.
    apply Q_lt_true in Hfit.
    apply Forall_alter; [done|]. intros a' Ha' _.
    assert (a' = a) as -> by congruence. Qnum. lra.
  - apply Forall_app. split; [done|]. apply Forall_singleton. Qnum. lra.
Qed.

Lemma first_fit_loop_roomy (ws rest : list Q) i st :
  (∀ w, w ∈ rest → (0 < w ∧ w < 1)%Q) →
  length (ff_available_space st) = length (ff_bins st) →
  Forall (λ a, 0 < a)%Q (ff_available_space st) →
  Forall (λ a, 0 < a)%Q
         (ff_available_space (first_fit_loop (length ws) i rest st)).
Proof.
  revert i st.
  induction rest as [|w rest IH]; intros i st Hrange Hlen Hroom; [done|].
  simpl. apply IH.
  - intros w' Hw'. apply Hrange. by right.
  - by apply first_fit_body_lengths.
  - apply first_fit_body_roomy; [|done..]. apply Hrange. by left.
Qed.

Lemma ff_exact_init (ws : list Q) : ff_exact ws 0 (ff_init (length ws)).
Proof.
  unfold ff_exact, ff_init. cbn [ff_bins ff_available_space]. split.
  - constructor; [|constructor].
    split; [apply membership_vector_zeros|]. Qnum.
    rewrite weight_zeros. split; [ring | lra].
  - intros k Hk. rewrite occurrences_cons, lookup_zeros by done.
    unfold occurrences. simpl. repeat case_decide; lia || done.
Qed.

(** The final state of [first_fit] in exact arithmetic. *)
Lemma first_fit_final (ws : list Q) :
  (∀ w, w ∈ ws → (0 < w ∧ w < 1)%Q) →
  let st := first_fit_loop (length ws) 0 ws (ff_init (length ws)) in
  first_fit ws = ff_bins st
  ∧ ff_exact ws (length ws) st
  ∧ ff_tight ws st
  ∧ Forall (λ a, 0 < a)%Q (ff_available_space st).
Proof.
  intros Hrange st. subst st. split; [done|].
  split; [|split].
  - apply first_fit_loop_exact; [done..|apply ff_exact_init].
  - apply first_fit_loop_tight; [done..|apply ff_exact_init|].
    intros j j' b' k w Hjj Hb'. simpl in Hb'.
    destruct j' as [|j']; [lia|done].
  - apply first_fit_loop_roomy; [done..|].
    simpl. apply Forall_singleton. Qnum. lra.
Qed.

(** What [first_fit] returns in exact arithmetic: bins below capacity, into
    none of which an item of a later bin would fit. *)
Lemma first_fit_tight (ws : list Q) :
  (∀ w, w ∈ ws → (0 < w ∧ w < 1)%Q) →
  Forall (λ b, weight ws b < 1)%Q (first_fit ws)
  ∧ ∀ j j' b b' k w, j < j' →
      first_fit ws !! j = Some b → first_fit ws !! j' = Some b' →
      b' !! k = Some 1%Z → ws !! k = Some w →
      (1 <= weight ws b + w)%Q.
Proof.
  intros Hrange.
  destruct (first_fit_final ws Hrange) as (-> & [Hbins _] & Htight & Hroom).
  split.
  - apply Forall_forall. intros b [j Hb]%list_elem_of_lookup_1.
    destruct (Forall2_lookup_l _ _ _ _ _ Hbins Hb) as (a & Ha & _ & Hspace & _).
    eapply Forall_lookup_1 in Hroom; [|exact Ha]. simpl in Hroom. lra.
  - intros j j' b b' k w Hjj Hb Hb' Hk Hw.
    destruct (Forall2_lookup_l _ _ _ _ _ Hbins Hb) as (a & Ha & _ & Hspace & _).
    pose proof (Htight j j' b' k w Hjj Hb' Hk Hw) as Hle.
    unfold space_at in Hle. rewrite nth_lookup, Ha in Hle. simpl in Hle.
    lra.
Qed.

(** *** FIRST-FIT-DECREASING *)

Lemma first_fit_decreasing_with_tight (ws : list Q) (indices : list nat) :
  indices ≡ₚ seq 0 (length ws) →
  (∀ w, w ∈ ws → (0 < w ∧ w < 1)%Q) →
  let bins := first_fit_decreasing_with indices ws in
  Forall (λ b, weight ws b < 1)%Q bins
  ∧ ∀ j j' b b' k w, j < j' →
      bins !! j = Some b → bins !! j' = Some b' →
      b' !! k = Some 1%Z → ws !! k = Some w →
      (1 <= weight ws b + w)%Q.
Proof.
  intros Hperm Hrange bins. subst bins.
  pose proof (length_sorted ws _ Hperm) as Hlen.
  assert (∀ w, w ∈ gather 0%Q ws indices → (0 < w ∧ w < 1)%Q) as Hrange'.
  { intros w Hw. apply Hrange. by eapply sorted_elem. }
  destruct (first_fit_tight _ Hrange') as [Hroom Htight].
  destruct (first_fit_exact _ Hrange') as [Hbins _].
  rewrite Hlen in Hbins.
  unfold first_fit_decreasing_with. Qnum. split.
  - apply Forall_fmap, Forall_forall. intros b Hb. simpl.
    eapply Forall_forall in Hbins as [[Hb_len _] _]; [|exact Hb].
    eapply Forall_forall in Hroom; [|exact Hb]. simpl in Hroom.
    by rewrite weight_gather_undo.
  - intros j j' b b' k w Hjj Hb Hb' Hk Hw.
    apply list_lookup_fmap_Some in Hb as (c & -> & Hb).
    apply list_lookup_fmap_Some in Hb' as (c' & -> & Hb').
    assert (length c = length ws) as Hc.
    { eapply Forall_lookup_1 in Hbins as [[? _] _]; [|exact Hb]. done. }
    destruct (perm_position _ _ Hperm k (lookup_lt_Some _ _ _ Hw))
      as (p & Hp & Hpk).
    apply (gather_undo_is_one ws _ Hperm c' p k Hpk) in Hk.
    rewrite weight_gather_undo by done.
    apply (Htight j j' c c' p w Hjj Hb Hb' Hk).
    unfold gather. rewrite list_lookup_fmap, Hpk. simpl.
    by rewrite nth_lookup, Hw.
Qed.

(** *** The number of bins against the total size *)

Lemma Qlen_twice_le {A B} (l : list A) (k : list B) :
  (Qlen l <= 2 * Qlen k)%Q → length l ≤ 2 * length k.
Proof.
  unfold Qlen. change 2%Q with (inject_Z 2).
  rewrite <- inject_Z_mult, <- Zle_Qle. lia.
Qed.

Lemma Qlen_pred_lt_twice {A B} (l : list A) (k : list B) :
  (Qlen l - 1 < 2 * Qlen k)%Q → length l ≤ 2 * length k.
Proof.
  unfold Qlen. change 2%Q with (inject_Z 2). change 1%Q with (inject_Z 1).
  unfold Qminus. rewrite <- inject_Z_mult, <- inject_Z_opp, <- inject_Z_plus.
  rewrite <- Zlt_Qlt. lia.
Qed.

Lemma weights_nonneg (ws : list Q) (bins : list vec) :
  (∀ w, w ∈ ws → (0 < w ∧ w < 1)%Q) →
  Forall (λ q, 0 <= q)%Q (weight ws <$> bins).
Proof.
  intros Hrange. apply Forall_fmap, Forall_forall. intros b _. simpl.
  apply weight_nonneg. intros w [? _]%Hrange. lra.
Qed.

(** Bins that hold an item each, into none of which an item of a later bin
    would fit, reach 1 two by two. *)
Lemma tight_pairs_reach (ws : list Q) (bins : list vec) :
  (∀ w, w ∈ ws → (0 < w ∧ w < 1)%Q) →
  Forall (λ b, length b = length ws ∧ has_item b) bins →
  (∀ j j' b b' k w, j < j' →
     bins !! j = Some b → bins !! j' = Some b' →
     b' !! k = Some 1%Z → ws !! k = Some w →
     (1 <= weight ws b + w)%Q) →
  pairs_reach (weight ws <$> bins).
Proof.
  intros Hrange Hitems Htight j j' a a' Hjj Ha Ha'.
  apply list_lookup_fmap_Some in Ha as (b & -> & Hb).
  apply list_lookup_fmap_Some in Ha' as (b' & -> & Hb').
  eapply Forall_lookup_1 in Hitems as [Hlen [k Hk]]; [|exact Hb'].
  assert (is_Some (ws !! k)) as [w Hw].
  { apply lookup_lt_is_Some. rewrite <- Hlen. by eapply lookup_lt_Some. }
  pose proof (Htight j j' b b' k w Hjj Hb Hb' Hk Hw).
  assert (w <= weight ws b')%Q; [|lra].
  apply (weight_ge_item ws b' k w); try done.
  intros w' [? _]%Hrange. lra.
Qed.

Lemma first_fit_pairs_reach (ws : list Q) :
  (∀ w, w ∈ ws → (0 < w ∧ w < 1)%Q) →
  pairs_reach (weight ws <$> first_fit ws).
Proof.
  intros Hrange. destruct ws as [|w0 rest] eqn:E.
  - intros j j' a a' Hjj Ha Ha'. simpl in Ha'. destruct j'; [lia|done].
  - rewrite <- E in *. apply tight_pairs_reach; [done| |].
    + rewrite E. apply first_fit_has_items.
      apply Q_lt_true, Hrange. rewrite E. by left.
    + by apply first_fit_tight.
Qed.

Lemma first_fit_decreasing_with_pairs_reach (ws : list Q) indices :
  indices ≡ₚ seq 0 (length ws) →
  (∀ w, w ∈ ws → (0 < w ∧ w < 1)%Q) →
  pairs_reach (weight ws <$> first_fit_decreasing_with indices ws).
Proof.
  intros Hperm Hrange. destruct (decide (ws = [])) as [->|Hne].
  - simpl in Hperm. apply Permutation_nil_r in Hperm as ->.
    intros j j' a a' Hjj Ha Ha'.
    pose proof (lookup_lt_Some _ _ _ Ha') as Hlt.
    rewrite length_fmap, length_first_fit_decreasing_with in Hlt.
    simpl in Hlt. lia.
  - apply tight_pairs_reach; [done| |].
    + apply Forall_forall. intros b Hb. split.
      * destruct (first_fit_decreasing_with_placed ws indices Hperm)
          as [Hm _].
        eapply Forall_forall in Hm as [? _]; [|exact Hb]. done.
      * apply (first_fit_decreasing_with_has_items ws indices); try done.
        intros w Hw. apply Q_lt_true, Hrange, Hw.
    + by apply first_fit_decreasing_with_tight.
Qed.

(** A packing with more than one bin in which the bins reach 1 two by two
    has at most twice as many bins as the total size. *)
Lemma pairs_reach_count (ws : list Q) (bins : list vec) :
  (∀ w, w ∈ ws → (0 < w ∧ w < 1)%Q) →
  placed_once (length ws) (length ws) bins →
  pairs_reach (weight ws <$> bins) →
  2 ≤ length bins →
  (Qlen bins <= 2 * Qsum ws)%Q.
Proof.
  intros Hrange [Hlen Hocc]%placed_once_lengths Hpairs Htwo.
  rewrite <- (Qsum_weights ws bins Hlen Hocc).
  replace (Qlen bins) with (Qlen (weight ws <$> bins))
    by (unfold Qlen; by rewrite length_fmap).
  apply pairs_reach_bound; [done|by apply weights_nonneg|].
  by rewrite length_fmap.
Qed.

Lemma adjacent_exceed_count (ws : list Q) (bins : list vec) :
  (∀ w, w ∈ ws → (0 < w ∧ w < 1)%Q) →
  placed_once (length ws) (length ws) bins →
  adjacent_exceed (weight ws <$> bins) →
  2 ≤ length bins →
  (Qlen bins - 1 < 2 * Qsum ws)%Q.
Proof.
  intros Hrange [Hlen Hocc]%placed_once_lengths Hadj Htwo.
  rewrite <- (Qsum_weights ws bins Hlen Hocc).
  replace (Qlen bins) with (Qlen (weight ws <$> bins))
    by (unfold Qlen; by rewrite length_fmap).
  apply adjacent_exceed_bound; [done|by apply weights_nonneg|].
  by rewrite length_fmap.
Qed.

(** A packing of 0/1 vectors that the validator accepts has at least as
    many bins as the total size. *)
Lemma valid_packing_total (ws : list Q) (bins : list vec) :
  Forall (membership_vector (length ws)) bins →
  is_valid_packing ws bins = Return true →
  bins ≠ [] ∧ (Qsum ws <= Qlen bins)%Q.
Proof.
  intros Hm Hvalid.
  pose proof (membership_vector_lengths _ _ Hm) as Hlen.
  apply (is_valid_packing_accepted ws bins Hlen) in Hvalid
    as (Hin & Hne & Hcap & Hsum).
  split; [done|].
  rewrite <- (Qsum_weights ws bins Hlen) by (by apply col_sum_ones_iff).
  replace (Qlen bins) with (Qlen (weight ws <$> bins))
    by (unfold Qlen; by rewrite length_fmap).
  apply Qsum_le_Qlen, Forall_fmap.
  eapply Forall_impl; [exact Hcap|]. intros b Hb. simpl.
  unfold overfull, num_gt in Hb. apply Q_lt_false in Hb.
  rewrite np_sum_weight in Hb. exact Hb.
Qed.

Lemma one_le_twice_nonempty {A} (l : list vec) (bins : list A) :
  length l ≤ 1 → bins ≠ [] → length l ≤ 2 * length bins.
Proof. intros Hl Hne. destruct bins; [done|]. simpl. lia. Qed.

Lemma placed_once_one_bin (ws : list Q) (b : vec) :
  placed_once (length ws) (length ws) [b] → (Qsum ws == weight ws b)%Q.
Proof.
  intros [Hlen Hocc]%placed_once_lengths.
  rewrite <- (Qsum_weights ws [b] Hlen Hocc). simpl. ring.
Qed.

Lemma placed_once_two_bins (ws : list Q) (b0 b1 : vec) rest :
  (∀ w, w ∈ ws → (0 < w ∧ w < 1)%Q) →
  placed_once (length ws) (length ws) (b0 :: b1 :: rest) →
  (weight ws b0 + weight ws b1 <= Qsum ws)%Q.
Proof.
  intros Hrange [Hlen Hocc]%placed_once_lengths.
  rewrite <- (Qsum_weights ws _ Hlen Hocc).
  rewrite !fmap_cons, !Qsum_cons.
  pose proof (Qsum_nonneg _ (weights_nonneg ws rest Hrange)). lra.
Qed.

(** X15: in exact arithmetic, any two neighbouring bins that [next_fit]
    returns hold more than 1 together: the first item of a bin did not fit
    into the bin before it. *)
Theorem next_fit_neighbours_exceed (box_widths : list Q) :
  (∀ w, w ∈ box_widths → (0 < w ∧ w < 1)%Q) →
  ∀ j b b',
    next_fit box_widths !! j = Some b →
    next_fit box_widths !! S j = Some b' →
    (1 < weight box_widths b + weight box_widths b')%Q.
Proof.
  intros Hrange j b b' Hb Hb'.
  apply (next_fit_adjacent box_widths Hrange j).
  - by rewrite list_lookup_fmap, Hb.
  - by rewrite list_lookup_fmap, Hb'.
Qed.

Lemma next_fit_neighbours_exceed_witness :
  (1 < weight example_Q [1; 1; 0; 0; 0; 0]%Z
       + weight example_Q [0; 0; 1; 0; 0; 0]%Z)%Q.
Proof.
  apply (next_fit_neighbours_exceed example_Q) with (j := 0);
    [|reflexivity..].
  intros w Hw. unfold example_Q in Hw.
  repeat (apply elem_of_cons in Hw as [-> | Hw]; [split; reflexivity|]).
  by apply elem_of_nil in Hw.
Defined.

(** X16: in exact arithmetic, every bin that [first_fit] and
    [first_fit_decreasing] return stays strictly below the capacity, and
    no item would pass the fit test of a bin before its own: for an item of
    size [w] in a later bin, the earlier bin and [w] together reach 1. *)
Theorem first_fit_no_earlier_fit (box_widths : list Q) :
  (∀ w, w ∈ box_widths → (0 < w ∧ w < 1)%Q) →
  (Forall (λ b, weight box_widths b < 1)%Q (first_fit box_widths)
   ∧ ∀ j j' b b' k w, j < j' →
       first_fit box_widths !! j = Some b →
       first_fit box_widths !! j' = Some b' →
       b' !! k = Some 1%Z → box_widths !! k = Some w →
       (1 <= weight box_widths b + w)%Q)
  ∧ (Forall (λ b, weight box_widths b < 1)%Q
            (first_fit_decreasing box_widths)
     ∧ ∀ j j' b b' k w, j < j' →
         first_fit_decreasing box_widths !! j = Some b →
         first_fit_decreasing box_widths !! j' = Some b' →
         b' !! k = Some 1%Z → box_widths !! k = Some w →
         (1 <= weight box_widths b + w)%Q).
Proof.
  intros Hrange. split; [by apply first_fit_tight|].
  apply first_fit_decreasing_with_tight; [apply ffd_indices_perm | done].
Qed.

Lemma first_fit_no_earlier_fit_witness :
  (Forall (λ b, weight example_Q b < 1)%Q (first_fit example_Q)
   ∧ ∀ j j' b b' k w, j < j' →
       first_fit example_Q !! j = Some b →
       first_fit example_Q !! j' = Some b' →
       b' !! k = Some 1%Z → example_Q !! k = Some w →
       (1 <= weight example_Q b + w)%Q)
  ∧ (Forall (λ b, weight example_Q b < 1)%Q (first_fit_decreasing example_Q)
     ∧ ∀ j j' b b' k w, j < j' →
         first_fit_decreasing example_Q !! j = Some b →
         first_fit_decreasing example_Q !! j' = Some b' →
         b' !! k = Some 1%Z → example_Q !! k = Some w →
         (1 <= weight example_Q b + w)%Q).
Proof.
  apply (first_fit_no_earlier_fit example_Q).
  intros w Hw. unfold example_Q in Hw.
  repeat (apply elem_of_cons in Hw as [-> | Hw]; [split; reflexivity|]).
  by apply elem_of_nil in Hw.
Defined.

(** X17: in exact arithmetic, each packer uses at most twice as many bins
    as any packing of 0/1 vectors that the validator accepts for the same
    sizes. *)
Theorem packers_within_twice (box_widths : list Q) (bins : list vec) :
  (∀ w, w ∈ box_widths → (0 < w ∧ w < 1)%Q) →
  Forall (membership_vector (length box_widths)) bins →
  is_valid_packing box_widths bins = Return true →
  length (next_fit box_widths) ≤ 2 * length bins
  ∧ length (first_fit box_widths) ≤ 2 * length bins
  ∧ length (first_fit_decreasing box_widths) ≤ 2 * length bins.
Proof.
  intros Hrange Hm Hvalid.
  destruct (valid_packing_total box_widths bins Hm Hvalid) as [Hne Htotal].
  split; [|split].
  - destruct (decide (2 ≤ length (next_fit box_widths))) as [Htwo|Hone];
      [|apply one_le_twice_nonempty; [lia|done]].
    apply Qlen_pred_lt_twice.
    pose proof (adjacent_exceed_count box_widths _ Hrange
                  (next_fit_placed box_widths)
                  (next_fit_adjacent box_widths Hrange) Htwo).
    lra.
  - destruct (decide (2 ≤ length (first_fit box_widths))) as [Htwo|Hone];
      [|apply one_le_twice_nonempty; [lia|done]].
    apply Qlen_twice_le.
    pose proof (pairs_reach_count box_widths _ Hrange
                  (first_fit_placed box_widths)
                  (first_fit_pairs_reach box_widths Hrange) Htwo).
    lra.
  - destruct (decide (2 ≤ length (first_fit_decreasing box_widths)))
      as [Htwo|Hone]; [|apply one_le_twice_nonempty; [lia|done]].
    apply Qlen_twice_le.
    pose proof (ffd_indices_perm box_widths) as Hperm.
    pose proof (pairs_reach_count box_widths _ Hrange
                  (first_fit_decreasing_with_placed box_widths _ Hperm)
                  (first_fit_decreasing_with_pairs_reach box_widths _
                     Hperm Hrange) Htwo) as Hcount.
    fold (first_fit_decreasing box_widths) in Hcount. lra.
Qed.

Lemma packers_within_twice_witness :
  let bins := [[1; 0; 0; 0; 1; 0]; [0; 0; 1; 0; 0; 1]; [0; 1; 0; 1; 0; 0]]%Z in
  length (next_fit example_Q) ≤ 2 * length bins
  ∧ length (first_fit example_Q) ≤ 2 * length bins
  ∧ length (first_fit_decreasing example_Q) ≤ 2 * length bins.
Proof.
  apply (packers_within_twice example_Q).
  - intros w Hw. unfold example_Q in Hw.
    repeat (apply elem_of_cons in Hw as [-> | Hw]; [split; reflexivity|]).
    by apply elem_of_nil in Hw.
  - unfold membership_vector. apply (bool_decide_unpack _). by vm_compute.
  - reflexivity.
Defined.

(** X18: in exact arithmetic, when one bin is enough.  [next_fit] returns
    a single bin exactly when the sizes add up to at most 1; [first_fit]
    and [first_fit_decreasing], whose fit test is strict, exactly when
    they add up to less than 1. *)
Theorem one_bin_iff_total_fits (box_widths : list Q) :
  (∀ w, w ∈ box_widths → (0 < w ∧ w < 1)%Q) →
  (length (next_fit box_widths) = 1 ↔ (Qsum box_widths <= 1)%Q)
  ∧ (length (first_fit box_widths) = 1 ↔ (Qsum box_widths < 1)%Q)
  ∧ (length (first_fit_decreasing box_widths) = 1
     ↔ (Qsum box_widths < 1)%Q).
Proof.
  intros Hrange. split; [|split].
  - pose proof (next_fit_placed box_widths) as Hplaced.
    pose proof (next_fit_adjacent box_widths Hrange) as Hadj.
    destruct (next_fit_exact box_widths Hrange) as [Hcap _].
    pose proof (next_fit_count box_widths) as [Hpos _].
    destruct (next_fit box_widths) as [|b0 [|b1 rest]].
    + simpl in Hpos. lia.
    + apply Forall_singleton in Hcap as [_ Hcap].
      rewrite (placed_once_one_bin box_widths b0 Hplaced). done.
    + pose proof (placed_once_two_bins _ _ _ _ Hrange Hplaced).
      pose proof (Hadj 0 _ _ eq_refl eq_refl).
      split; [done|]. intros Hle. lra.
  - pose proof (first_fit_placed box_widths) as Hplaced.
    pose proof (first_fit_pairs_reach box_widths Hrange) as Hpairs.
    destruct (first_fit_tight box_widths Hrange) as [Hroom _].
    pose proof (first_fit_count box_widths) as [Hpos _].
    destruct (first_fit box_widths) as [|b0 [|b1 rest]].
    + simpl in Hpos. lia.
    + apply Forall_cons in Hroom as [Hroom _].
      rewrite (placed_once_one_bin box_widths b0 Hplaced). done.
    + pose proof (placed_once_two_bins _ _ _ _ Hrange Hplaced).
      pose proof (Hpairs 0 1 _ _ ltac:(lia) eq_refl eq_refl).
      split; [done|]. intros Hlt. lra.
  - pose proof (ffd_indices_perm box_widths) as Hperm.
    pose proof (first_fit_decreasing_with_placed box_widths _ Hperm)
      as Hplaced.
    pose proof (first_fit_decreasing_with_pairs_reach box_widths _
                  Hperm Hrange) as Hpairs.
    destruct (first_fit_decreasing_with_tight box_widths _ Hperm Hrange)
      as [Hroom _].
    pose proof (first_fit_decreasing_with_count
                  (ffd_indices box_widths) box_widths) as [Hpos _].
    unfold first_fit_decreasing.
    destruct (first_fit_decreasing_with (ffd_indices box_widths) box_widths)
      as [|b0 [|b1 rest]].
    + simpl in Hpos. lia.
    + apply Forall_cons in Hroom as [Hroom _].
      rewrite (placed_once_one_bin box_widths b0 Hplaced). done.
    + pose proof (placed_once_two_bins _ _ _ _ Hrange Hplaced).
      pose proof (Hpairs 0 1 _ _ ltac:(lia) eq_refl eq_refl).
      split; [done|]. intros Hlt. lra.
Qed.

Lemma one_bin_iff_total_fits_witness :
  let ws := [1 # 2; 1 # 2]%Q in
  (length (next_fit ws) = 1 ↔ (Qsum ws <= 1)%Q)
  ∧ (length (first_fit ws) = 1 ↔ (Qsum ws < 1)%Q)
  ∧ (length (first_fit_decreasing ws) = 1 ↔ (Qsum ws < 1)%Q).
Proof.
  apply (one_bin_iff_total_fits [1 # 2; 1 # 2]%Q).
  intros w Hw.
  repeat (apply elem_of_cons in Hw as [-> | Hw]; [split; reflexivity|]).
  by apply elem_of_nil in Hw.
Defined.

(** ** Sizes that come sorted *)

Section Presorted.
Context {R : Type} `{Num R}.

Lemma argsort_insert_last (keys : list R) i sorted :
  (∀ j, j ∈ sorted →
     num_lt (nth i keys num_zero) (nth j keys num_zero) = false) →
  argsort_insert keys i sorted = sorted ++ [i].
Proof.
  induction sorted as [|j sorted IH]; intros Hno; [done|].
  simpl. rewrite (Hno j) by (by left).
  rewrite IH; [done|]. intros j' Hj'. apply Hno. by right.
Qed.

Lemma argsort_fold_increasing (keys : list R) m k :
  (∀ i j, j < i < k + m →
     num_lt (nth i keys num_zero) (nth j keys num_zero) = false) →
  fold_left (λ sorted i, argsort_insert keys i sorted) (seq k m) (seq 0 k)
  = seq 0 (k + m).
Proof.
  revert k. induction m as [|m IH]; intros k Hinc.
  - by rewrite Nat.add_0_r.
  - cbn [seq fold_left]. rewrite argsort_insert_last.
    + replace (seq 0 k ++ [k]) with (seq 0 (S k)) by (by rewrite seq_S).
      rewrite IH; [f_equal; lia|].
      intros i j Hij. apply Hinc. lia.
    + intros j Hj%elem_of_seq. apply Hinc. lia.
Qed.

(** [argsort] of keys in increasing order is the identity permutation. *)
Lemma argsort_increasing (keys : list R) :
  (∀ i j, j < i < length keys →
     num_lt (nth i keys num_zero) (nth j keys num_zero) = false) →
  argsort keys = seq 0 (length keys).
Proof. intros Hinc. unfold argsort. by apply argsort_fold_increasing. Qed.

Lemma gather_seq {A} (d : A) (a : list A) :
  gather d a (seq 0 (length a)) = a.
Proof.
  apply list_eq. intros p. destruct (decide (p < length a)) as [Hp|Hp].
  - rewrite (gather_lookup d a _ p p) by (by apply lookup_seq_lt).
    rewrite nth_lookup.
    assert (is_Some (a !! p)) as [x ->] by (by apply lookup_lt_is_Some).
    done.
  - rewrite !lookup_ge_None_2; [done|lia|].
    rewrite length_gather, length_seq. lia.
Qed.

Lemma undo_sort_seq n : undo_sort (seq 0 n) = seq 0 n.
Proof.
  assert (seq 0 n ≡ₚ seq 0 n) as Hperm by done.
  apply list_eq. intros i. destruct (decide (i < n)) as [Hi|Hi].
  - rewrite lookup_seq_lt by done.
    apply (undo_sort_lookup _ n Hperm). by apply lookup_seq_lt.
  - rewrite !lookup_ge_None_2; [done| |].
    + rewrite length_seq. lia.
    + rewrite (length_undo_sort _ n Hperm). lia.
Qed.

(** With the identity as sort permutation, FIRST-FIT-DECREASING is
    FIRST-FIT. *)
Lemma first_fit_decreasing_with_seq (ws : list R) :
  first_fit_decreasing_with (seq 0 (length ws)) ws = first_fit ws.
Proof.
  unfold first_fit_decreasing_with. cbn zeta.
  rewrite gather_seq, undo_sort_seq.
  rewrite <- (list_fmap_id (first_fit ws)) at 2.
  apply Forall_fmap_ext_1.
  eapply Forall_impl; [apply first_fit_lengths|].
  intros b Hb. simpl. rewrite <- Hb. apply gather_seq.
Qed.

End Presorted.

(** X19: on sizes that come in strictly decreasing order, as the sort
    compares them, [first_fit_decreasing] returns what [first_fit]
    returns: the sort permutation is the identity, and so is its
    inverse. *)
Theorem first_fit_decreasing_presorted {R} `{NumLaws R}
    (box_widths : list R) :
  (∀ j i wj wi, j < i →
     box_widths !! j = Some wj → box_widths !! i = Some wi →
     num_lt (num_neg wj) (num_neg wi) = true) →
  ffd_indices box_widths = seq 0 (length box_widths)
  ∧ undo_sort (ffd_indices box_widths) = seq 0 (length box_widths)
  ∧ first_fit_decreasing box_widths = first_fit box_widths.
Proof.
  intros Hdec.
  assert (ffd_indices box_widths = seq 0 (length box_widths)) as Hid.
  { unfold ffd_indices.
    rewrite <- (length_fmap num_neg box_widths).
    apply argsort_increasing. rewrite length_fmap. intros i j [Hji Hi].
    assert (is_Some (box_widths !! i)) as [wi Hwi]
      by (by apply lookup_lt_is_Some).
    assert (is_Some (box_widths !! j)) as [wj Hwj]
      by (apply lookup_lt_is_Some; lia).
    rewrite !nth_lookup, !list_lookup_fmap, Hwi, Hwj. simpl.
    apply num_lt_asym. by apply (Hdec j i). }
  split; [done|]. split; [by rewrite Hid, undo_sort_seq|].
  unfold first_fit_decreasing. rewrite Hid.
  apply first_fit_decreasing_with_seq.
Qed.

Lemma first_fit_decreasing_presorted_witness :
  let ws := [0.75; 0.5; 0.25]%float in
  ffd_indices ws = seq 0 (length ws)
  ∧ undo_sort (ffd_indices ws) = seq 0 (length ws)
  ∧ first_fit_decreasing ws = first_fit ws.
Proof.
  apply (first_fit_decreasing_presorted [0.75; 0.5; 0.25]%float).
  intros j i wj wi Hji Hj Hi.
  destruct j as [|[|[|j]]], i as [|[|[|i]]]; simpl in Hj, Hi;
    try lia; try done; simplify_eq; reflexivity.
Defined.

(** ** The order of the bins *)

Lemma vec_add_swap (x a b : list Z) :
  vec_add (vec_add x a) b = vec_add (vec_add x b) a.
Proof.
  apply list_eq. intros i. rewrite !lookup_vec_add.
  destruct (x !! i), (a !! i), (b !! i); simpl; try done.
  f_equal. lia.
Qed.

Lemma fold_vec_add_perm (bins bins' : list vec) (x : vec) :
  bins ≡ₚ bins' → fold_left vec_add bins x = fold_left vec_add bins' x.
Proof.
  intros Hperm. revert x.
  induction Hperm as [|b l l' _ IH|a b l|l l' l'' _ IH1 _ IH2]; intros x;
    simpl.
  - done.
  - apply IH.
  - by rewrite vec_add_swap.
  - by rewrite IH1.
Qed.

Section Reordering.
Context {R : Type} `{Num R}.

Lemma within_capacity_perm (ws : list R) (bins bins' : list vec) :
  bins ≡ₚ bins' → within_capacity ws bins = within_capacity ws bins'.
Proof.
  intros Hperm. apply eq_true_iff_eq.
  rewrite !within_capacity_Forall. by rewrite Hperm.
Qed.

Lemma col_sum_perm n (bins bins' : list vec) :
  bins ≡ₚ bins' → col_sum n bins = col_sum n bins'.
Proof. apply fold_vec_add_perm. Qed.

End Reordering.

(** X20: the order of the bins and the verdict.  On a packing of 0/1
    vectors of the length of the size array, the validator returns the same
    for every reordering of the bins. *)
Theorem is_valid_packing_reordered {R} `{Num R}
    (box_widths : list R) (bins bins' : list vec) :
  bins ≡ₚ bins' →
  Forall (membership_vector (length box_widths)) bins →
  is_valid_packing box_widths bins = is_valid_packing box_widths bins'.
Proof.
  intros Hperm Hm.
  pose proof (membership_vector_lengths _ _ Hm) as Hlen.
  destruct (np_any (λ w, num_gt w num_one) box_widths
            || np_any (λ w, num_lt w num_zero) box_widths) eqn:Hrange.
  - unfold is_valid_packing. by rewrite Hrange.
  - pose proof (proj1 (in_range_iff box_widths) Hrange) as Hin.
    destruct (decide (bins = [])) as [->|Hne].
    + by apply Permutation_nil_l in Hperm as ->.
    + assert (bins' ≠ []) as Hne'.
      { intros ->. by apply Permutation_nil_r in Hperm. }
      assert (Forall (λ b : list Z, length b = length box_widths) bins')
        as Hlen' by (by rewrite <- Hperm).
      rewrite (is_valid_packing_shaped box_widths bins Hin Hne Hlen).
      rewrite (is_valid_packing_shaped box_widths bins' Hin Hne' Hlen').
      by rewrite (within_capacity_perm _ _ _ Hperm),
        (col_sum_perm _ _ _ Hperm).
Qed.

Lemma is_valid_packing_reordered_witness :
  let sizes := [0.3; 0.6; 0.9]%float in
  is_valid_packing sizes [[1; 1; 0]; [0; 0; 1]]%Z
  = is_valid_packing sizes [[0; 0; 1]; [1; 1; 0]]%Z.
Proof.
  apply (is_valid_packing_reordered [0.3; 0.6; 0.9]%float).
  - apply perm_swap.
  - unfold membership_vector. apply (bool_decide_unpack _). by vm_compute.
Defined.

(** ** The bookkeeping of the available space *)

Lemma nf_state_after_exact (ws : list Q) k :
  (∀ w, w ∈ ws → (0 < w ∧ w < 1)%Q) →
  k ≤ length ws → nf_exact ws k (nf_state_after ws k).
Proof.
  intros Hrange. induction k as [|k IH]; intros Hk.
  - apply nf_exact_init.
  - assert (is_Some (ws !! k)) as [w Hw] by (apply lookup_lt_is_Some; lia).
    rewrite (nf_state_after_S ws k w Hw).
    apply next_fit_body_exact; [done| |apply IH; lia].
    apply Hrange. by eapply list_elem_of_lookup_2.
Qed.

Lemma ff_state_after_exact (ws : list Q) k :
  (∀ w, w ∈ ws → (0 < w ∧ w < 1)%Q) →
  k ≤ length ws → ff_exact ws k (ff_state_after ws k).
Proof.
  intros Hrange. induction k as [|k IH]; intros Hk.
  - apply ff_exact_init.
  - assert (is_Some (ws !! k)) as [w Hw] by (apply lookup_lt_is_Some; lia).
    rewrite (ff_state_after_S ws k w Hw).
    apply first_fit_body_exact; [done| |apply IH; lia].
    apply Hrange. by eapply list_elem_of_lookup_2.
Qed.

(** X21: in exact arithmetic, for sizes strictly between 0 and 1, the
    available space on record is what the bin leaves of the capacity, at
    every point of a run: in [next_fit] for the open bin, in [first_fit]
    for every bin; and it is never negative, so no bin is over capacity at
    any point. *)
Theorem available_space_exact (box_widths : list Q) (k : nat) :
  (∀ w, w ∈ box_widths → (0 < w ∧ w < 1)%Q) →
  k ≤ length box_widths →
  (let st := nf_state_after box_widths k in
   (nf_available_space st == 1 - weight box_widths (nf_current_bin st))%Q
   ∧ (0 <= nf_available_space st)%Q
   ∧ Forall (λ b, weight box_widths b <= 1)%Q (nf_bins st))
  ∧ (let st := ff_state_after box_widths k in
     Forall2 (λ b a, (a == 1 - weight box_widths b)%Q ∧ (0 <= a)%Q)
             (ff_bins st) (ff_available_space st)).
Proof.
  intros Hrange Hk. split.
  - destruct (nf_state_after_exact box_widths k Hrange Hk)
      as (Hbins & _ & Hspace & Hpos & _).
    cbn zeta. split; [done|]. split; [done|].
    eapply Forall_impl; [exact Hbins|]. by intros b [_ ?].
  - destruct (ff_state_after_exact box_widths k Hrange Hk) as [Hbins _].
    cbn zeta. eapply Forall2_impl; [exact Hbins|].
    by intros b a (_ & ? & ?).
Qed.

Lemma available_space_exact_witness :
  (let st := nf_state_after example_Q 4 in
   (nf_available_space st == 1 - weight example_Q (nf_current_bin st))%Q
   ∧ (0 <= nf_available_space st)%Q
   ∧ Forall (λ b, weight example_Q b <= 1)%Q (nf_bins st))
  ∧ (let st := ff_state_after example_Q 4 in
     Forall2 (λ b a, (a == 1 - weight example_Q b)%Q ∧ (0 <= a)%Q)
             (ff_bins st) (ff_available_space st)).
Proof.
  apply (available_space_exact example_Q 4); [|simpl; lia].
  intros w Hw. unfold example_Q in Hw.
  repeat (apply elem_of_cons in Hw as [-> | Hw]; [split; reflexivity|]).
  by apply elem_of_nil in Hw.
Defined.

(** ** Bins that are not membership vectors *)

Lemma vec_add_replicate n (a b : Z) :
  vec_add (replicate n a) (replicate n b) = replicate n (a + b)%Z.
Proof.
  unfold vec_add. induction n as [|n IH]; simpl; [done|]. by rewrite IH.
Qed.

(** X22: the validator does not check that the entries of a bin are 0 or
    1.  For any sizes within 0 and 1, the two bins whose entries are all 2
    and all -1 are accepted, although no item is a member of either bin:
    the capacity test selects the entries equal to 1, and the entries add
    up to 1 everywhere. *)
Theorem is_valid_packing_accepts_no_members {R} `{Num R}
    (box_widths : list R) :
  num_gt num_zero num_one = false →
  (∀ w, w ∈ box_widths →
     num_gt w num_one = false ∧ num_lt w num_zero = false) →
  let n := length box_widths in
  let bins := [replicate n 2%Z; replicate n (-1)%Z] in
  is_valid_packing box_widths bins = Return true
  ∧ bin_contents box_widths bins = [[]; []]
  ∧ ∀ i, occurrences bins i = 0.
Proof.
  intros Hzero Hin n bins. subst n bins.
  assert (∀ e : Z, e ≠ 1%Z →
            select box_widths (replicate (length box_widths) e) = [])
    as Hsel.
  { intros e He. apply select_no_item. intros k.
    rewrite lookup_replicate. intros [? _]. congruence. }
  split; [|split].
  - rewrite is_valid_packing_within_capacity; try done.
    + rewrite bool_decide_eq_true_2; [done|].
      unfold col_sum, zeros, ones. simpl.
      by rewrite !vec_add_replicate.
    + repeat constructor; by rewrite length_replicate.
    + repeat constructor; unfold overfull; by rewrite Hsel.
  - unfold bin_contents. simpl. by rewrite !Hsel.
  - intros i. rewrite !occurrences_cons.
    repeat case_decide; try done;
      match goal with
      | Hl : replicate _ _ !! _ = Some _ |- _ =>
          by apply lookup_replicate in Hl as [? _]
      end.
Qed.

Lemma is_valid_packing_accepts_no_members_witness :
  let sizes := [0.3; 0.6; 0.9]%float in
  let bins := [[2; 2; 2]; [-1; -1; -1]]%Z in
  is_valid_packing sizes bins = Return true
  ∧ bin_contents sizes bins = [[]; []]
  ∧ ∀ i, occurrences bins i = 0.
Proof.
  apply (is_valid_packing_accepts_no_members [0.3; 0.6; 0.9]%float);
    [reflexivity|].
  intros w Hw. repeat (apply elem_of_cons in Hw as [-> | Hw]; [done|]).
  by apply elem_of_nil in Hw.
Defined.
